(** * Point-light cloth display with size variation

    A shallow embedding of [plc_display_sizeVar_videoCreate.js]: the grid
    sampler, the cloth geometry, the log-scale size controller and the
    per-tick frame scheduler with its telemetry, followed by the properties
    proved about them.

    Numbers.  JavaScript numbers are doubles; a finite double is idealised as
    a real number and rounding is not modelled.  The values that are not
    finite reals ([NaN], the infinities, and [undefined] once it enters
    arithmetic) are collapsed into one extra value where the code can produce
    them: a minimum or maximum over no arguments and an array read out of
    range.  [Math.random] is an input: a stream of reals indexed by the
    number of draws already made.  [performance.now] is an input as well: one
    timestamp per invocation of the tick handler.

    Scope.  The setup is modelled from the per-dot position arrays
    [dot_posX], [dot_posY] in screen coordinates, and covers the grid
    selection, the recentering, the cut and the cycles, the ISI adjustment of
    the duration, the size setup and [move_disc]; the import loop that builds
    those arrays and the random helpers are modelled on their own.  The
    canvas transform for flipped display, the writing of the CSV file and
    [end_trial] are not modelled; [drawDots] is represented by the positions
    it is called with. *)

From Stdlib Require Import Reals Lra Lia ZArith String Bool List Permutation Sorted.
Import ListNotations.
Open Scope R_scope.

(** ** JavaScript number helpers *)

Module Js.

(** [x < y] and [x <= y] as the booleans the code branches on. *)
Definition ltb (x y : R) : bool := if Rlt_dec x y then true else false.
Definition leb (x y : R) : bool := if Rle_dec x y then true else false.
Definition eqb (x y : R) : bool := if Req_dec_T x y then true else false.

(** A number that may fail to be a finite real. *)
Inductive num : Type :=
| Fin (x : R)
| NaN.

Definition lift2 (f : R -> R -> R) (a b : num) : num :=
  match a, b with
  | Fin x, Fin y => Fin (f x y)
  | _, _ => NaN
  end.

(** The first digit of a positive number written in exponent notation,
    [d.ddd e k]: [k] is the decimal exponent and [d] the integer part of
    [x / 10^k]. *)
Definition leadingDigit (x : R) : Z :=
  let k := Zfloor (ln x / ln 10) in
  Zfloor (x / Rpower 10 (IZR k)).

(** [parseInt(x)] on a number.  The number is printed and the integer at the
    start of the print is read.  Zero and the numbers with
    [1e-6 <= |x| < 1e21] are printed in decimal notation, and reading stops
    at the decimal point: the result is the integer part, rounding towards
    zero.  Every other number is printed in exponent notation, as in
    [2e-7] or [1.5e+21], and reading stops after the first digit: the result
    is that digit, with the sign.  (The digits are those of the real number;
    the rounding of the print is not modelled.) *)
Definition parseInt (x : R) : Z :=
  if eqb x 0 then 0%Z
  else if leb (1 / 1000000) (Rabs x) && ltb (Rabs x) (10 ^ 21)
  then (if Rle_dec 0 x then Zfloor x else Zceil x)
  else (if Rle_dec 0 x then leadingDigit x else (- leadingDigit (- x))%Z).

(** [Math.min(...xs)] and [Math.max(...xs)].  Over no arguments the source
    gets an infinity: [None]. *)
Definition Math_min (xs : list R) : option R :=
  match xs with
  | [] => None
  | x :: r => Some (fold_left Rmin r x)
  end.

Definition Math_max (xs : list R) : option R :=
  match xs with
  | [] => None
  | x :: r => Some (fold_left Rmax r x)
  end.

(** [x || d] on an optional numeric parameter: [undefined] and [0] are
    falsy. *)
Definition orElse (x : option R) (d : R) : R :=
  match x with
  | Some v => if eqb v 0 then d else v
  | None => d
  end.

(** All the numbers of a list, when every one of them is finite. *)
Fixpoint finites (xs : list num) : option (list R) :=
  match xs with
  | [] => Some []
  | Fin x :: r =>
      match finites r with
      | Some r' => Some (x :: r')
      | None => None
      end
  | NaN :: _ => None
  end.

(** [Math.max(...xs) - Math.min(...xs)] over numbers that may be [NaN]. *)
Definition spread (xs : list num) : num :=
  match finites xs with
  | Some ys =>
      match Math_max ys, Math_min ys with
      | Some hi, Some lo => Fin (hi - lo)
      | _, _ => NaN
      end
  | None => NaN
  end.

End Js.

(** ** SizeController: bounded random walk on the logarithm of the scale *)

Module SizeController.

(** Steps 5 and 6 of the size setup: the three constants of the walk. *)
Record Config : Type := mkConfig {
  logStepBase : R;
  logMin : R;
  logMax : R
}.

(** The mutable variables [logScale], [currentSizeFactor], [directionSign]. *)
Record State : Type := mkState {
  logScale : R;
  currentSizeFactor : R;
  directionSign : R
}.

(** [logStepBase = Math.log(ratio)], [logMin = Math.log(minScale)],
    [logMax = Math.log(maxScale)]. *)
Definition config (minScale maxScale ratio : R) : Config :=
  {| logStepBase := ln ratio; logMin := ln minScale; logMax := ln maxScale |}.

(** The starting state: [u0] and [u1] are the two [Math.random()] draws. *)
Definition init (c : Config) (u0 u1 : R) : State :=
  let l := u0 * (logMax c - logMin c) + logMin c in
  {| logScale := l;
     currentSizeFactor := exp l;
     directionSign := if Js.ltb u1 (1 / 2) then 1 else -1 |}.

(** [updateSizeFactor()], with [u] its [Math.random()] draw. *)
Definition updateSizeFactor (c : Config) (u : R) (s : State) : State :=
  let d := if Js.ltb u (1 / 2) then 1 else -1 in
  let tempScale := logScale s + d * logStepBase c in
  let d' :=
    if Js.ltb (logMax c) tempScale || Js.ltb tempScale (logMin c)
    then d * -1 else d in
  let l := logScale s + d' * logStepBase c in
  {| logScale := l; currentSizeFactor := exp l; directionSign := d' |}.

(** [getPixelScale()]: a read of [currentSizeFactor]. *)
Definition getPixelScale (s : State) : R := currentSizeFactor s.

(** Repeated steps, one draw each. *)
Definition steps (c : Config) (us : list R) (s : State) : State :=
  fold_left (fun s u => updateSizeFactor c u s) us s.

End SizeController.

(** ** Geometry: bounding box and centre *)

Module Geometry.

Definition Point : Type := (R * R)%type.

(** The ambient variables [minX], [minY], [maxX], [maxY], [clothWidth],
    [clothHeight] that [calculateClothCenter] assigns. *)
Record Bounds : Type := mkBounds {
  minX : R; minY : R; maxX : R; maxY : R;
  clothWidth : R; clothHeight : R
}.

(** [calculateClothCenter(allX, allY)]: the assigned bounds and the returned
    centre.  Over no points the source computes with infinities and returns
    [NaN]: [None]. *)
Definition calculateClothCenter (allX allY : list R) : option (Bounds * Point) :=
  match Js.Math_min allX, Js.Math_min allY, Js.Math_max allX, Js.Math_max allY with
  | Some mnX, Some mnY, Some mxX, Some mxY =>
      let w := mxX - mnX in
      let h := mxY - mnY in
      Some ({| minX := mnX; minY := mnY; maxX := mxX; maxY := mxY;
               clothWidth := w; clothHeight := h |},
            (mnX + w / 2, mnY + h / 2))
  | _, _, _, _ => None
  end.

(** The centre alone, of a list of points. *)
Definition centerOf (ps : list Point) : option Point :=
  option_map snd (calculateClothCenter (map fst ps) (map snd ps)).

End Geometry.

(** ** Sampler: one dot per grid cell *)

Module Sampler.

Import Geometry.

(** The jittered anchor of cell [(x, y)]; [ux] and [uy] are its two
    [Math.random()] draws. *)
Definition anchor (b : Bounds) (binX_num binY_num : nat) (offsetFactor : R)
    (x y : nat) (ux uy : R) : Point :=
  let xbin := clothWidth b / INR binX_num in
  let ybin := clothHeight b / INR binY_num in
  (minX b + (INR x + offsetFactor * (ux - 1 / 2) + 1 / 2) * xbin,
   minY b + (INR y + offsetFactor * (uy - 1 / 2) + 1 / 2) * ybin).

(** Distance of a dot's reference-frame position to the anchor. *)
Definition distance (a p : Point) : R :=
  sqrt ((fst p - fst a) ^ 2 + (snd p - snd a) ^ 2).

(** An entry [{ id, distance }] of [closestDotIDs]. *)
Definition Entry : Type := (nat * R)%type.

Definition closestDotIDs (a : Point) (refs : list Point) : list Entry :=
  combine (seq 0 (length refs)) (map (distance a) refs).

(** [closestDotIDs.sort((a, b) => a.distance - b.distance)]: the sort is
    stable, entries of equal distance keep their order. *)
Fixpoint insert (e : Entry) (l : list Entry) : list Entry :=
  match l with
  | [] => [e]
  | h :: t => if Js.leb (snd e) (snd h) then e :: h :: t else h :: insert e t
  end.

Fixpoint sort (l : list Entry) : list Entry :=
  match l with
  | [] => []
  | h :: t => insert h (sort t)
  end.

(** The loop over the sorted entries: skip the dots already selected, stop
    once this cell has its dot ([dotsPerBin = 1]) or [dotsNeeded] dots are
    selected.  [totalSelected] is the length of [selectedDotIDs]. *)
Fixpoint addClosest (dotsNeeded added : nat) (sorted : list Entry)
    (selectedDotIDs : list nat) : list nat :=
  match sorted with
  | [] => selectedDotIDs
  | (id, _) :: rest =>
      if existsb (Nat.eqb id) selectedDotIDs
      then addClosest dotsNeeded added rest selectedDotIDs
      else if (1 <=? added)%nat || (dotsNeeded <=? length selectedDotIDs)%nat
      then selectedDotIDs
      else addClosest dotsNeeded (S added) rest (selectedDotIDs ++ [id])
  end.

(** The cells in scan order: [x] outer, [y] inner. *)
Definition cells (binX_num binY_num : nat) : list (nat * nat) :=
  list_prod (seq 0 binX_num) (seq 0 binY_num).

(** The anchor of the [k]-th cell visited: it uses draws [2k] and [2k+1]. *)
Definition anchorOf (b : Bounds) (binX_num binY_num : nat) (offsetFactor : R)
    (rng : nat -> R) (k : nat) (cell : nat * nat) : Point :=
  anchor b binX_num binY_num offsetFactor (fst cell) (snd cell)
         (rng (2 * k)%nat) (rng (2 * k + 1)%nat).

(** The body of the two nested loops for one cell. *)
Definition selectCell (b : Bounds) (binX_num binY_num : nat) (offsetFactor : R)
    (rng : nat -> R) (refs : list Point)
    (selectedDotIDs : list nat) (kc : nat * (nat * nat)) : list nat :=
  let a := anchorOf b binX_num binY_num offsetFactor rng (fst kc) (snd kc) in
  addClosest (binX_num * binY_num) 0 (sort (closestDotIDs a refs)) selectedDotIDs.

(** The selection after the first [n] cells. *)
Definition selectedAfter (b : Bounds) (binX_num binY_num : nat) (offsetFactor : R)
    (rng : nat -> R) (refs : list Point) (n : nat) : list nat :=
  fold_left (selectCell b binX_num binY_num offsetFactor rng refs)
            (firstn n (combine (seq 0 (binX_num * binY_num)) (cells binX_num binY_num)))
            [].

(** The whole grid loop: the ids pushed to [selectedDotIDs], in order. *)
Definition gridSelect (b : Bounds) (binX_num binY_num : nat) (offsetFactor : R)
    (rng : nat -> R) (refs : list Point) : list nat :=
  selectedAfter b binX_num binY_num offsetFactor rng refs (binX_num * binY_num).

End Sampler.

(** ** The trial parameters *)

Module Trial.

(** The fields of [trial] that the modelled code reads.  A field is optional
    where the code tests it against [undefined] or supplies a fallback with
    [||]. *)
Record t : Type := mk {
  fps : R;
  cycleNum : option nat;
  cutFrame : option nat;
  trial_duration : option R;
  gridX : nat;
  gridY : nat;
  grid_offSet : R;
  centerCloth : bool;
  static : bool;
  random_frame : option R;
  sizeVariation : bool;
  sizeChangingScalingFactor : option R;
  minSizeFactor : option R;
  maxSizeFactor : option R;
  pixelsPerDegree : option R;
  reversePlayback : bool;
  frameDur : option R;
  isi : option R;
  isiSlows : option bool;
  isiMode : option string
}.

End Trial.

(** ** The tick loop: [move_disc] *)

Module Scheduler.

Import Geometry.

(** The variables of [plugin.trial] that [move_disc] reads and never writes.
    [selected_dot_pos] pairs [selected_dot_posX[i][j]] with
    [selected_dot_posY[i][j]]; [random] is the sequence of [Math.random()]
    draws made inside the loop. *)
Record Env : Type := mkEnv {
  trial : Trial.t;
  frame_num : R;
  trial_duration : R;
  clothCenterX : Js.num;
  clothCenterY : Js.num;
  selected_dot_pos : list (list Point);
  selectedDotIDs : list nat;
  random_frame : R;
  sizeConfig : option SizeController.Config;
  isiMode : string;
  start_time : R;
  random : nat -> R
}.

(** The cell of the [displayFrameNumber] column. *)
Inductive FrameCell : Type :=
| Shown (index : R)
| Blank.

(** One row of [csv_frameData]; [None] is [null]. *)
Record Row : Type := mkRow {
  clothWidth : option Js.num;
  clothHeight : option Js.num;
  scalingFactor : option R;
  isi : R;
  isiSlows : bool;
  displayFrameNumber : FrameCell;
  timeElapsed : R;
  timeInCurrentDisplayFrame : R;
  isiModeCol : string
}.

(** The variables [move_disc] writes.  [size] is the SizeController state,
    [None] when its setup produced [NaN]; [updateCalls] counts the
    invocations of [updateSizeFactor], which is also the number of draws made;
    [shown_pos] holds, for each visible tick, the positions handed to
    [drawDots] and pushed to [shown_pos_frameX]/[shown_pos_frameY], in dot
    order.  ([clothSize_byFrame] receives the same width and height as the
    row of [csv_frameData] and is not kept separately; the timestamps
    [cycleStartTime], [visibleStartTime] and [blankStartTime] are written and
    never read.) *)
Record State : Type := mkState {
  size : option SizeController.State;
  updateCalls : nat;
  lastDisplayedFrameIndex : R;
  currentDisplayFrameStartTime : R;
  hasShownVisibleTickForThisFrame : bool;
  blankFrameStartTime : R;
  lastFrameTime : R;
  frameCounter : nat;
  shown_frameNum : nat;
  cycleVisibleFrames : nat;
  cycleBlankFrames : nat;
  csv_frameData : list Row;
  shown_pos : list (list (Js.num * Js.num))
}.

(** The values assigned before the first call of [move_disc]. *)
Definition initial (size0 : option SizeController.State) : State :=
  {| size := size0;
     updateCalls := 0;
     lastDisplayedFrameIndex := -1;
     currentDisplayFrameStartTime := 0;
     hasShownVisibleTickForThisFrame := false;
     blankFrameStartTime := 0;
     lastFrameTime := 0;
     frameCounter := 0;
     shown_frameNum := 0;
     cycleVisibleFrames := 0;
     cycleBlankFrames := 0;
     csv_frameData := [];
     shown_pos := [] |}.

(** [currentScalingDirection] is declared with [0] and never assigned. *)
Definition currentScalingDirection : R := 0.

(** The frame index for a fraction of the trial: [parseInt], reversal, clamp.
    [move_disc] computes it twice, as [frameIndex] and as [nextIndex]. *)
Definition frameIndexOf (reversePlayback : bool) (frame_num percent_time : R) : R :=
  let raw :=
    if reversePlayback
    then frame_num - 1 - IZR (Js.parseInt (percent_time * frame_num))
    else IZR (Js.parseInt (percent_time * frame_num)) in
  Rmax 0 (Rmin raw (frame_num - 1)).

(** The same as a function of the elapsed time. *)
Definition frameIndexAt (e : Env) (time_elapsed : R) : R :=
  frameIndexOf (Trial.reversePlayback (trial e)) (frame_num e)
               (time_elapsed / trial_duration e).

(** [a[k]] for a number [k]: defined at the integers within range. *)
Definition readAt {A : Type} (a : list A) (k : R) : option A :=
  let z := Zfloor k in
  if Js.eqb k (IZR z) && (0 <=? z)%Z then nth_error a (Z.to_nat z) else None.

Definition numOf (f : Point -> R) (p : option Point) : Js.num :=
  match p with
  | Some q => Js.Fin (f q)
  | None => Js.NaN
  end.

(** [center + (orig - center) * scale]. *)
Definition scaled (center orig scale : Js.num) : Js.num :=
  Js.lift2 Rplus center (Js.lift2 Rmult (Js.lift2 Rminus orig center) scale).

(** [get_posX], [get_posY] for one selected trajectory. *)
Definition get_pos (e : Env) (scale : Js.num) (displayFrameIndex : R)
    (traj : list Point) : Js.num * Js.num :=
  if negb (Trial.static (trial e))
  then
    let orig := readAt traj displayFrameIndex in
    (scaled (clothCenterX e) (numOf fst orig) scale,
     scaled (clothCenterY e) (numOf snd orig) scale)
  else
    let p := readAt traj (IZR (Js.parseInt (random_frame e))) in
    (numOf fst p, numOf snd p).

(** The trajectories the drawing loop visits: [i] runs below
    [selectedDotIDs.length] and reads [selected_dot_posX[i]].  (Both arrays
    have the same length when [shuffle] returns as many indices as it is
    given; a longer id list would make the source fail on the missing
    trajectory.) *)
Definition drawnTrajectories (e : Env) : list (list Point) :=
  firstn (length (selectedDotIDs e)) (selected_dot_pos e).

(** [inFrame_x], [inFrame_y] of a visible tick. *)
Definition inFrame (e : Env) (scale : Js.num) (displayFrameIndex : R)
    : list (Js.num * Js.num) :=
  map (get_pos e scale displayFrameIndex) (drawnTrajectories e).

(** The scale read on a visible tick. *)
Definition scaleOf (e : Env) (s : State) : Js.num :=
  if Trial.sizeVariation (trial e)
  then match size s with
       | Some z => Js.Fin (SizeController.getPixelScale z)
       | None => Js.NaN
       end
  else Js.Fin 1.

(** [updateSizeFactor()] on the state of the loop. *)
Definition stepSize (e : Env) (s : State) : option SizeController.State :=
  match sizeConfig e, size s with
  | Some c, Some z =>
      Some (SizeController.updateSizeFactor c (random e (updateCalls s)) z)
  | _, _ => None
  end.

(** The start of [move_disc]: the first call fixes the displayed index at 0
    and starts its clock; every call counts a frame. *)
Definition enter (current_time : R) (s : State) : State :=
  let first := Js.eqb (lastDisplayedFrameIndex s) (-1) in
  {| size := size s;
     updateCalls := updateCalls s;
     lastDisplayedFrameIndex := if first then 0 else lastDisplayedFrameIndex s;
     currentDisplayFrameStartTime :=
       if first then current_time else currentDisplayFrameStartTime s;
     hasShownVisibleTickForThisFrame := hasShownVisibleTickForThisFrame s;
     blankFrameStartTime := blankFrameStartTime s;
     lastFrameTime := lastFrameTime s;
     frameCounter := S (frameCounter s);
     shown_frameNum := shown_frameNum s;
     cycleVisibleFrames := cycleVisibleFrames s;
     cycleBlankFrames := cycleBlankFrames s;
     csv_frameData := csv_frameData s;
     shown_pos := shown_pos s |}.

(** Whether this tick may advance: the hold timer or the blank timer. *)
Definition shouldAdvanceFrame (e : Env) (current_time timeInCurrentFrameMs : R)
    (s : State) : bool :=
  let frameDurMs := Js.orElse (Trial.frameDur (trial e)) 0 in
  let isiMs := Js.orElse (Trial.isi (trial e)) 0 in
  if String.eqb (isiMode e) "hold"
  then Js.leb frameDurMs timeInCurrentFrameMs
  else
    if negb (hasShownVisibleTickForThisFrame s)
    then false
    else Js.eqb isiMs 0 || Js.leb isiMs (current_time - blankFrameStartTime s).

(** The phase control and the advance of the displayed index, with the size
    step when the index changes. *)
Definition advance (e : Env) (current_time percent_time timeInCurrentFrameMs : R)
    (s : State) : State :=
  if shouldAdvanceFrame e current_time timeInCurrentFrameMs s
  then
    let nextIndex :=
      frameIndexOf (Trial.reversePlayback (trial e)) (frame_num e) percent_time in
    let previousIndex := lastDisplayedFrameIndex s in
    let step :=
      Trial.sizeVariation (trial e) && negb (Js.eqb nextIndex previousIndex) in
    {| size := if step then stepSize e s else size s;
       updateCalls := if step then S (updateCalls s) else updateCalls s;
       lastDisplayedFrameIndex := nextIndex;
       currentDisplayFrameStartTime := current_time;
       hasShownVisibleTickForThisFrame := false;
       blankFrameStartTime := blankFrameStartTime s;
       lastFrameTime := lastFrameTime s;
       frameCounter := frameCounter s;
       shown_frameNum := shown_frameNum s;
       cycleVisibleFrames := cycleVisibleFrames s;
       cycleBlankFrames := cycleBlankFrames s;
       csv_frameData := csv_frameData s;
       shown_pos := shown_pos s |}
  else s.

(** The columns that do not depend on the phase. *)
Definition isiCell (e : Env) : R := Js.orElse (Trial.isi (trial e)) 0.

Definition isiSlowsCell (e : Env) : bool :=
  match Trial.isiSlows (trial e) with
  | Some b => b
  | None => true
  end.

(** A visible tick, in hold mode ([blankMode = false]) or in blank mode. *)
Definition visible (e : Env) (blankMode : bool)
    (current_time time_elapsed timeInCurrentFrame : R) (s : State) : State :=
  let displayFrameIndex := lastDisplayedFrameIndex s in
  let restart := (0 <? cycleBlankFrames s)%nat in
  let scale := scaleOf e s in
  let drawn := inFrame e scale displayFrameIndex in
  let currentClothWidth := Js.spread (map fst drawn) in
  let currentClothHeight := Js.spread (map snd drawn) in
  let row :=
    {| clothWidth := Some currentClothWidth;
       clothHeight := Some currentClothHeight;
       scalingFactor := Some (Js.orElse (Some currentScalingDirection) 0);
       isi := isiCell e;
       isiSlows := isiSlowsCell e;
       displayFrameNumber := Shown (lastDisplayedFrameIndex s);
       timeElapsed := time_elapsed;
       timeInCurrentDisplayFrame := timeInCurrentFrame;
       isiModeCol := isiMode e |} in
  {| size := size s;
     updateCalls := updateCalls s;
     lastDisplayedFrameIndex := lastDisplayedFrameIndex s;
     currentDisplayFrameStartTime := currentDisplayFrameStartTime s;
     hasShownVisibleTickForThisFrame :=
       if blankMode then true else hasShownVisibleTickForThisFrame s;
     blankFrameStartTime :=
       if blankMode then current_time else blankFrameStartTime s;
     lastFrameTime := current_time;
     frameCounter := frameCounter s;
     shown_frameNum := S (shown_frameNum s);
     cycleVisibleFrames := S (if restart then 0 else cycleVisibleFrames s)%nat;
     cycleBlankFrames := if restart then 0%nat else cycleBlankFrames s;
     csv_frameData := csv_frameData s ++ [row];
     shown_pos := shown_pos s ++ [drawn] |}.

(** A blank tick of the inter-stimulus interval. *)
Definition blank (e : Env) (time_elapsed timeInCurrentFrame : R) (s : State)
    : State :=
  let row :=
    {| clothWidth := None;
       clothHeight := None;
       scalingFactor := None;
       isi := isiCell e;
       isiSlows := isiSlowsCell e;
       displayFrameNumber := Blank;
       timeElapsed := time_elapsed;
       timeInCurrentDisplayFrame := timeInCurrentFrame;
       isiModeCol := isiMode e |} in
  {| size := size s;
     updateCalls := updateCalls s;
     lastDisplayedFrameIndex := lastDisplayedFrameIndex s;
     currentDisplayFrameStartTime := currentDisplayFrameStartTime s;
     hasShownVisibleTickForThisFrame := hasShownVisibleTickForThisFrame s;
     blankFrameStartTime := blankFrameStartTime s;
     lastFrameTime := lastFrameTime s;
     frameCounter := frameCounter s;
     shown_frameNum := shown_frameNum s;
     cycleVisibleFrames := cycleVisibleFrames s;
     cycleBlankFrames := S (cycleBlankFrames s);
     csv_frameData := csv_frameData s ++ [row];
     shown_pos := shown_pos s |}.

(** What is shown after the advance, by ISI mode. *)
Definition display (e : Env) (current_time time_elapsed timeInCurrentFrame : R)
    (s : State) : State :=
  if String.eqb (isiMode e) "hold"
  then visible e false current_time time_elapsed timeInCurrentFrame s
  else if String.eqb (isiMode e) "blank"
          && negb (hasShownVisibleTickForThisFrame s)
  then visible e true current_time time_elapsed timeInCurrentFrame s
  else if String.eqb (isiMode e) "blank" && hasShownVisibleTickForThisFrame s
  then blank e time_elapsed timeInCurrentFrame s
  else s.

(** [trial.trial_duration && time_elapsed >= trial.trial_duration]. *)
Definition explicitDurationReached (e : Env) (time_elapsed : R) : bool :=
  match Trial.trial_duration (trial e) with
  | Some d => negb (Js.eqb d 0) && Js.leb d time_elapsed
  | None => false
  end.

(** One call of [move_disc] at time [current_time].  The boolean tells
    whether the next animation frame was requested; otherwise the trial
    ends. *)
Definition move_disc (e : Env) (current_time : R) (s : State) : State * bool :=
  let time_elapsed := (current_time - start_time e) / 1000 in
  let s0 := enter current_time s in
  let percent_time := time_elapsed / trial_duration e in
  let timeInCurrentFrameMs := current_time - currentDisplayFrameStartTime s0 in
  let timeInCurrentFrame := timeInCurrentFrameMs / 1000 in
  if explicitDurationReached e time_elapsed
  then (s0, false)
  else if Js.ltb time_elapsed (trial_duration e)
  then
    let s1 := advance e current_time percent_time timeInCurrentFrameMs s0 in
    (display e current_time time_elapsed timeInCurrentFrame s1, true)
  else (s0, false).

(** The calls of [move_disc], one per timestamp, until the trial ends. *)
Fixpoint run (e : Env) (times : list R) (s : State) : State :=
  match times with
  | [] => s
  | current_time :: rest =>
      let (s', again) := move_disc e current_time s in
      if again then run e rest s' else s'
  end.

(** The displayed index a call starts from: 0 on the first call. *)
Definition heldIndex (s : State) : R :=
  if Js.eqb (lastDisplayedFrameIndex s) (-1) then 0 else lastDisplayedFrameIndex s.

(** The number of calls, along a run, that change the displayed index. *)
Fixpoint indexChanges (e : Env) (times : list R) (s : State) : nat :=
  match times with
  | [] => 0
  | current_time :: rest =>
      let (s', again) := move_disc e current_time s in
      ((if Js.eqb (lastDisplayedFrameIndex s') (heldIndex s) then 0 else 1)
       + (if again then indexChanges e rest s' else 0))%nat
  end.

(** A state with the SizeController part removed. *)
Definition withoutSize (s : State) : State :=
  {| size := None;
     updateCalls := updateCalls s;
     lastDisplayedFrameIndex := lastDisplayedFrameIndex s;
     currentDisplayFrameStartTime := currentDisplayFrameStartTime s;
     hasShownVisibleTickForThisFrame := hasShownVisibleTickForThisFrame s;
     blankFrameStartTime := blankFrameStartTime s;
     lastFrameTime := lastFrameTime s;
     frameCounter := frameCounter s;
     shown_frameNum := shown_frameNum s;
     cycleVisibleFrames := cycleVisibleFrames s;
     cycleBlankFrames := cycleBlankFrames s;
     csv_frameData := csv_frameData s;
     shown_pos := shown_pos s |}.

End Scheduler.

(** ** The setup of [plugin.trial], up to the first call of [move_disc] *)

Module Setup.

Import Geometry.

(** The positions of one dot after the import loop, which pushes one position
    per frame for every dot: [first] is the reference frame (frame 0). *)
Record Traj : Type := mkTraj {
  first : Point;
  others : list Point
}.

Definition positions (d : Traj) : list Point := first d :: others d.

(** The number of frames of the imported data. *)
Definition importedFrames (dot_pos : list Traj) : nat :=
  match dot_pos with
  | [] => 0
  | d :: _ => length (positions d)
  end.

Definition translate (delta : Point) (traj : list Point) : list Point :=
  map (fun p => (fst p + fst delta, snd p + snd delta)) traj.

(** [a[i] = f(a[i])] on an array of arrays. *)
Fixpoint updateAt {A : Type} (f : A -> A) (i : nat) (a : list A) : list A :=
  match a, i with
  | [], _ => []
  | x :: r, O => f x :: r
  | x :: r, S j => x :: updateAt f j r
  end.

(** The recentering loop.  [selected_dot_posX[i]] is the very array
    [dot_posX[id]], so the loop writes into the store of all dots, once per
    entry of the selection; the reference position of each translated
    trajectory is pushed to [allX], [allY]. *)
Definition moveSelected (delta : Point) (store : list (list Point))
    (ids : list nat) : list (list Point) * list Point :=
  fold_left
    (fun acc id =>
       let store' := updateAt (translate delta) id (fst acc) in
       (store', snd acc ++ firstn 1 (nth id store' [])))
    ids (store, []).

(** [splice(0, cutFrame)] followed by [cycleNum] rounds of
    [a = a.concat(a)]. *)
Definition cutAndCycle (cut cycles : nat) (traj : list Point) : list Point :=
  Nat.iter cycles (fun a => a ++ a) (skipn cut traj).

(** The ISI adjustment of the trial duration. *)
Definition isiAdjust (t : Trial.t) (frame_num trial_duration : R) : R :=
  match Trial.isi t with
  | Some gap =>
      if Js.ltb 0 gap
      then match Trial.isiSlows t with
           | Some true => trial_duration + (frame_num - 1) * (gap / 1000)
           | _ => trial_duration
           end
      else trial_duration
  | None => trial_duration
  end.

(** Steps 1 to 7 of the size setup, with the two draws [u0], [u1].  The
    bounds are finite when the measured extent and the configured sizes are
    positive; otherwise the scale is [NaN] from the start.  The step is
    finite when the ratio is positive. *)
Definition sizeSetup (t : Trial.t) (allX allY : list R) (u0 u1 : R)
    : option SizeController.Config * option SizeController.State :=
  match Js.Math_max allX, Js.Math_min allX, Js.Math_max allY, Js.Math_min allY with
  | Some mxX, Some mnX, Some mxY, Some mnY =>
      let initialClothWidth := mxX - mnX in
      let initialClothHeight := mxY - mnY in
      let initialClothSizePx :=
        sqrt (initialClothWidth ^ 2 + initialClothHeight ^ 2) in
      let pixelsPerDegree := Js.orElse (Trial.pixelsPerDegree t) 50 in
      let minAbsDeg := Js.orElse (Trial.minSizeFactor t) (16 / 10) in
      let maxAbsDeg := Js.orElse (Trial.maxSizeFactor t) (73 / 10) in
      let minAbsPx := minAbsDeg * pixelsPerDegree in
      let maxAbsPx := maxAbsDeg * pixelsPerDegree in
      let minScale := minAbsPx / initialClothSizePx in
      let maxScale := maxAbsPx / initialClothSizePx in
      let ratio := Js.orElse (Trial.sizeChangingScalingFactor t) (7 / 4) in
      let c := SizeController.config minScale maxScale ratio in
      if Js.ltb 0 initialClothSizePx && Js.ltb 0 minAbsPx && Js.ltb 0 maxAbsPx
      then (if Js.ltb 0 ratio then Some c else None,
            Some (SizeController.init c u0 u1))
      else (None, None)
  | _, _, _, _ => (None, None)
  end.

(** What the setup leaves behind for the tick loop. *)
Record Prepared : Type := mkPrepared {
  gridIDs : list nat;
  allXY : list Point;
  env : Scheduler.Env;
  state : Scheduler.State
}.

(** The setup.  [rng] gives the [Math.random()] draws of the setup in order
    (two per grid cell, then two for the size walk); [shuffle] and
    [getRandomInt] stand for the two helpers defined outside this file;
    [tickRandom] gives the draws of the tick loop. *)
Definition setup (t : Trial.t) (dot_pos : list Traj) (screenCenter : Point)
    (rng : nat -> R) (shuffle : list nat -> list nat) (getRandomInt : R)
    (start_time : R) (tickRandom : nat -> R) : Prepared :=
  let refs := map first dot_pos in
  let store := map positions dot_pos in
  let cutFrame := match Trial.cutFrame t with Some n => n | None => 0%nat end in
  let cycleNum := match Trial.cycleNum t with Some n => n | None => 1%nat end in
  let frame_num0 := (INR (importedFrames dot_pos) - INR cutFrame) * INR cycleNum in
  let trial_duration0 :=
    match Trial.trial_duration t with
    | None => frame_num0 / Trial.fps t
    | Some d => d
    end in
  let frame_num :=
    match Trial.trial_duration t with
    | None => frame_num0
    | Some d => d * Trial.fps t
    end in
  let cloth := calculateClothCenter (map fst refs) (map snd refs) in
  let binX_num := Trial.gridX t in
  let binY_num := Trial.gridY t in
  let ids :=
    match cloth with
    | Some (b, _) =>
        Sampler.gridSelect b binX_num binY_num (Trial.grid_offSet t) rng refs
    | None => []
    end in
  let moved :=
    if Trial.centerCloth t
    then match cloth with
         | Some (_, c) =>
             moveSelected (fst screenCenter - fst c, snd screenCenter - snd c)
                          store ids
         | None => (store, [])
         end
    else (store, []) in
  let clothCenter :=
    if Trial.centerCloth t then centerOf (snd moved) else option_map snd cloth in
  let selected :=
    map (fun id => cutAndCycle cutFrame cycleNum (nth id (fst moved) [])) ids in
  let trial_duration := isiAdjust t frame_num trial_duration0 in
  let draws := (2 * (binX_num * binY_num))%nat in
  let sized :=
    sizeSetup t (map fst (snd moved)) (map snd (snd moved))
              (rng draws) (rng (S draws)) in
  {| gridIDs := ids;
     allXY := snd moved;
     env :=
       {| Scheduler.trial := t;
          Scheduler.frame_num := frame_num;
          Scheduler.trial_duration := trial_duration;
          Scheduler.clothCenterX := Scheduler.numOf fst clothCenter;
          Scheduler.clothCenterY := Scheduler.numOf snd clothCenter;
          Scheduler.selected_dot_pos := selected;
          Scheduler.selectedDotIDs :=
            firstn (binX_num * binY_num) (shuffle (seq 0 (length dot_pos)));
          Scheduler.random_frame :=
            match Trial.random_frame t with
            | Some k => k
            | None => getRandomInt
            end;
          Scheduler.sizeConfig := fst sized;
          Scheduler.isiMode :=
            match Trial.isiMode t with
            | Some m => if String.eqb m "" then "blank"%string else m
            | None => "blank"%string
            end;
          Scheduler.start_time := start_time;
          Scheduler.random := tickRandom |};
     state := Scheduler.initial (snd sized) |}.

End Setup.

(** ** Bounding box of what a tick draws *)

Module Drawn.

Import Geometry.

(** The drawn positions as points, when all of them are finite. *)
Fixpoint points (frame : list (Js.num * Js.num)) : option (list Point) :=
  match frame with
  | [] => Some []
  | (Js.Fin x, Js.Fin y) :: r =>
      match points r with
      | Some ps => Some ((x, y) :: ps)
      | None => None
      end
  | _ :: _ => None
  end.

(** The centre of the bounding box of the drawn positions. *)
Definition center (frame : list (Js.num * Js.num)) : option Point :=
  match points frame with
  | Some ps => centerOf ps
  | None => None
  end.

(** The unscaled positions of the drawn trajectories at a frame index. *)
Definition originals (e : Scheduler.Env) (displayFrameIndex : R)
    : list (option Point) :=
  map (fun traj => Scheduler.readAt traj displayFrameIndex)
      (Scheduler.drawnTrajectories e).

(** The stored position that static display shows for a trajectory. *)
Definition staticPosition (e : Scheduler.Env) (traj : list Point)
    : Js.num * Js.num :=
  let p := Scheduler.readAt traj (IZR (Js.parseInt (Scheduler.random_frame e))) in
  (Scheduler.numOf fst p, Scheduler.numOf snd p).

End Drawn.

(** ** Concrete trials *)

Module Demo.

(** A trial with the given switches: one grid cell, one frame per second, no
    cut, one cycle, no explicit duration, forward playback, the fallback
    sizes, and a hold duration of 0 ms. *)
Definition trial (centerCloth static sizeVariation : bool) (isi : option R)
    (isiMode : string) : Trial.t :=
  {| Trial.fps := 1;
     Trial.cycleNum := None;
     Trial.cutFrame := None;
     Trial.trial_duration := None;
     Trial.gridX := 1;
     Trial.gridY := 1;
     Trial.grid_offSet := 0;
     Trial.centerCloth := centerCloth;
     Trial.static := static;
     Trial.random_frame := Some 0;
     Trial.sizeVariation := sizeVariation;
     Trial.sizeChangingScalingFactor := None;
     Trial.minSizeFactor := None;
     Trial.maxSizeFactor := None;
     Trial.pixelsPerDegree := None;
     Trial.reversePlayback := false;
     Trial.frameDur := Some 0;
     Trial.isi := isi;
     Trial.isiSlows := Some true;
     Trial.isiMode := Some isiMode |}.

(** One dot that moves from (0, 0) to (10, 0). *)
Definition movingDot : list Setup.Traj :=
  [ {| Setup.first := (0, 0); Setup.others := [(10, 0)] |} ].

(** Two dots at rest, at (0, 0) and at (10, 0). *)
Definition twoDots : list Setup.Traj :=
  [ {| Setup.first := (0, 0); Setup.others := [] |};
    {| Setup.first := (10, 0); Setup.others := [] |} ].

(** The setup of a trial on a screen centred at (100, 100), started at time
    0, with every draw equal to 1/4 and the identity as shuffle. *)
Definition prepare (t : Trial.t) (dot_pos : list Setup.Traj) : Setup.Prepared :=
  Setup.setup t dot_pos (100, 100) (fun _ => 1 / 4) (fun ids => ids) 0 0
              (fun _ => 1 / 4).

(** A loop environment written out: four frames in two seconds, one dot
    moving along the x axis around the cloth centre (0, 0). *)
Definition env (t : Trial.t) (isiMode : string) : Scheduler.Env :=
  {| Scheduler.trial := t;
     Scheduler.frame_num := 4;
     Scheduler.trial_duration := 2;
     Scheduler.clothCenterX := Js.Fin 0;
     Scheduler.clothCenterY := Js.Fin 0;
     Scheduler.selected_dot_pos := [[(0, 0); (10, 0); (20, 0); (30, 0)]];
     Scheduler.selectedDotIDs := [0%nat];
     Scheduler.random_frame := 0;
     Scheduler.sizeConfig := Some (SizeController.mkConfig 1 0 4);
     Scheduler.isiMode := isiMode;
     Scheduler.start_time := 0;
     Scheduler.random := fun _ => 1 / 4 |}.

Definition size0 : option SizeController.State :=
  Some (SizeController.mkState 2 (exp 2) 1).

(** The trial with one moving dot, in hold mode, without centring and without
    size variation, and the loop environment its setup leaves. *)
Definition holdTrial : Trial.t := trial false false false None "hold".

Definition holdEnv : Scheduler.Env :=
  {| Scheduler.trial := holdTrial;
     Scheduler.frame_num := 2;
     Scheduler.trial_duration := 2;
     Scheduler.clothCenterX := Js.Fin 0;
     Scheduler.clothCenterY := Js.Fin 0;
     Scheduler.selected_dot_pos := [[(0, 0); (10, 0); (0, 0); (10, 0)]];
     Scheduler.selectedDotIDs := [0%nat];
     Scheduler.random_frame := 0;
     Scheduler.sizeConfig := None;
     Scheduler.isiMode := "hold";
     Scheduler.start_time := 0;
     Scheduler.random := fun _ => 1 / 4 |}.

End Demo.

(** ** The import of the dot positions *)

Module DotImport.

Import Geometry.

(** One entry of [trial.dot_pos]. *)
Record Sample : Type := mkSample {
  id : Z;
  frame : Z;
  X : R;
  Y : R
}.

(** [scaleCoordinates(objX, objY, scaleFactor)]. *)
Definition scaleCoordinates (screenCenter : Point) (objX objY scaleFactor : R)
    : Point :=
  (objX * scaleFactor + fst screenCenter,
   - objY * scaleFactor + snd screenCenter).

(** [[...new Set(a)].length]. *)
Definition distinct (a : list Z) : nat := length (nodup Z.eq_dec a).

(** [if (!a[m]) a[m] = []; a[m].push(p)], for [m] at most the length of
    [a], as in the import loop. *)
Fixpoint pushAt (m : nat) (p : Point) (a : list (list Point))
    : list (list Point) :=
  match a, m with
  | [], _ => [[p]]
  | x :: r, O => (x ++ [p]) :: r
  | x :: r, S j => x :: pushAt j p r
  end.

(** The variables of the import loop: the read position [t], the arrays
    [dot_posX]/[dot_posY] (paired), and [allX]/[allY] (paired). *)
Record Cursor : Type := mkCursor {
  t : nat;
  dot_pos : list (list Point);
  allXY : list Point
}.

(** The body of the inner loop for dot [m] of frame [f]; reading past the
    end of [dot_pos] throws: [None]. *)
Definition importStep (scaled : list Point) (f : nat) (c : option Cursor)
    (m : nat) : option Cursor :=
  match c with
  | None => None
  | Some c =>
      match nth_error scaled (t c) with
      | None => None
      | Some p =>
          Some {| t := S (t c);
                  dot_pos := pushAt m p (dot_pos c);
                  allXY := if (f =? 0)%nat then allXY c ++ [p] else allXY c |}
      end
  end.

(** The two nested loops. *)
Definition importLoop (scaled : list Point) (frame_num dot_num : nat)
    : option Cursor :=
  fold_left
    (fun c f => fold_left (importStep scaled f) (seq 0 dot_num) c)
    (seq 0 frame_num)
    (Some {| t := 0; dot_pos := []; allXY := [] |}).

(** The import: every entry is scaled into screen coordinates, the frames
    and the dots are counted by their distinct [frame] and [id] values, and
    the entries are read in order, frame by frame. *)
Definition importDots (screenCenter : Point) (scaleFactor : R)
    (samples : list Sample) : option Cursor :=
  importLoop
    (map (fun s => scaleCoordinates screenCenter (X s) (Y s) scaleFactor) samples)
    (distinct (map frame samples))
    (distinct (map id samples)).

(** An imported array as a trajectory with a reference frame. *)
Definition toTraj (a : list Point) : option Setup.Traj :=
  match a with
  | [] => None
  | p :: r => Some (Setup.mkTraj p r)
  end.

End DotImport.

(** ** The random helpers *)

Module Random.


(** [getRandomNumber(min, max)], with its draw [u]. *)
Definition getRandomNumber (u min max : R) : R :=
  IZR (Zfloor (u * (max - min + 1))) + min.


End Random.

(** ** Notions used to state properties of runs *)

Module Runs.

(** The number of calls of a run that request another frame. *)
Fixpoint runningCalls (e : Scheduler.Env) (times : list R) (s : Scheduler.State)
    : nat :=
  match times with
  | [] => 0
  | current_time :: rest =>
      let (s', again) := Scheduler.move_disc e current_time s in
      if again then S (runningCalls e rest s') else 0
  end.

Definition isVisible (r : Scheduler.Row) : bool :=
  match Scheduler.displayFrameNumber r with
  | Scheduler.Shown _ => true
  | Scheduler.Blank => false
  end.

(** The elapsed times of the visible rows, in order. *)
Definition visibleTimes (rows : list Scheduler.Row) : list R :=
  map Scheduler.timeElapsed (filter isVisible rows).

(** The displayed indices of the visible rows, in order. *)
Fixpoint shownIndices (rows : list Scheduler.Row) : list R :=
  match rows with
  | [] => []
  | r :: rest =>
      match Scheduler.displayFrameNumber r with
      | Scheduler.Shown k => k :: shownIndices rest
      | Scheduler.Blank => shownIndices rest
      end
  end.

(** Consecutive elements are at least [gap] apart. *)
Fixpoint spaced (gap : R) (ts : list R) : Prop :=
  match ts with
  | a :: (b :: _) as rest => a + gap <= b /\ spaced gap rest
  | _ => True
  end.

(** Whenever the frame number differs from that of the row before, the
    row's time in the display frame is at least [d]. *)
Fixpoint heldFor (d : R) (rows : list Scheduler.Row) : Prop :=
  match rows with
  | a :: (b :: _) as rest =>
      (Scheduler.displayFrameNumber b <> Scheduler.displayFrameNumber a ->
       d <= Scheduler.timeInCurrentDisplayFrame b)
      /\ heldFor d rest
  | _ => True
  end.

End Runs.

(** ** Concrete inputs for the further properties *)

Module Inputs.

(** Two dots over two frames, in the order of the import: frame by frame,
    dot by dot. *)
Definition samples : list DotImport.Sample :=
  [ DotImport.mkSample 7 0 0 0;
    DotImport.mkSample 9 0 10 0;
    DotImport.mkSample 7 1 0 5;
    DotImport.mkSample 9 1 10 5 ].

(** Two dots over three frames each. *)
Definition threeFrames : list Setup.Traj :=
  [ {| Setup.first := (0, 0); Setup.others := [(1, 0); (2, 0)] |};
    {| Setup.first := (10, 0); Setup.others := [(11, 0); (12, 0)] |} ].

(** A trial on a grid of two cells by one, with the given switches, ISI mode
    and explicit duration; the sizes fall back to their constants. *)
Definition trial (centerCloth sizeVariation reversePlayback : bool)
    (isi : option R) (isiMode : string) (trial_duration : option R) : Trial.t :=
  {| Trial.fps := 1;
     Trial.cycleNum := None;
     Trial.cutFrame := None;
     Trial.trial_duration := trial_duration;
     Trial.gridX := 2;
     Trial.gridY := 1;
     Trial.grid_offSet := 0;
     Trial.centerCloth := centerCloth;
     Trial.static := false;
     Trial.random_frame := Some 0;
     Trial.sizeVariation := sizeVariation;
     Trial.sizeChangingScalingFactor := None;
     Trial.minSizeFactor := None;
     Trial.maxSizeFactor := None;
     Trial.pixelsPerDegree := None;
     Trial.reversePlayback := reversePlayback;
     Trial.frameDur := Some 100;
     Trial.isi := isi;
     Trial.isiSlows := Some true;
     Trial.isiMode := Some isiMode |}.

(** A loop environment for a trial: three frames in three seconds. *)
Definition env (t : Trial.t) (isiMode : string) : Scheduler.Env :=
  {| Scheduler.trial := t;
     Scheduler.frame_num := 3;
     Scheduler.trial_duration := 3;
     Scheduler.clothCenterX := Js.Fin 5;
     Scheduler.clothCenterY := Js.Fin 0;
     Scheduler.selected_dot_pos :=
       [[(0, 0); (1, 0); (2, 0)]; [(10, 0); (11, 0); (12, 0)]];
     Scheduler.selectedDotIDs := [0%nat; 1%nat];
     Scheduler.random_frame := 0;
     Scheduler.sizeConfig := None;
     Scheduler.isiMode := isiMode;
     Scheduler.start_time := 0;
     Scheduler.random := fun _ => 1 / 4 |}.

(** A trial with size variation in hold mode without a hold duration: every
    call advances to the frame of its elapsed time. *)
Definition scalingTrial : Trial.t :=
  {| Trial.fps := 1;
     Trial.cycleNum := None;
     Trial.cutFrame := None;
     Trial.trial_duration := None;
     Trial.gridX := 2;
     Trial.gridY := 1;
     Trial.grid_offSet := 0;
     Trial.centerCloth := true;
     Trial.static := false;
     Trial.random_frame := Some 0;
     Trial.sizeVariation := true;
     Trial.sizeChangingScalingFactor := Some 2;
     Trial.minSizeFactor := Some (5 / 2);
     Trial.maxSizeFactor := Some 40;
     Trial.pixelsPerDegree := Some 1;
     Trial.reversePlayback := false;
     Trial.frameDur := Some 0;
     Trial.isi := None;
     Trial.isiSlows := Some true;
     Trial.isiMode := Some "hold"%string |}.

(** Its loop environment: two dots over three frames in three seconds,
    around the cloth centre (5, 0).  At frame 1 the dots have moved apart
    and their box is still centred at (5, 0); at frame 2 it is centred at
    (7, 0).  The cloth is 10 pixels wide at the reference frame, so the
    sizes of the trial bound the scale by 1/4 and 4; it walks in steps of
    ratio 2, and every draw of the loop is 1/4, which is a step upwards. *)
Definition scalingEnv : Scheduler.Env :=
  {| Scheduler.trial := scalingTrial;
     Scheduler.frame_num := 3;
     Scheduler.trial_duration := 3;
     Scheduler.clothCenterX := Js.Fin 5;
     Scheduler.clothCenterY := Js.Fin 0;
     Scheduler.selected_dot_pos :=
       [[(0, 0); (-1, 0); (2, 0)]; [(10, 0); (11, 0); (12, 0)]];
     Scheduler.selectedDotIDs := [0%nat; 1%nat];
     Scheduler.random_frame := 0;
     Scheduler.sizeConfig := Some (SizeController.config (1 / 4) 4 2);
     Scheduler.isiMode := "hold";
     Scheduler.start_time := 0;
     Scheduler.random := fun _ => 1 / 4 |}.

(** The size state at scale 1. *)
Definition unitSize : option SizeController.State :=
  Some (SizeController.mkState 0 1 1).

End Inputs.

(** * Properties *)

(** ** Facts about the number helpers *)

Lemma ltb_true (x y : R) : x < y -> Js.ltb x y = true.
Proof. intros H. unfold Js.ltb. destruct (Rlt_dec x y); [reflexivity | contradiction]. Qed.

Lemma ltb_false (x y : R) : y <= x -> Js.ltb x y = false.
Proof. intros H. unfold Js.ltb. destruct (Rlt_dec x y); [lra | reflexivity]. Qed.

Lemma leb_true (x y : R) : x <= y -> Js.leb x y = true.
Proof. intros H. unfold Js.leb. destruct (Rle_dec x y); [reflexivity | contradiction]. Qed.

Lemma leb_false (x y : R) : y < x -> Js.leb x y = false.
Proof. intros H. unfold Js.leb. destruct (Rle_dec x y); [lra | reflexivity]. Qed.

Lemma eqb_true (x y : R) : x = y -> Js.eqb x y = true.
Proof. intros H. unfold Js.eqb. destruct (Req_dec_T x y); [reflexivity | contradiction]. Qed.

Lemma eqb_false (x y : R) : x <> y -> Js.eqb x y = false.
Proof. intros H. unfold Js.eqb. destruct (Req_dec_T x y); [contradiction | reflexivity]. Qed.

(** ** SizeController *)

Section SizeWalk.

Import SizeController.

Variable c : Config.

(** One reflected step stays inside the bounds when twice the step fits. *)
Lemma updateSizeFactor_in_bounds (u : R) (s : State) :
  2 * Rabs (logStepBase c) <= logMax c - logMin c ->
  logMin c <= logScale s <= logMax c ->
  logMin c <= logScale (updateSizeFactor c u s) <= logMax c.
Proof.
  intros Hstep Hin. unfold updateSizeFactor. cbn [logScale].
  assert (Habs := Rabs_pos (logStepBase c)).
  assert (Hle := Rle_abs (logStepBase c)).
  assert (Hge := Rle_abs (- logStepBase c)). rewrite Rabs_Ropp in Hge.
  unfold Js.ltb.
  destruct (Rlt_dec u (1 / 2));
    destruct (Rlt_dec (logMax c) _); destruct (Rlt_dec _ (logMin c));
    cbn [orb]; lra.
Qed.

Lemma steps_in_bounds (us : list R) (s : State) :
  2 * Rabs (logStepBase c) <= logMax c - logMin c ->
  logMin c <= logScale s <= logMax c ->
  logMin c <= logScale (steps c us s) <= logMax c.
Proof.
  intros Hstep. revert s. unfold steps.
  induction us as [|u us IH]; intros s Hin; cbn [fold_left].
  - exact Hin.
  - apply IH. now apply updateSizeFactor_in_bounds.
Qed.

(** The linear scale is the exponential of the logarithmic one after a step. *)
Lemma updateSizeFactor_factor (u : R) (s : State) :
  currentSizeFactor (updateSizeFactor c u s) = exp (logScale (updateSizeFactor c u s)).
Proof. reflexivity. Qed.

End SizeWalk.

Lemma exp_le (x y : R) : x <= y -> exp x <= exp y.
Proof.
  intros [H | H].
  - left. now apply exp_increasing.
  - right. now rewrite H.
Qed.

(** A step that is too long for the interval leaves it from the midpoint. *)
Lemma updateSizeFactor_long_step_escapes (c : SizeController.Config) (u : R) :
  SizeController.logMin c <= SizeController.logMax c ->
  SizeController.logMax c - SizeController.logMin c
    < 2 * SizeController.logStepBase c ->
  let mid := (SizeController.logMin c + SizeController.logMax c) / 2 in
  let s := SizeController.mkState mid (exp mid) 1 in
  ~ (SizeController.logMin c
       <= SizeController.logScale (SizeController.updateSizeFactor c u s)
       <= SizeController.logMax c).
Proof.
  intros Hle Hlong mid s. unfold SizeController.updateSizeFactor.
  cbn [SizeController.logScale s]. unfold Js.ltb.
  destruct (Rlt_dec u (1 / 2));
    destruct (Rlt_dec (SizeController.logMax c) _);
    destruct (Rlt_dec _ (SizeController.logMin c));
    cbn [orb]; subst mid; lra.
Qed.

(** C1: [updateSizeFactor] reverses the direction of a step that would
    leave the bounds and applies the reversed step without clamping it.
    With [logMin = 0], [logMax = 3] and a step of 2 (which is at most
    [logMax - logMin]), the state [logScale = 3/2], within the bounds, moves
    up to 7/2, is reversed, and lands on -1/2, below [logMin]; the linear
    scale ends below [minScale = 1]. *)
Theorem size_walk_reversed_step_leaves_bounds :
  let c := SizeController.config 1 (exp 3) (exp 2) in
  let s := SizeController.mkState (3 / 2) (exp (3 / 2)) 1 in
  let s' := SizeController.updateSizeFactor c (1 / 4) s in
  (SizeController.logMin c <= SizeController.logScale s <= SizeController.logMax c)
  /\ SizeController.logStepBase c <= SizeController.logMax c - SizeController.logMin c
  /\ SizeController.logScale s' = - (1 / 2)
  /\ SizeController.logScale s' < SizeController.logMin c
  /\ SizeController.currentSizeFactor s' < 1.
Proof.
  cbv zeta.
  assert (E : SizeController.logScale
                (SizeController.updateSizeFactor
                   (SizeController.config 1 (exp 3) (exp 2)) (1 / 4)
                   (SizeController.mkState (3 / 2) (exp (3 / 2)) 1)) = - (1 / 2)).
  { unfold SizeController.updateSizeFactor, SizeController.config.
    cbn [SizeController.logScale SizeController.logStepBase
         SizeController.logMin SizeController.logMax].
    rewrite ln_1, !ln_exp.
    rewrite (ltb_true (1 / 4) (1 / 2)) by lra.
    rewrite (ltb_true 3 (3 / 2 + 1 * 2)) by lra.
    cbn [orb]. lra. }
  rewrite updateSizeFactor_factor, !E.
  unfold SizeController.config.
  cbn [SizeController.logStepBase SizeController.logMin SizeController.logMax
       SizeController.logScale].
  rewrite ln_1, !ln_exp.
  repeat split; try lra.
  assert (H : exp (- (1 / 2)) < exp 0) by (apply exp_increasing; lra).
  now rewrite exp_0 in H.
Qed.

(** When twice the step fits between the bounds,
    [2 * |logStepBase| <= logMax - logMin], the reversed step never needs a
    clamp: any sequence of steps from a state within [logMin, logMax] stays
    within [logMin, logMax], for every sequence of draws, and the linear
    scale [exp logScale] stays within [minScale, maxScale]. *)
Lemma size_walk_stays_in_bounds
    (minScale maxScale ratio : R) (us : list R) (s : SizeController.State) :
  0 < minScale -> 0 < maxScale ->
  let c := SizeController.config minScale maxScale ratio in
  2 * Rabs (SizeController.logStepBase c)
    <= SizeController.logMax c - SizeController.logMin c ->
  SizeController.logMin c <= SizeController.logScale s <= SizeController.logMax c ->
  let s' := SizeController.steps c us s in
  (SizeController.logMin c <= SizeController.logScale s' <= SizeController.logMax c)
  /\ (minScale <= exp (SizeController.logScale s') <= maxScale).
Proof.
  intros Hmin Hmax c Hstep Hin s'.
  assert (B : SizeController.logMin c <= SizeController.logScale s'
              <= SizeController.logMax c)
    by (now apply steps_in_bounds).
  split; [exact B|].
  destruct B as [B1 B2]. apply exp_le in B1. apply exp_le in B2.
  unfold c in B1, B2. cbn [SizeController.config SizeController.logMin
                           SizeController.logMax] in B1, B2.
  rewrite exp_ln in B1 by assumption. rewrite exp_ln in B2 by assumption.
  split; assumption.
Qed.

(** ** The frame index mapping *)

Lemma ln_10_pos : 0 < ln 10.
Proof. rewrite <- ln_1. apply ln_increasing; lra. Qed.

Lemma Rpower_10_pos (y : R) : 0 < Rpower 10 y.
Proof. unfold Rpower. apply exp_pos. Qed.

Lemma Rpower_10_neg (n : nat) : Rpower 10 (IZR (- Z.of_nat n)) = / 10 ^ n.
Proof.
  rewrite opp_IZR, <- INR_IZR_INZ, Rpower_Ropp, Rpower_pow by lra.
  reflexivity.
Qed.

Lemma leadingDigit_nonneg (x : R) : 0 <= x -> (0 <= Js.leadingDigit x)%Z.
Proof.
  intros Hx. unfold Js.leadingDigit. apply (Zfloor_lub 0).
  apply Rmult_le_pos; [exact Hx|].
  left. apply Rinv_0_lt_compat. apply Rpower_10_pos.
Qed.

(** The digit in front of [e k] in the exponent notation. *)
Lemma leadingDigit_eq (d k : Z) (x : R) :
  (1 <= d <= 9)%Z ->
  IZR d * Rpower 10 (IZR k) <= x < (IZR d + 1) * Rpower 10 (IZR k) ->
  Js.leadingDigit x = d.
Proof.
  intros [Hd1 Hd9] [Hlo Hhi].
  pose proof (Rpower_10_pos (IZR k)) as HP.
  pose proof ln_10_pos as H10.
  assert (H1 : 1 <= IZR d) by (now apply (IZR_le 1)).
  assert (H9 : IZR d <= 9) by (now apply (IZR_le d 9)).
  assert (HxP : Rpower 10 (IZR k) <= x) by nra.
  assert (Hx10 : x < 10 * Rpower 10 (IZR k)) by nra.
  assert (Hx : 0 < x) by lra.
  assert (HlnP : ln (Rpower 10 (IZR k)) = IZR k * ln 10)
    by (unfold Rpower; apply ln_exp).
  assert (Hk : Zfloor (ln x / ln 10) = k).
  { apply Zfloor_eq.
    assert (L1 : ln (Rpower 10 (IZR k)) <= ln x).
    { destruct HxP as [Hlt | Heq]; [left; now apply ln_increasing|].
      right. now rewrite Heq. }
    assert (L2 : ln x < ln (10 * Rpower 10 (IZR k)))
      by (now apply ln_increasing).
    rewrite ln_mult in L2 by lra. rewrite HlnP in L1, L2.
    split.
    - apply Rmult_le_reg_r with (ln 10); [exact H10|].
      unfold Rdiv. rewrite Rmult_assoc, Rinv_l by lra. lra.
    - apply Rmult_lt_reg_r with (ln 10); [exact H10|].
      unfold Rdiv. rewrite Rmult_assoc, Rinv_l by lra. lra. }
  unfold Js.leadingDigit. rewrite Hk. apply Zfloor_eq.
  split.
  - apply Rmult_le_reg_r with (Rpower 10 (IZR k)); [exact HP|].
    unfold Rdiv. rewrite Rmult_assoc, Rinv_l by lra. lra.
  - apply Rmult_lt_reg_r with (Rpower 10 (IZR k)); [exact HP|].
    unfold Rdiv. rewrite Rmult_assoc, Rinv_l by lra. lra.
Qed.

Lemma parseInt_zero : Js.parseInt 0 = 0%Z.
Proof. unfold Js.parseInt. now rewrite eqb_true. Qed.

(** In decimal notation the integer part is read. *)
Lemma parseInt_decimal (x : R) :
  1 / 1000000 <= x < 10 ^ 21 -> Js.parseInt x = Zfloor x.
Proof.
  intros [Hlo Hhi]. unfold Js.parseInt.
  rewrite eqb_false by lra. rewrite Rabs_pos_eq by lra.
  rewrite leb_true, ltb_true by assumption. cbn [andb].
  destruct (Rle_dec 0 x); [reflexivity | lra].
Qed.

(** In exponent notation the first digit is read. *)
Lemma parseInt_exponent (x : R) :
  0 < x < 1 / 1000000 -> Js.parseInt x = Js.leadingDigit x.
Proof.
  intros [Hlo Hhi]. unfold Js.parseInt.
  rewrite eqb_false by lra. rewrite Rabs_pos_eq by lra.
  rewrite leb_false by assumption. cbn [andb].
  destruct (Rle_dec 0 x); [reflexivity | lra].
Qed.

Lemma parseInt_nonneg (x : R) : 0 <= x -> (0 <= Js.parseInt x)%Z.
Proof.
  intros H. unfold Js.parseInt.
  destruct (Js.eqb x 0); [lia|].
  destruct (Rle_dec 0 x); [|contradiction].
  destruct (_ && _); [now apply (Zfloor_lub 0) | now apply leadingDigit_nonneg].
Qed.

Lemma parseInt_le (x y : R) :
  x = 0 \/ 1 / 1000000 <= x -> x <= y -> y < 10 ^ 21 ->
  (Js.parseInt x <= Js.parseInt y)%Z.
Proof.
  intros [-> | Hx] Hxy Hy.
  - rewrite parseInt_zero. now apply parseInt_nonneg.
  - rewrite !parseInt_decimal by lra. now apply Zfloor_le.
Qed.

Lemma parseInt_eq (z : Z) (x : R) :
  (0 <= z)%Z -> IZR z <= x < IZR z + 1 ->
  x = 0 \/ 1 / 1000000 <= x -> x < 10 ^ 21 ->
  Js.parseInt x = z.
Proof.
  intros Hz Hx [-> | Hlo] Hhi.
  - rewrite parseInt_zero. destruct Hx as [Hx _].
    apply (le_IZR z 0) in Hx. lia.
  - rewrite parseInt_decimal by lra. now apply Zfloor_eq.
Qed.

Lemma clamp_le (a b hi : R) : a <= b -> Rmax 0 (Rmin a hi) <= Rmax 0 (Rmin b hi).
Proof.
  intros H. apply Rle_max_compat_l. now apply Rle_min_compat_r.
Qed.

Lemma clamp_range (a hi : R) : 0 <= hi -> 0 <= Rmax 0 (Rmin a hi) <= hi.
Proof.
  intros H. split.
  - apply Rmax_l.
  - apply Rmax_lub; [exact H | apply Rmin_r].
Qed.

Lemma fraction_le (d n t1 t2 : R) :
  0 < d -> 0 <= n -> 0 <= t1 <= t2 -> 0 <= t1 / d * n <= t2 / d * n.
Proof.
  intros Hd Hn [H1 H2].
  assert (Hi : 0 < / d) by (now apply Rinv_0_lt_compat).
  unfold Rdiv. split.
  - apply Rmult_le_pos; [apply Rmult_le_pos|]; lra.
  - apply Rmult_le_compat_r; [lra|]. apply Rmult_le_compat_r; lra.
Qed.

(** While the product is printed in decimal notation (it is 0 or at least
    1e-6, and the frame count is below 1e21), the frame index is
    non-decreasing in the elapsed time in forward playback, non-increasing
    in reverse playback; it lies in [0, frame_num - 1] in any case. *)
Lemma frameIndexAt_monotone (e : Scheduler.Env) (t1 t2 : R) :
  1 <= Scheduler.frame_num e ->
  Scheduler.frame_num e <= 10 ^ 21 ->
  0 <= t1 <= t2 ->
  t2 < Scheduler.trial_duration e ->
  t1 = 0
  \/ 1 / 1000000 <= t1 / Scheduler.trial_duration e * Scheduler.frame_num e ->
  (Trial.reversePlayback (Scheduler.trial e) = false ->
     Scheduler.frameIndexAt e t1 <= Scheduler.frameIndexAt e t2)
  /\ (Trial.reversePlayback (Scheduler.trial e) = true ->
        Scheduler.frameIndexAt e t2 <= Scheduler.frameIndexAt e t1)
  /\ (0 <= Scheduler.frameIndexAt e t1 <= Scheduler.frame_num e - 1).
Proof.
  intros Hn Hbig Ht Hend Hdec.
  assert (Hd : 0 < Scheduler.trial_duration e) by lra.
  destruct (fraction_le (Scheduler.trial_duration e) (Scheduler.frame_num e)
              t1 t2 Hd ltac:(lra) Ht) as [F1 F2].
  assert (Hx2 : t2 / Scheduler.trial_duration e * Scheduler.frame_num e
                < 10 ^ 21).
  { assert (t2 / Scheduler.trial_duration e < 1).
    { apply Rmult_lt_reg_r with (Scheduler.trial_duration e); [exact Hd|].
      unfold Rdiv. rewrite Rmult_assoc, Rinv_l by lra. lra. }
    nra. }
  assert (Hx1 : t1 / Scheduler.trial_duration e * Scheduler.frame_num e = 0
                \/ 1 / 1000000
                   <= t1 / Scheduler.trial_duration e * Scheduler.frame_num e).
  { destruct Hdec as [-> | H]; [left; unfold Rdiv; ring | now right]. }
  assert (M : IZR (Js.parseInt (t1 / Scheduler.trial_duration e * Scheduler.frame_num e))
              <= IZR (Js.parseInt (t2 / Scheduler.trial_duration e * Scheduler.frame_num e))).
  { apply IZR_le. now apply parseInt_le. }
  unfold Scheduler.frameIndexAt, Scheduler.frameIndexOf.
  repeat split.
  - intros ->. now apply clamp_le.
  - intros ->. apply clamp_le. lra.
  - apply clamp_range. lra.
  - apply clamp_range. lra.
Qed.

(** ** The ISI adjustment of the duration *)

Lemma isiAdjust_extends (t : Trial.t) (frame_num trial_duration gap : R) :
  Trial.isi t = Some gap -> 0 < gap -> Trial.isiSlows t = Some true ->
  Setup.isiAdjust t frame_num trial_duration
  = trial_duration + (frame_num - 1) * (gap / 1000).
Proof.
  intros Hi Hg Hs. unfold Setup.isiAdjust. rewrite Hi, Hs.
  now rewrite ltb_true.
Qed.

Lemma isiAdjust_unchanged (t : Trial.t) (frame_num trial_duration : R) :
  Trial.isiSlows t <> Some true ->
  Setup.isiAdjust t frame_num trial_duration = trial_duration.
Proof.
  intros Hs. unfold Setup.isiAdjust.
  destruct (Trial.isi t) as [gap|]; [|reflexivity].
  destruct (Js.ltb 0 gap); [|reflexivity].
  destruct (Trial.isiSlows t) as [[|]|]; congruence.
Qed.

(** ** One call of [move_disc] *)

Section Tick.

Import Scheduler.

Variable e : Env.

(** A call either ends the trial right after its first statements, or
    advances and displays. *)
Lemma move_disc_cases (current_time : R) (s : State) :
  move_disc e current_time s = (enter current_time s, false)
  \/ exists percent_time ms te tf,
       move_disc e current_time s
       = (display e current_time te tf
            (advance e current_time percent_time ms (enter current_time s)),
          true).
Proof.
  unfold move_disc.
  destruct (explicitDurationReached e _); [now left|].
  destruct (Js.ltb _ _); [|now left].
  right. now eexists _, _, _, _.
Qed.

Lemma enter_index (current_time : R) (s : State) :
  lastDisplayedFrameIndex (enter current_time s) = heldIndex s.
Proof. reflexivity. Qed.

Lemma eqb_refl (x : R) : Js.eqb x x = true.
Proof. now apply eqb_true. Qed.

Lemma eqb_eq (x y : R) : Js.eqb x y = true -> x = y.
Proof. unfold Js.eqb. destruct (Req_dec_T x y); [trivial | discriminate]. Qed.

Lemma eqb_neq (x y : R) : Js.eqb x y = false -> x <> y.
Proof. unfold Js.eqb. destruct (Req_dec_T x y); [discriminate | trivial]. Qed.

(** The advance calls [updateSizeFactor] exactly when it changes the index. *)
Lemma advance_step (current_time percent_time ms : R) (s : State) :
  Trial.sizeVariation (trial e) = true ->
  let s' := advance e current_time percent_time ms s in
  (lastDisplayedFrameIndex s' <> lastDisplayedFrameIndex s ->
     updateCalls s' = S (updateCalls s) /\ size s' = stepSize e s)
  /\ (lastDisplayedFrameIndex s' = lastDisplayedFrameIndex s ->
        updateCalls s' = updateCalls s /\ size s' = size s).
Proof.
  intros Hv. unfold advance. rewrite Hv. cbn [andb].
  destruct (shouldAdvanceFrame e current_time ms s).
  - cbn [lastDisplayedFrameIndex updateCalls size].
    destruct (Js.eqb _ (lastDisplayedFrameIndex s)) eqn:E; cbn [negb].
    + apply eqb_eq in E. split; [intros H; contradiction | now split].
    + apply eqb_neq in E. split; [now split | intros H; contradiction].
  - cbv zeta. split; [intros H; now contradiction H | now split].
Qed.

(** Displaying changes neither the index nor the size state. *)
Lemma display_keeps (current_time te tf : R) (s : State) :
  let s' := display e current_time te tf s in
  lastDisplayedFrameIndex s' = lastDisplayedFrameIndex s
  /\ updateCalls s' = updateCalls s /\ size s' = size s.
Proof.
  unfold display.
  destruct (String.eqb (isiMode e) "hold"); [now repeat split|].
  destruct (String.eqb (isiMode e) "blank" && negb _); [now repeat split|].
  destruct (String.eqb (isiMode e) "blank" && _); now repeat split.
Qed.

(** The index a call leaves is the one it started from or the one the
    elapsed time maps to. *)
Lemma move_disc_index (current_time : R) (s : State) :
  let s' := fst (move_disc e current_time s) in
  lastDisplayedFrameIndex s' = heldIndex s
  \/ lastDisplayedFrameIndex s'
     = frameIndexAt e ((current_time - start_time e) / 1000).
Proof.
  unfold move_disc.
  destruct (explicitDurationReached e _); [now left|].
  destruct (Js.ltb _ _); [|now left].
  cbn [fst].
  match goal with
  | |- context [display e ?a ?b ?c ?d] =>
      rewrite (proj1 (display_keeps a b c d))
  end.
  unfold advance. destruct (shouldAdvanceFrame _ _ _ _); [now right | now left].
Qed.

Lemma move_disc_step (current_time : R) (s : State) :
  Trial.sizeVariation (trial e) = true ->
  let s' := fst (move_disc e current_time s) in
  (lastDisplayedFrameIndex s' <> heldIndex s ->
     updateCalls s' = S (updateCalls s) /\ size s' = stepSize e s)
  /\ (lastDisplayedFrameIndex s' = heldIndex s ->
        updateCalls s' = updateCalls s /\ size s' = size s).
Proof.
  intros Hv.
  destruct (move_disc_cases current_time s) as [-> | (p & ms & te & tf & ->)];
    cbn [fst].
  - rewrite enter_index. split; [intros H; now contradiction H | now split].
  - destruct (display_keeps current_time te tf
                (advance e current_time p ms (enter current_time s)))
      as (D1 & D2 & D3).
    destruct (advance_step current_time p ms (enter current_time s) Hv)
      as [A1 A2].
    rewrite enter_index in A1, A2.
    rewrite D1, D2, D3. split; [exact A1 | exact A2].
Qed.

Lemma run_updateCalls (times : list R) (s : State) :
  Trial.sizeVariation (trial e) = true ->
  updateCalls (run e times s) = (updateCalls s + indexChanges e times s)%nat.
Proof.
  intros Hv. revert s.
  induction times as [|t rest IH]; intros s; cbn [run indexChanges].
  - lia.
  - destruct (move_disc_step t s Hv) as [C1 C2].
    destruct (move_disc e t s) as [s' again] eqn:E. cbn [fst] in C1, C2.
    assert (Hs' : updateCalls s'
                  = (updateCalls s
                     + (if Js.eqb (lastDisplayedFrameIndex s') (heldIndex s)
                        then 0 else 1))%nat).
    { destruct (Js.eqb _ _) eqn:Q.
      - apply eqb_eq in Q. destruct (C2 Q) as [-> _]. lia.
      - apply eqb_neq in Q. destruct (C1 Q) as [-> _]. lia. }
    destruct again.
    + rewrite IH, Hs'. lia.
    + rewrite Hs'. lia.
Qed.

(** *** Rows *)

Lemma orElse_zero : Js.orElse (Some currentScalingDirection) 0 = 0.
Proof. unfold Js.orElse, currentScalingDirection. now rewrite eqb_refl. Qed.

Lemma display_rows (P : Row -> Prop) (current_time te tf : R) (s : State) :
  (forall r, displayFrameNumber r <> Blank -> scalingFactor r = Some 0 -> P r) ->
  (forall r, displayFrameNumber r = Blank -> scalingFactor r = None -> P r) ->
  Forall P (csv_frameData s) ->
  Forall P (csv_frameData (display e current_time te tf s)).
Proof.
  intros Hvis Hblank Hs. unfold display.
  destruct (String.eqb (isiMode e) "hold").
  { cbn [visible csv_frameData]. apply Forall_app. split; [exact Hs|].
    constructor; [|constructor]. apply Hvis; cbn [displayFrameNumber scalingFactor]; [discriminate|].
    now rewrite orElse_zero. }
  destruct (String.eqb (isiMode e) "blank" && negb _).
  { cbn [visible csv_frameData]. apply Forall_app. split; [exact Hs|].
    constructor; [|constructor]. apply Hvis; cbn [displayFrameNumber scalingFactor]; [discriminate|].
    now rewrite orElse_zero. }
  destruct (String.eqb (isiMode e) "blank" && _); [|exact Hs].
  cbn [blank csv_frameData]. apply Forall_app. split; [exact Hs|].
  constructor; [|constructor]. now apply Hblank.
Qed.

Lemma advance_rows (current_time p ms : R) (s : State) :
  csv_frameData (advance e current_time p ms s) = csv_frameData s
  /\ shown_pos (advance e current_time p ms s) = shown_pos s.
Proof. unfold advance. destruct (shouldAdvanceFrame _ _ _ _); now split. Qed.

Lemma move_disc_rows (P : Row -> Prop) (current_time : R) (s : State) :
  (forall r, displayFrameNumber r <> Blank -> scalingFactor r = Some 0 -> P r) ->
  (forall r, displayFrameNumber r = Blank -> scalingFactor r = None -> P r) ->
  Forall P (csv_frameData s) ->
  Forall P (csv_frameData (fst (move_disc e current_time s))).
Proof.
  intros Hvis Hblank Hs.
  destruct (move_disc_cases current_time s) as [-> | (p & ms & te & tf & ->)];
    cbn [fst]; [exact Hs|].
  apply display_rows; [exact Hvis | exact Hblank |].
  now rewrite (proj1 (advance_rows _ _ _ _)).
Qed.

Lemma run_rows (P : Row -> Prop) (times : list R) (s : State) :
  (forall r, displayFrameNumber r <> Blank -> scalingFactor r = Some 0 -> P r) ->
  (forall r, displayFrameNumber r = Blank -> scalingFactor r = None -> P r) ->
  Forall P (csv_frameData s) ->
  Forall P (csv_frameData (run e times s)).
Proof.
  intros Hvis Hblank. revert s.
  induction times as [|t rest IH]; intros s Hs; cbn [run]; [exact Hs|].
  pose proof (move_disc_rows P t s Hvis Hblank Hs) as H.
  destruct (move_disc e t s) as [s' again]. cbn [fst] in H.
  destruct again; [now apply IH | exact H].
Qed.

End Tick.

(** ** Static display and the SizeController *)

Section StaticDisplay.

Import Scheduler.

Variable e : Env.
Hypothesis static_set : Trial.static (trial e) = true.

(** With the static flag set, a drawn position is the stored one. *)
Lemma get_pos_static (scale : Js.num) (displayFrameIndex : R) (traj : list Geometry.Point) :
  get_pos e scale displayFrameIndex traj = Drawn.staticPosition e traj.
Proof. unfold get_pos. now rewrite static_set. Qed.

Lemma inFrame_static (scale : Js.num) (displayFrameIndex : R) :
  inFrame e scale displayFrameIndex
  = map (Drawn.staticPosition e) (drawnTrajectories e).
Proof.
  unfold inFrame. apply map_ext. intros traj. apply get_pos_static.
Qed.

Lemma enter_withoutSize (current_time : R) (s : State) :
  enter current_time (withoutSize s) = withoutSize (enter current_time s).
Proof. reflexivity. Qed.

Lemma advance_withoutSize (current_time p ms : R) (s : State) :
  withoutSize (advance e current_time p ms (withoutSize s))
  = withoutSize (advance e current_time p ms s).
Proof.
  unfold advance.
  change (shouldAdvanceFrame e current_time ms (withoutSize s))
    with (shouldAdvanceFrame e current_time ms s).
  destruct (shouldAdvanceFrame e current_time ms s); reflexivity.
Qed.

Lemma visible_withoutSize (b : bool) (current_time te tf : R) (s1 s2 : State) :
  withoutSize s1 = withoutSize s2 ->
  withoutSize (visible e b current_time te tf s1)
  = withoutSize (visible e b current_time te tf s2).
Proof.
  intros H. unfold visible. rewrite !inFrame_static.
  destruct s1, s2. cbn in H. injection H as -> -> -> -> -> -> -> -> -> -> -> ->.
  reflexivity.
Qed.

Lemma display_withoutSize (current_time te tf : R) (s1 s2 : State) :
  withoutSize s1 = withoutSize s2 ->
  withoutSize (display e current_time te tf s1)
  = withoutSize (display e current_time te tf s2).
Proof.
  intros H. unfold display.
  assert (Hh : hasShownVisibleTickForThisFrame s1
               = hasShownVisibleTickForThisFrame s2)
    by (exact (f_equal hasShownVisibleTickForThisFrame H)).
  rewrite Hh.
  destruct (String.eqb (isiMode e) "hold"); [now apply visible_withoutSize|].
  destruct (String.eqb (isiMode e) "blank" && negb _);
    [now apply visible_withoutSize|].
  destruct (String.eqb (isiMode e) "blank" && _); [|exact H].
  unfold blank. destruct s1, s2. cbn in H.
  injection H as -> -> -> -> -> -> -> -> -> -> -> ->. reflexivity.
Qed.

Lemma move_disc_withoutSize (current_time : R) (s1 s2 : State) :
  withoutSize s1 = withoutSize s2 ->
  withoutSize (fst (move_disc e current_time s1))
  = withoutSize (fst (move_disc e current_time s2))
  /\ snd (move_disc e current_time s1) = snd (move_disc e current_time s2).
Proof.
  intros H. unfold move_disc.
  assert (He : withoutSize (enter current_time s1)
               = withoutSize (enter current_time s2))
    by (now rewrite <- !enter_withoutSize, H).
  assert (Hc : currentDisplayFrameStartTime (enter current_time s1)
               = currentDisplayFrameStartTime (enter current_time s2))
    by (exact (f_equal currentDisplayFrameStartTime He)).
  rewrite Hc.
  destruct (explicitDurationReached e _); [now split|].
  destruct (Js.ltb _ _); [|now split].
  cbn [fst snd]. split; [|reflexivity].
  apply display_withoutSize.
  rewrite <- (advance_withoutSize _ _ _ (enter current_time s1)).
  rewrite <- (advance_withoutSize _ _ _ (enter current_time s2)).
  now rewrite He.
Qed.

Lemma run_withoutSize (times : list R) (s1 s2 : State) :
  withoutSize s1 = withoutSize s2 ->
  withoutSize (run e times s1) = withoutSize (run e times s2).
Proof.
  revert s1 s2.
  induction times as [|t rest IH]; intros s1 s2 H; cbn [run]; [exact H|].
  destruct (move_disc_withoutSize t s1 s2 H) as [H1 H2].
  destruct (move_disc e t s1) as [s1' a1].
  destruct (move_disc e t s2) as [s2' a2].
  cbn [fst snd] in H1, H2. subst a2.
  destruct a1; [now apply IH | exact H1].
Qed.

(** Every frame of positions drawn is the list of stored positions. *)
Lemma move_disc_static_frames (current_time : R) (s : State) :
  Forall (fun frame => frame = map (Drawn.staticPosition e) (drawnTrajectories e))
         (shown_pos s) ->
  Forall (fun frame => frame = map (Drawn.staticPosition e) (drawnTrajectories e))
         (shown_pos (fst (move_disc e current_time s))).
Proof.
  intros Hs.
  destruct (move_disc_cases e current_time s) as [-> | (p & ms & te & tf & ->)];
    cbn [fst]; [exact Hs|].
  assert (Ha : Forall (fun frame => frame = map (Drawn.staticPosition e) (drawnTrajectories e))
                 (shown_pos (advance e current_time p ms (enter current_time s))))
    by (now rewrite (proj2 (advance_rows e _ _ _ _))).
  revert Ha. generalize (advance e current_time p ms (enter current_time s)).
  intros s1 Ha. unfold display.
  destruct (String.eqb (isiMode e) "hold").
  { cbn [visible shown_pos]. apply Forall_app. split; [exact Ha|].
    constructor; [apply inFrame_static | constructor]. }
  destruct (String.eqb (isiMode e) "blank" && negb _).
  { cbn [visible shown_pos]. apply Forall_app. split; [exact Ha|].
    constructor; [apply inFrame_static | constructor]. }
  destruct (String.eqb (isiMode e) "blank" && _); exact Ha.
Qed.

Lemma run_static_frames (times : list R) (s : State) :
  Forall (fun frame => frame = map (Drawn.staticPosition e) (drawnTrajectories e))
         (shown_pos s) ->
  Forall (fun frame => frame = map (Drawn.staticPosition e) (drawnTrajectories e))
         (shown_pos (run e times s)).
Proof.
  revert s.
  induction times as [|t rest IH]; intros s Hs; cbn [run]; [exact Hs|].
  pose proof (move_disc_static_frames t s Hs) as H.
  destruct (move_disc e t s) as [s' again]. cbn [fst] in H.
  destruct again; [now apply IH | exact H].
Qed.

End StaticDisplay.

(** ** Bounding boxes under affine maps *)

Section Affine.

Variables k b : R.

Let f (x : R) : R := x * k + b.

Lemma affine_min_max (x y : R) :
  (0 <= k -> f (Rmin x y) = Rmin (f x) (f y) /\ f (Rmax x y) = Rmax (f x) (f y))
  /\ (k <= 0 -> f (Rmin x y) = Rmax (f x) (f y) /\ f (Rmax x y) = Rmin (f x) (f y)).
Proof.
  unfold f, Rmin, Rmax.
  destruct (Rle_dec x y) as [H | H];
    destruct (Rle_dec (x * k + b) (y * k + b)) as [G | G];
    split; intros Hk; split; try reflexivity; nra.
Qed.

Lemma affine_fold_up (r : list R) (x : R) :
  0 <= k ->
  fold_left Rmin (map f r) (f x) = f (fold_left Rmin r x)
  /\ fold_left Rmax (map f r) (f x) = f (fold_left Rmax r x).
Proof.
  intros Hk. revert x.
  induction r as [|y r IH]; intros x; cbn [map fold_left]; [now split|].
  destruct (proj1 (affine_min_max x y) Hk) as [<- <-].
  split; [apply (proj1 (IH _)) | apply (proj2 (IH _))].
Qed.

Lemma affine_fold_down (r : list R) (x : R) :
  k <= 0 ->
  fold_left Rmin (map f r) (f x) = f (fold_left Rmax r x)
  /\ fold_left Rmax (map f r) (f x) = f (fold_left Rmin r x).
Proof.
  intros Hk. revert x.
  induction r as [|y r IH]; intros x; cbn [map fold_left]; [now split|].
  destruct (proj2 (affine_min_max x y) Hk) as [E1 E2].
  rewrite <- E1, <- E2.
  split; [apply (proj1 (IH _)) | apply (proj2 (IH _))].
Qed.

(** The midpoint of the range of an affine image is the image of the
    midpoint. *)
Lemma affine_midpoint (xs : list R) (mn mx : R) :
  Js.Math_min xs = Some mn -> Js.Math_max xs = Some mx ->
  exists mn' mx',
    Js.Math_min (map f xs) = Some mn' /\ Js.Math_max (map f xs) = Some mx'
    /\ mn' + (mx' - mn') / 2 = f (mn + (mx - mn) / 2).
Proof.
  destruct xs as [|x r]; [discriminate|].
  cbn [Js.Math_min Js.Math_max map]. intros [= <-] [= <-].
  destruct (Rle_dec 0 k) as [Hk | Hk].
  - destruct (affine_fold_up r x Hk) as [-> ->].
    eexists _, _. repeat split. unfold f. lra.
  - destruct (affine_fold_down r x ltac:(lra)) as [-> ->].
    eexists _, _. repeat split. unfold f. lra.
Qed.

End Affine.

(** The centre of the bounding box of an affine image of a list of points. *)
Lemma centerOf_affine (kx bx ky by_ : R) (ps : list Geometry.Point) (c : Geometry.Point) :
  Geometry.centerOf ps = Some c ->
  Geometry.centerOf (map (fun p => (fst p * kx + bx, snd p * ky + by_)) ps)
  = Some (fst c * kx + bx, snd c * ky + by_).
Proof.
  unfold Geometry.centerOf, Geometry.calculateClothCenter.
  rewrite !map_map. cbn [fst snd].
  destruct (Js.Math_min (map fst ps)) as [mnX|] eqn:E1; [|discriminate].
  destruct (Js.Math_min (map snd ps)) as [mnY|] eqn:E2; [|discriminate].
  destruct (Js.Math_max (map fst ps)) as [mxX|] eqn:E3; [|discriminate].
  destruct (Js.Math_max (map snd ps)) as [mxY|] eqn:E4; [|discriminate].
  cbn [option_map snd]. intros [= <-].
  destruct (affine_midpoint kx bx _ _ _ E1 E3) as (a1 & a2 & A1 & A2 & A3).
  destruct (affine_midpoint ky by_ _ _ _ E2 E4) as (b1 & b2 & B1 & B2 & B3).
  rewrite map_map in A1, A2, B1, B2.
  rewrite A1, A2, B1, B2. cbn [option_map snd fst].
  now rewrite A3, B3.
Qed.

(** ** The sampler *)

Section SortByDistance.

Import Sampler.

(** Nearer first; among entries equally near, the earlier dot first. *)
Let nearer (e1 e2 : Entry) : Prop :=
  snd e1 < snd e2 \/ (snd e1 = snd e2 /\ (fst e1 < fst e2)%nat).

Lemma insert_perm (e : Entry) (l : list Entry) : Permutation (insert e l) (e :: l).
Proof.
  induction l as [|h t IH]; cbn [insert]; [reflexivity|].
  destruct (Js.leb (snd e) (snd h)); [reflexivity|].
  rewrite IH. apply perm_swap.
Qed.

Lemma sort_perm (l : list Entry) : Permutation (sort l) l.
Proof.
  induction l as [|h t IH]; cbn [sort]; [reflexivity|].
  rewrite insert_perm. now apply perm_skip.
Qed.

Lemma insert_sorted (e : Entry) (l : list Entry) :
  StronglySorted nearer l ->
  Forall (fun x => (fst e < fst x)%nat) l ->
  StronglySorted nearer (insert e l).
Proof.
  induction 1 as [|h t Ht IH Hh]; intros Hid; cbn [insert].
  - constructor; constructor.
  - apply Forall_cons_iff in Hid. destruct Hid as [Hidh Hidt].
    unfold Js.leb. destruct (Rle_dec (snd e) (snd h)) as [Hle | Hgt].
    + constructor; [now constructor|].
      constructor.
      * destruct Hle as [Hlt | Heq]; [now left | right; now split].
      * rewrite Forall_forall in Hh, Hidt |- *. intros x Hx.
        specialize (Hh x Hx). specialize (Hidt x Hx).
        unfold nearer in *. destruct Hh as [Hh | [Hh _]]; destruct Hle as [Hle|Hle];
          try (left; lra); right; split; [lra | exact Hidt].
    + constructor; [now apply IH|].
      rewrite Forall_forall in Hh |- *. intros x Hx.
      apply (Permutation_in _ (insert_perm e t)) in Hx.
      destruct Hx as [<- | Hx]; [left; lra | now apply Hh].
Qed.

Lemma sort_closest_sorted (ds : list R) (start : nat) :
  StronglySorted nearer (sort (combine (seq start (length ds)) ds)).
Proof.
  revert start. induction ds as [|d ds IH]; intros start; cbn [length seq combine sort].
  - constructor.
  - apply insert_sorted; [apply IH|].
    rewrite Forall_forall. intros [j x] Hx. cbn [fst].
    apply (Permutation_in _ (sort_perm _)) in Hx.
    apply in_combine_l in Hx. apply in_seq in Hx. lia.
Qed.

(** The first entry of a sorted list that passes a test is nearer than every
    other entry that passes it. *)
Lemma find_sorted_least (p : Entry -> bool) (l : list Entry) (e : Entry) :
  StronglySorted nearer l ->
  find p l = Some e ->
  forall x, In x l -> p x = true -> x = e \/ nearer e x.
Proof.
  induction 1 as [|h t Ht IH Hh]; cbn [find]; [discriminate|].
  destruct (p h) eqn:Hp.
  - intros [= <-] x [<- | Hx] _; [now left|].
    right. rewrite Forall_forall in Hh. now apply Hh.
  - intros Hf x [<- | Hx] Hpx; [congruence|]. now apply IH.
Qed.

Lemma addClosest_done (dotsNeeded : nat) (l : list Entry) (sel : list nat) :
  addClosest dotsNeeded 1 l sel = sel.
Proof.
  induction l as [|[id d] rest IH]; cbn [addClosest]; [reflexivity|].
  destruct (existsb (Nat.eqb id) sel); [exact IH | reflexivity].
Qed.

(** With room left, the loop adds the first entry not yet selected. *)
Lemma addClosest_find (dotsNeeded : nat) (l : list Entry) (sel : list nat) :
  (length sel < dotsNeeded)%nat ->
  addClosest dotsNeeded 0 l sel
  = match find (fun x => negb (existsb (Nat.eqb (fst x)) sel)) l with
    | Some x => sel ++ [fst x]
    | None => sel
    end.
Proof.
  intros Hroom. induction l as [|[id d] rest IH]; cbn [addClosest find fst];
    [reflexivity|].
  destruct (existsb (Nat.eqb id) sel); cbn [negb]; [exact IH|].
  replace (dotsNeeded <=? length sel)%nat with false
    by (symmetry; apply Nat.leb_gt; lia).
  cbn [Nat.leb orb]. apply addClosest_done.
Qed.

Lemma existsb_eqb_In (id : nat) (sel : list nat) :
  existsb (Nat.eqb id) sel = true <-> In id sel.
Proof.
  rewrite existsb_exists. split.
  - intros (x & Hx & E). apply Nat.eqb_eq in E. now subst.
  - intros H. exists id. split; [exact H | apply Nat.eqb_refl].
Qed.

Lemma in_closest (a : Geometry.Point) (refs : list Geometry.Point) (j : nat) (d : R) :
  In (j, d) (closestDotIDs a refs)
  <-> (j < length refs)%nat /\ d = distance a (nth j refs (0, 0)).
Proof.
  unfold closestDotIDs.
  assert (G : forall start,
             In (j, d) (combine (seq start (length refs)) (map (distance a) refs))
             <-> (start <= j < start + length refs)%nat
                 /\ d = distance a (nth (j - start) refs (0, 0))).
  { induction refs as [|p refs IH]; intros start; cbn [length seq map combine In].
    - split; [contradiction | lia].
    - rewrite IH. split.
      + intros [[= <- <-] | [H1 H2]].
        * split; [lia|]. now rewrite Nat.sub_diag.
        * split; [lia|]. replace (j - start)%nat with (S (j - S start)) by lia.
          exact H2.
      + intros [H1 H2]. destruct (Nat.eq_dec j start) as [-> | Hne].
        * left. rewrite Nat.sub_diag in H2. now subst.
        * right. split; [lia|].
          replace (j - start)%nat with (S (j - S start)) in H2 by lia.
          exact H2. }
  rewrite G, Nat.sub_0_r. intuition lia.
Qed.

(** One cell: either every dot is already selected and nothing changes, or
    the cell gets the nearest dot not yet selected, the earliest among the
    equally near. *)
Lemma selectCell_spec (b : Geometry.Bounds) (gx gy : nat) (off : R) (rng : nat -> R)
    (refs : list Geometry.Point) (sel : list nat) (k : nat) (cell : nat * nat) :
  (length sel < gx * gy)%nat ->
  let a := anchorOf b gx gy off rng k cell in
  let sel' := selectCell b gx gy off rng refs sel (k, cell) in
  ((forall j, (j < length refs)%nat -> In j sel) /\ sel' = sel)
  \/ exists d,
       sel' = sel ++ [d] /\ (d < length refs)%nat /\ ~ In d sel
       /\ forall j, (j < length refs)%nat -> ~ In j sel ->
            distance a (nth d refs (0, 0)) <= distance a (nth j refs (0, 0))
            /\ (distance a (nth d refs (0, 0)) = distance a (nth j refs (0, 0))
                -> (d <= j)%nat).
Proof.
  intros Hroom a sel'. subst sel'. unfold selectCell. cbn [fst snd]. fold a.
  rewrite addClosest_find by exact Hroom.
  pose proof (sort_closest_sorted (map (distance a) refs) 0) as Hsorted.
  rewrite length_map in Hsorted. fold (closestDotIDs a refs) in Hsorted.
  match goal with
  | |- context [find ?p ?l] => destruct (find p l) as [[d x]|] eqn:Hfind
  end.
  - right. exists d. cbn [fst].
    destruct (find_some _ _ Hfind) as [Hin Hp]. cbn [fst] in Hp.
    apply (Permutation_in _ (sort_perm _)) in Hin.
    apply in_closest in Hin. destruct Hin as [Hd Hx].
    apply negb_true_iff in Hp.
    assert (Hnot : ~ In d sel).
    { intros H. apply existsb_eqb_In in H. congruence. }
    split; [reflexivity|]. split; [exact Hd|]. split; [exact Hnot|].
    intros j Hj Hjs.
    assert (Hjin : In (j, distance a (nth j refs (0, 0)))
                      (sort (closestDotIDs a refs))).
    { apply (Permutation_in _ (Permutation_sym (sort_perm _))).
      now apply in_closest. }
    assert (Hjp : negb (existsb (Nat.eqb j) sel) = true).
    { apply negb_true_iff. apply not_true_is_false.
      intros H. now apply existsb_eqb_In in H. }
    destruct (find_sorted_least _ _ _ Hsorted Hfind _ Hjin Hjp)
      as [E | [Hlt | [Heq Hid]]]; cbn [fst snd] in *.
    + injection E as -> _. split; [lra | lia].
    + subst x. split; [lra | intros; lra].
    + subst x. split; [lra | intros; lia].
  - left. split; [|reflexivity].
    intros j Hj.
    assert (Hjin : In (j, distance a (nth j refs (0, 0)))
                      (sort (closestDotIDs a refs))).
    { apply (Permutation_in _ (Permutation_sym (sort_perm _))).
      now apply in_closest. }
    pose proof (find_none _ _ Hfind _ Hjin) as Hp. cbn [fst] in Hp.
    apply negb_false_iff in Hp. now apply existsb_eqb_In in Hp.
Qed.

End SortByDistance.

Section GridSelect.

Import Sampler.

Variable b : Geometry.Bounds.
Variables gx gy : nat.
Variable off : R.
Variable rng : nat -> R.
Variable refs : list Geometry.Point.

Lemma cells_length : length (cells gx gy) = (gx * gy)%nat.
Proof. unfold cells. now rewrite length_prod, !length_seq. Qed.

Lemma nth_error_numbered {A : Type} (l : list A) (start len k : nat) (x : A) :
  (length l <= len)%nat ->
  nth_error l k = Some x ->
  nth_error (combine (seq start len) l) k = Some ((start + k)%nat, x).
Proof.
  revert start len k.
  induction l as [|y l IH]; intros start len k Hlen Hk; [now destruct k|].
  destruct len as [|len]; [cbn in Hlen; lia|].
  destruct k as [|k]; cbn [seq combine nth_error length] in *.
  - injection Hk as ->. now rewrite Nat.add_0_r.
  - rewrite (IH (S start) len k); [|lia | exact Hk]. do 2 f_equal. lia.
Qed.

Lemma firstn_snoc {A : Type} (l : list A) (k : nat) (x : A) :
  nth_error l k = Some x -> firstn (S k) l = firstn k l ++ [x].
Proof.
  revert k. induction l as [|y l IH]; intros k Hk; [now destruct k|].
  destruct k as [|k]; cbn [nth_error] in Hk.
  - now injection Hk as ->.
  - cbn [firstn app]. f_equal. now apply IH.
Qed.

Lemma selectedAfter_S (k : nat) (cell : nat * nat) :
  nth_error (cells gx gy) k = Some cell ->
  selectedAfter b gx gy off rng refs (S k)
  = selectCell b gx gy off rng refs (selectedAfter b gx gy off rng refs k) (k, cell).
Proof.
  intros Hk. unfold selectedAfter.
  rewrite (firstn_snoc _ k (k, cell)).
  - now rewrite fold_left_app.
  - apply (nth_error_numbered _ 0); [rewrite cells_length; lia | exact Hk].
Qed.

Lemma nth_cell (k : nat) :
  (k < gx * gy)%nat -> exists cell, nth_error (cells gx gy) k = Some cell.
Proof.
  intros Hk. destruct (nth_error (cells gx gy) k) as [cell|] eqn:E;
    [now exists cell|].
  apply nth_error_None in E. rewrite cells_length in E. lia.
Qed.

(** What holds of the selection after any number of cells. *)
Lemma selectedAfter_inv (k : nat) :
  (k <= gx * gy)%nat ->
  let sel := selectedAfter b gx gy off rng refs k in
  length sel = Nat.min k (length refs)
  /\ NoDup sel
  /\ (forall id, In id sel -> (id < length refs)%nat).
Proof.
  induction k as [|k IH]; intros Hk sel; subst sel.
  - unfold selectedAfter. cbn [firstn fold_left length Nat.min].
    repeat split; [constructor | contradiction].
  - destruct IH as (Hlen & Hnd & Hids); [lia|].
    destruct (nth_cell k) as [cell Hcell]; [lia|].
    rewrite (selectedAfter_S k cell Hcell).
    destruct (selectCell_spec b gx gy off rng refs
                (selectedAfter b gx gy off rng refs k) k cell)
      as [[Hall ->] | (d & -> & Hd & Hnew & _)]; [lia |..].
    + repeat split; [|exact Hnd | exact Hids].
      assert (length (seq 0 (length refs))
              <= length (selectedAfter b gx gy off rng refs k))%nat.
      { apply NoDup_incl_length; [apply seq_NoDup|].
        intros j Hj. apply in_seq in Hj. apply Hall. lia. }
      rewrite length_seq in H. lia.
    + assert (Hnd' : NoDup (selectedAfter b gx gy off rng refs k ++ [d])).
      { apply NoDup_app; repeat split;
          [exact Hnd | constructor; [intros []|constructor] |].
        intros x Hx [<- | []]. contradiction. }
      assert (Hids' : forall id,
                 In id (selectedAfter b gx gy off rng refs k ++ [d]) ->
                 (id < length refs)%nat).
      { intros id Hin. apply in_app_or in Hin.
        destruct Hin as [Hin | [<- | []]]; [now apply Hids | exact Hd]. }
      repeat split; [|exact Hnd' | exact Hids'].
      assert (length (selectedAfter b gx gy off rng refs k ++ [d])
              <= length (seq 0 (length refs)))%nat.
      { apply NoDup_incl_length; [exact Hnd'|].
        intros j Hj. apply in_seq. specialize (Hids' j Hj). lia. }
      rewrite length_seq in H. rewrite length_app in H |- *. cbn [length] in *.
      lia.
Qed.

(** The grid loop fills as many cells as there are dots to take. *)
Lemma gridSelect_length :
  length (gridSelect b gx gy off rng refs) = Nat.min (gx * gy) (length refs).
Proof. apply (selectedAfter_inv (gx * gy)). lia. Qed.

End GridSelect.

(** The ids left in [selectedDotIDs] by the shuffle are as many as the
    selected trajectories, and distinct, when the shuffle permutes. *)
Lemma shuffled_ids (shuffle : list nat -> list nat) (n total : nat) :
  Permutation (shuffle (seq 0 n)) (seq 0 n) ->
  length (firstn total (shuffle (seq 0 n))) = Nat.min total n
  /\ NoDup (firstn total (shuffle (seq 0 n))).
Proof.
  intros Hp. split.
  - rewrite length_firstn, (Permutation_length Hp), length_seq. reflexivity.
  - assert (Hnd : NoDup (shuffle (seq 0 n))).
    { apply (Permutation_NoDup (Permutation_sym Hp)). apply seq_NoDup. }
    rewrite <- (firstn_skipn total (shuffle (seq 0 n))) in Hnd.
    now apply NoDup_app_remove_r in Hnd.
Qed.

Section GridOrder.

Import Sampler.

Variable b : Geometry.Bounds.
Variables gx gy : nat.
Variable off : R.
Variable rng : nat -> R.
Variable refs : list Geometry.Point.

(** The selection only grows: what the first [k] cells selected is the
    start of what any later number of cells has selected. *)
Lemma selectedAfter_prefix (k n : nat) :
  (k <= n <= gx * gy)%nat ->
  exists rest,
    selectedAfter b gx gy off rng refs n
    = selectedAfter b gx gy off rng refs k ++ rest.
Proof.
  intros [Hkn Hn]. induction Hkn as [|m Hkm IH].
  - exists []. now rewrite app_nil_r.
  - destruct IH as [rest Hrest]; [lia|].
    destruct (nth_cell gx gy m) as [cell Hcell]; [lia|].
    rewrite (selectedAfter_S b gx gy off rng refs m cell Hcell).
    destruct (selectedAfter_inv b gx gy off rng refs m) as (Hlen & _); [lia|].
    destruct (selectCell_spec b gx gy off rng refs
                (selectedAfter b gx gy off rng refs m) m cell)
      as [[_ ->] | (d & -> & _)]; [lia |..].
    + now exists rest.
    + exists (rest ++ [d]). now rewrite Hrest, app_assoc.
Qed.

(** The dot of the [k]-th cell, read off the final selection. *)
Lemma gridSelect_cell (k : nat) (cell : nat * nat) :
  nth_error (cells gx gy) k = Some cell ->
  let selected := gridSelect b gx gy off rng refs in
  let a := anchorOf b gx gy off rng k cell in
  match nth_error selected k with
  | Some d =>
      ~ In d (firstn k selected)
      /\ forall j, (j < length refs)%nat -> ~ In j (firstn k selected) ->
           distance a (nth d refs (0, 0)) <= distance a (nth j refs (0, 0))
           /\ (distance a (nth d refs (0, 0)) = distance a (nth j refs (0, 0))
               -> (d <= j)%nat)
  | None => forall j, (j < length refs)%nat -> In j selected
  end.
Proof.
  intros Hcell selected a.
  assert (Hk : (k < gx * gy)%nat).
  { rewrite <- (cells_length gx gy). apply nth_error_Some. congruence. }
  destruct (selectedAfter_inv b gx gy off rng refs k) as (Hlen & Hnd & _); [lia|].
  destruct (selectedAfter_inv b gx gy off rng refs (S k)) as (HlenS & _); [lia|].
  destruct (selectedAfter_prefix (S k) (gx * gy)) as [rest Hrest]; [lia|].
  fold (gridSelect b gx gy off rng refs) in Hrest. fold selected in Hrest.
  rewrite (selectedAfter_S b gx gy off rng refs k cell Hcell) in HlenS, Hrest.
  destruct (selectCell_spec b gx gy off rng refs
              (selectedAfter b gx gy off rng refs k) k cell)
    as [[Hall Hsame] | (d & Hsame & Hd & Hnew & Hnear)]; [lia |..];
    rewrite Hsame in HlenS, Hrest.
  - assert (Hfull : (length refs <= k)%nat) by lia.
    assert (Hnone : nth_error selected k = None).
    { apply nth_error_None. unfold selected. rewrite gridSelect_length. lia. }
    rewrite Hnone. intros j Hj. rewrite Hrest. apply in_or_app. left.
    now apply Hall.
  - rewrite length_app in HlenS. cbn [length] in HlenS.
    assert (Hbefore : length (selectedAfter b gx gy off rng refs k) = k) by lia.
    assert (Hnth : nth_error selected k = Some d).
    { rewrite Hrest, <- app_assoc, nth_error_app2 by lia.
      now rewrite Hbefore, Nat.sub_diag. }
    assert (Hfirst : firstn k selected = selectedAfter b gx gy off rng refs k).
    { rewrite Hrest, <- app_assoc, <- Hbefore at 1.
      now rewrite firstn_app, Nat.sub_diag, firstn_all, firstn_O, app_nil_r. }
    rewrite Hnth, Hfirst. split; [exact Hnew | exact Hnear].
Qed.

End GridOrder.

(** C5: for every dot set, grid and sequence of draws, the selection the
    grid loop returns has at most gridX * gridY dots and no dot twice; its
    k-th dot is the dot of the k-th cell in scan order: the nearest to the
    cell's jittered anchor among the dots not selected by the cells before,
    the earliest in input order among equally near ones; a cell gets no dot
    only when every dot is selected.  The setup keeps the trajectories of
    this selection; the id list [selectedDotIDs] is then overwritten by the
    shuffle, which leaves as many ids, again without repetition, when the
    shuffle permutes. *)
Theorem sampler_selects_nearest_unselected
    (b : Geometry.Bounds) (gx gy : nat) (off : R) (rng : nat -> R)
    (refs : list Geometry.Point) :
  let selected := Sampler.gridSelect b gx gy off rng refs in
  (length selected <= gx * gy)%nat
  /\ NoDup selected
  /\ (forall id, In id selected -> (id < length refs)%nat)
  /\ (forall (k : nat) (cell : nat * nat),
        nth_error (Sampler.cells gx gy) k = Some cell ->
        let a := Sampler.anchorOf b gx gy off rng k cell in
        match nth_error selected k with
        | Some d =>
            ~ In d (firstn k selected)
            /\ forall j, (j < length refs)%nat -> ~ In j (firstn k selected) ->
                 Sampler.distance a (nth d refs (0, 0))
                   <= Sampler.distance a (nth j refs (0, 0))
                 /\ (Sampler.distance a (nth d refs (0, 0))
                     = Sampler.distance a (nth j refs (0, 0)) -> (d <= j)%nat)
        | None => forall j, (j < length refs)%nat -> In j selected
        end)
  /\ (forall (t : Trial.t) (dot_pos : list Setup.Traj)
             (screenCenter : Geometry.Point) (shuffle : list nat -> list nat)
             (getRandomInt start_time : R) (tickRandom : nat -> R)
             (c : Geometry.Point),
        Trial.gridX t = gx -> Trial.gridY t = gy -> Trial.grid_offSet t = off ->
        map Setup.first dot_pos = refs ->
        Geometry.calculateClothCenter (map fst refs) (map snd refs) = Some (b, c) ->
        let p := Setup.setup t dot_pos screenCenter rng shuffle getRandomInt
                   start_time tickRandom in
        Setup.gridIDs p = selected
        /\ length (Scheduler.selected_dot_pos (Setup.env p)) = length selected
        /\ (Permutation (shuffle (seq 0 (length dot_pos))) (seq 0 (length dot_pos)) ->
            length (Scheduler.selectedDotIDs (Setup.env p)) = length selected
            /\ NoDup (Scheduler.selectedDotIDs (Setup.env p)))).
Proof.
  intros selected.
  destruct (selectedAfter_inv b gx gy off rng refs (gx * gy) (Nat.le_refl _))
    as (Hlen & Hnd & Hids).
  fold (Sampler.gridSelect b gx gy off rng refs) in Hlen, Hnd, Hids.
  fold selected in Hlen, Hnd, Hids.
  split; [lia|]. split; [exact Hnd|]. split; [exact Hids|].
  split; [intros k cell Hcell; now apply gridSelect_cell|].
  intros t dot_pos screenCenter shuffle getRandomInt start_time tickRandom c
         Hgx Hgy Hoff Hrefs Hcloth p.
  assert (Hgrid : Setup.gridIDs p = selected).
  { subst p. cbn [Setup.setup Setup.gridIDs].
    rewrite Hrefs, Hcloth, Hgx, Hgy, Hoff. reflexivity. }
  split; [exact Hgrid|]. split.
  - rewrite <- Hgrid. subst p.
    cbn [Setup.setup Setup.env Setup.gridIDs Scheduler.selected_dot_pos].
    now rewrite length_map.
  - intros Hperm.
    destruct (shuffled_ids shuffle (length dot_pos) (gx * gy) Hperm)
      as [Hl Hn].
    subst p. cbn [Setup.setup Setup.env Scheduler.selectedDotIDs].
    rewrite Hgx, Hgy. split; [|exact Hn].
    rewrite Hl, Hlen, <- Hrefs, length_map. reflexivity.
Qed.

(** ** Recentering *)

Section Recenter.

Import Setup.

Variable delta : Geometry.Point.

Lemma nth_updateAt (i j : nat) (a : list (list Geometry.Point)) :
  nth j (updateAt (translate delta) i a) []
  = if Nat.eqb j i then translate delta (nth i a []) else nth j a [].
Proof.
  revert i j. induction a as [|x a IH]; intros i j.
  - cbn [updateAt]. destruct (Nat.eqb j i); now destruct i, j.
  - destruct i as [|i], j as [|j]; cbn [updateAt nth Nat.eqb]; try reflexivity.
    apply IH.
Qed.

(** Over distinct ids every selected trajectory is translated once, and its
    translated reference position is pushed once. *)
Lemma moveSelected_spec (ids : list nat) (store : list (list Geometry.Point))
    (acc : list Geometry.Point) :
  NoDup ids ->
  let r := fold_left
             (fun acc id =>
                let store' := updateAt (translate delta) id (fst acc) in
                (store', snd acc ++ firstn 1 (nth id store' [])))
             ids (store, acc) in
  snd r = acc ++ flat_map (fun id => firstn 1 (translate delta (nth id store []))) ids
  /\ forall j, nth j (fst r) []
               = if existsb (Nat.eqb j) ids
                 then translate delta (nth j store [])
                 else nth j store [].
Proof.
  intros Hnd. revert store acc.
  induction Hnd as [|id ids Hnew Hnd IH]; intros store acc r; subst r;
    cbn [fold_left flat_map existsb fst snd].
  - split; [now rewrite app_nil_r | reflexivity].
  - destruct (IH (updateAt (translate delta) id store)
                (acc ++ firstn 1 (nth id (updateAt (translate delta) id store) [])))
      as [Hall Hstore].
    cbv zeta in Hall, Hstore.
    split.
    + rewrite Hall, <- app_assoc. f_equal.
      rewrite nth_updateAt, Nat.eqb_refl. f_equal.
      clear - Hnew. induction ids as [|j ids IHids]; [reflexivity|].
      cbn [flat_map]. rewrite IHids by (intros H; apply Hnew; now right).
      rewrite nth_updateAt.
      destruct (Nat.eqb j id) eqn:E; [|reflexivity].
      apply Nat.eqb_eq in E. subst j. exfalso. apply Hnew. now left.
    + intros j. rewrite Hstore, nth_updateAt.
      destruct (Nat.eqb j id) eqn:E; cbn [orb]; [|reflexivity].
      apply Nat.eqb_eq in E. subst j.
      destruct (existsb (Nat.eqb id) ids) eqn:X; [|reflexivity].
      apply existsb_eqb_In in X. contradiction.
Qed.

End Recenter.

Lemma nth_positions (dot_pos : list Setup.Traj) (id : nat) (d : Setup.Traj) :
  (id < length dot_pos)%nat ->
  nth id (map Setup.positions dot_pos) [] = Setup.positions (nth id dot_pos d).
Proof.
  intros H. rewrite (nth_indep _ [] (Setup.positions d)) by (now rewrite length_map).
  apply map_nth.
Qed.

(** The ids the setup hands to the recentering loop are distinct and in
    range. *)
Lemma setup_gridIDs (t : Trial.t) (dot_pos : list Setup.Traj)
    (screenCenter : Geometry.Point) (rng : nat -> R)
    (shuffle : list nat -> list nat) (getRandomInt start_time : R)
    (tickRandom : nat -> R) :
  let p := Setup.setup t dot_pos screenCenter rng shuffle getRandomInt
             start_time tickRandom in
  NoDup (Setup.gridIDs p)
  /\ (forall id, In id (Setup.gridIDs p) -> (id < length dot_pos)%nat)
  /\ length (Setup.gridIDs p)
     = Nat.min (Trial.gridX t * Trial.gridY t) (length dot_pos).
Proof.
  cbn [Setup.setup Setup.gridIDs].
  destruct (Geometry.calculateClothCenter _ _) as [[b c]|] eqn:E.
  - destruct (selectedAfter_inv b (Trial.gridX t) (Trial.gridY t)
                (Trial.grid_offSet t) rng (map Setup.first dot_pos)
                (Trial.gridX t * Trial.gridY t) (Nat.le_refl _))
      as (Hlen & Hnd & Hids).
    rewrite length_map in Hlen, Hids.
    repeat split; [exact Hnd | exact Hids | exact Hlen].
  - repeat split; [constructor | contradiction |].
    destruct dot_pos; [cbn; lia | discriminate].
Qed.

Lemma pushed_references (delta : Geometry.Point) (dot_pos : list Setup.Traj)
    (ids : list nat) :
  (forall id, In id ids -> (id < length dot_pos)%nat) ->
  flat_map (fun id => firstn 1 (Setup.translate delta
                                  (nth id (map Setup.positions dot_pos) [])))
           ids
  = map (fun q => (fst q * 1 + fst delta, snd q * 1 + snd delta))
        (map (fun id => Setup.first (nth id dot_pos (Setup.mkTraj (0, 0) []))) ids).
Proof.
  induction ids as [|id ids IH]; intros Hids; [reflexivity|].
  cbn [flat_map map].
  rewrite IH by (intros j Hj; apply Hids; now right).
  rewrite (nth_positions _ _ (Setup.mkTraj (0, 0) [])) by (apply Hids; now left).
  unfold Setup.positions. cbn [Setup.translate map firstn app fst snd].
  f_equal. f_equal; lra.
Qed.

(** C6 (amended): with the centre-cloth flag set, the centre recomputed after
    the recentering pass is the target centre plus the offset between the
    bounding-box centre of the selection (its reference-frame positions
    before the translation) and the bounding-box centre of the whole cloud;
    it is the target centre when the two bounding boxes share their
    centre. *)
Theorem recentered_center_is_target_plus_selection_offset
    (t : Trial.t) (dot_pos : list Setup.Traj) (screenCenter : Geometry.Point)
    (rng : nat -> R) (shuffle : list nat -> list nat)
    (getRandomInt start_time : R) (tickRandom : nat -> R)
    (b : Geometry.Bounds) (cloud selection : Geometry.Point) :
  Trial.centerCloth t = true ->
  Geometry.calculateClothCenter (map fst (map Setup.first dot_pos))
                                (map snd (map Setup.first dot_pos))
  = Some (b, cloud) ->
  let p := Setup.setup t dot_pos screenCenter rng shuffle getRandomInt
             start_time tickRandom in
  Geometry.centerOf
    (map (fun id => Setup.first (nth id dot_pos (Setup.mkTraj (0, 0) [])))
         (Setup.gridIDs p))
  = Some selection ->
  Scheduler.clothCenterX (Setup.env p)
  = Js.Fin (fst screenCenter + (fst selection - fst cloud))
  /\ Scheduler.clothCenterY (Setup.env p)
     = Js.Fin (snd screenCenter + (snd selection - snd cloud))
  /\ (selection = cloud ->
      Scheduler.clothCenterX (Setup.env p) = Js.Fin (fst screenCenter)
      /\ Scheduler.clothCenterY (Setup.env p) = Js.Fin (snd screenCenter)).
Proof.
  intros Hflag Hcloud p Hsel.
  destruct (setup_gridIDs t dot_pos screenCenter rng shuffle getRandomInt
              start_time tickRandom) as (Hnd & Hids & _).
  fold p in Hnd, Hids.
  assert (Hcenter :
            Scheduler.clothCenterX (Setup.env p)
            = Js.Fin (fst selection * 1 + (fst screenCenter - fst cloud))
            /\ Scheduler.clothCenterY (Setup.env p)
               = Js.Fin (snd selection * 1 + (snd screenCenter - snd cloud))).
  { revert Hnd Hids Hsel. subst p.
    cbn [Setup.setup Setup.env Setup.gridIDs Scheduler.clothCenterX
         Scheduler.clothCenterY].
    rewrite Hflag, Hcloud. intros Hnd Hids Hsel.
    unfold Setup.moveSelected.
    destruct (moveSelected_spec
                (fst screenCenter - fst cloud, snd screenCenter - snd cloud)
                _ (map Setup.positions dot_pos) [] Hnd) as [Hall _].
    cbv zeta in Hall. cbn [app] in Hall.
    rewrite pushed_references in Hall by exact Hids.
    rewrite Hall.
    rewrite (centerOf_affine 1 _ 1 _ _ _ Hsel). now split. }
  destruct Hcenter as [Hx Hy]. rewrite Hx, Hy.
  split; [f_equal; lra|]. split; [f_equal; lra|].
  intros ->. split; f_equal; lra.
Qed.

(** ** Concrete runs *)

Lemma frameIndexOf_forward (frame_num percent_time : R) (z : Z) :
  (0 <= z)%Z ->
  IZR z <= percent_time * frame_num < IZR z + 1 ->
  IZR z <= frame_num - 1 ->
  percent_time * frame_num = 0 \/ 1 / 1000000 <= percent_time * frame_num ->
  frame_num <= 10 ^ 21 ->
  Scheduler.frameIndexOf false frame_num percent_time = IZR z.
Proof.
  intros Hz Hp Hn Hdec Hbig. unfold Scheduler.frameIndexOf.
  rewrite (parseInt_eq z) by (try assumption; lra).
  rewrite Rmin_left by exact Hn.
  apply Rmax_right. now apply (IZR_le 0).
Qed.

Lemma readAt_integer {A : Type} (a : list A) (z : Z) :
  (0 <= z)%Z -> Scheduler.readAt a (IZR z) = nth_error a (Z.to_nat z).
Proof.
  intros Hz. unfold Scheduler.readAt.
  rewrite ZfloorZ, eqb_refl. cbn [andb].
  now replace (0 <=? z)%Z with true by (symmetry; now apply Z.leb_le).
Qed.

(** The setup of the moving-dot trial. *)
Lemma prepare_holdTrial :
  Setup.env (Demo.prepare Demo.holdTrial Demo.movingDot) = Demo.holdEnv
  /\ Setup.state (Demo.prepare Demo.holdTrial Demo.movingDot)
     = Scheduler.initial None
  /\ Setup.gridIDs (Demo.prepare Demo.holdTrial Demo.movingDot) = [0%nat].
Proof.
  unfold Demo.prepare, Demo.holdEnv, Demo.holdTrial, Demo.trial, Demo.movingDot.
  cbn. repeat split.
  f_equal; try lra; apply f_equal; lra.
Qed.

(** The setup of the two-dot trial with the centre-cloth flag: the single
    cell takes dot 0, and the recomputed centre is (95, 100). *)
Lemma prepare_twoDots :
  let p := Demo.prepare (Demo.trial true false false None "hold") Demo.twoDots in
  Setup.gridIDs p = [0%nat]
  /\ Scheduler.clothCenterX (Setup.env p) = Js.Fin 95
  /\ Scheduler.clothCenterY (Setup.env p) = Js.Fin 100.
Proof.
  assert (Hmin : Rmin 0 10 = 0) by (apply Rmin_left; lra).
  assert (Hmax : Rmax 0 10 = 10) by (apply Rmax_right; lra).
  assert (Hmin0 : Rmin 0 0 = 0) by (apply Rmin_left; lra).
  assert (Hmax0 : Rmax 0 0 = 0) by (apply Rmax_left; lra).
  unfold Demo.prepare, Demo.trial, Demo.twoDots. cbn.
  match goal with
  | |- context [Js.leb ?a ?b] =>
      assert (Hnear : Js.leb a b = true)
  end.
  { apply leb_true. unfold Sampler.distance, Sampler.anchorOf, Sampler.anchor.
    cbn [fst snd Geometry.minX Geometry.minY Geometry.clothWidth
         Geometry.clothHeight INR].
    rewrite Hmin, Hmax, Hmin0, Hmax0.
    apply sqrt_le_1_alt. cbn [pow]. lra. }
  rewrite !Hnear. cbn.
  rewrite Hmin, Hmax, Hmin0, Hmax0.
  repeat split; apply f_equal; unfold Rmin, Rmax;
    repeat match goal with
           | |- context [Rle_dec ?x ?y] => destruct (Rle_dec x y)
           end; lra.
Qed.

(** ** The claims about the tick loop and the setup *)

(** C2: the telemetry scale column.  The code records 0 in the scale column
    of every visible row, whatever the SizeController state: the row is built
    from [currentScalingDirection || 0].  In the moving-dot trial, where size
    variation is disabled, the first tick records the visible row of frame 0
    with scale 0, not 1. *)
Theorem telemetry_scale_column_is_zero :
  (forall (e : Scheduler.Env) (times : list R)
          (size0 : option SizeController.State),
      Forall (fun r => Scheduler.displayFrameNumber r <> Scheduler.Blank ->
                       Scheduler.scalingFactor r = Some 0)
             (Scheduler.csv_frameData
                (Scheduler.run e times (Scheduler.initial size0))))
  /\ (let p := Demo.prepare Demo.holdTrial Demo.movingDot in
      Trial.sizeVariation (Scheduler.trial (Setup.env p)) = false
      /\ map Scheduler.displayFrameNumber
           (Scheduler.csv_frameData
              (Scheduler.run (Setup.env p) [0] (Setup.state p)))
         = [Scheduler.Shown 0]
      /\ map Scheduler.scalingFactor
           (Scheduler.csv_frameData
              (Scheduler.run (Setup.env p) [0] (Setup.state p)))
         = [Some 0]).
Proof.
  split.
  - intros e times size0. apply run_rows.
    + intros r _ H _. exact H.
    + intros r H _ Hn. contradiction.
    + constructor.
  - cbv zeta. destruct prepare_holdTrial as (-> & -> & _).
    split; [reflexivity|].
    assert (Hidx : Scheduler.frameIndexOf false 2 ((0 - 0) / 1000 / 2) = 0).
    { apply (frameIndexOf_forward 2 _ 0); [lia | lra | lra | (left; lra) || (right; lra) | lra]. }
    unfold Scheduler.run, Scheduler.move_disc, Demo.holdEnv, Demo.holdTrial,
      Demo.trial. cbn.
    rewrite (ltb_true ((0 - 0) / 1000) 2) by lra.
    unfold Scheduler.advance, Scheduler.shouldAdvanceFrame. cbn.
    rewrite !eqb_refl. rewrite (leb_true 0 (0 - 0)) by lra.
    rewrite Hidx. cbn. split; reflexivity.
Qed.

(** C3: with size variation enabled, a call of the tick handler invokes
    [updateSizeFactor] exactly once when it changes the displayed frame
    index, and leaves the SizeController state untouched when it does not, so
    that over a run the number of invocations is the number of calls that
    change the displayed index. *)
Theorem size_step_once_per_index_change (e : Scheduler.Env) :
  Trial.sizeVariation (Scheduler.trial e) = true ->
  (forall (current_time : R) (s : Scheduler.State),
      let s' := fst (Scheduler.move_disc e current_time s) in
      (Scheduler.lastDisplayedFrameIndex s' <> Scheduler.heldIndex s ->
         Scheduler.updateCalls s' = S (Scheduler.updateCalls s)
         /\ Scheduler.size s' = Scheduler.stepSize e s)
      /\ (Scheduler.lastDisplayedFrameIndex s' = Scheduler.heldIndex s ->
            Scheduler.updateCalls s' = Scheduler.updateCalls s
            /\ Scheduler.size s' = Scheduler.size s))
  /\ (forall (times : list R) (s : Scheduler.State),
         Scheduler.updateCalls (Scheduler.run e times s)
         = (Scheduler.updateCalls s + Scheduler.indexChanges e times s)%nat).
Proof.
  intros Hv. split.
  - intros current_time s. now apply move_disc_step.
  - intros times s. now apply run_updateCalls.
Qed.

Lemma size_step_once_per_index_change_witness :
  let e := Demo.env (Demo.trial true false true None "hold") "hold" in
  Scheduler.updateCalls
    (Scheduler.run e [0; 600; 1200] (Scheduler.initial Demo.size0))
  = Nat.add 0 (Scheduler.indexChanges e [0; 600; 1200]
                 (Scheduler.initial Demo.size0)).
Proof.
  apply (proj2 (size_step_once_per_index_change
                  (Demo.env (Demo.trial true false true None "hold") "hold")
                  eq_refl)).
Defined.

(** C7: the setup adds (frame_num - 1) * isi / 1000 seconds to the trial
    duration, once, when the gap is positive and the ISI-extends-duration
    flag is set; with the flag unset the duration is the one computed before
    the ISI adjustment. *)
Theorem isi_extends_duration_once
    (t : Trial.t) (dot_pos : list Setup.Traj) (screenCenter : Geometry.Point)
    (rng : nat -> R) (shuffle : list nat -> list nat)
    (getRandomInt start_time : R) (tickRandom : nat -> R) :
  let e := Setup.env (Setup.setup t dot_pos screenCenter rng shuffle
                        getRandomInt start_time tickRandom) in
  let base :=
    match Trial.trial_duration t with
    | Some d => d
    | None => Scheduler.frame_num e / Trial.fps t
    end in
  (forall gap, Trial.isi t = Some gap -> 0 < gap ->
               Trial.isiSlows t = Some true ->
               Scheduler.trial_duration e
               = base + (Scheduler.frame_num e - 1) * (gap / 1000))
  /\ (Trial.isiSlows t <> Some true -> Scheduler.trial_duration e = base).
Proof.
  cbn [Setup.setup Setup.env Scheduler.trial_duration Scheduler.frame_num].
  split.
  - intros gap Hi Hg Hs. rewrite (isiAdjust_extends t _ _ gap Hi Hg Hs).
    destruct (Trial.trial_duration t); reflexivity.
  - intros Hs. rewrite (isiAdjust_unchanged t _ _ Hs).
    destruct (Trial.trial_duration t); reflexivity.
Qed.

Lemma isi_extends_duration_once_witness :
  let t := Demo.trial false false false (Some 100) "blank" in
  let e := Setup.env (Demo.prepare t Demo.movingDot) in
  Scheduler.trial_duration e
  = Scheduler.frame_num e / Trial.fps t
    + (Scheduler.frame_num e - 1) * (100 / 1000).
Proof.
  apply (proj1 (isi_extends_duration_once
                  (Demo.trial false false false (Some 100) "blank")
                  Demo.movingDot (100, 100) (fun _ => 1 / 4) (fun ids => ids)
                  0 0 (fun _ => 1 / 4)) 100 eq_refl ltac:(lra) eq_refl).
Defined.

(** With a zero gap, blank mode shows every frame it is called for. *)
Lemma zero_gap_tick_is_visible (e : Scheduler.Env) (current_time : R)
    (s s' : Scheduler.State) :
  Scheduler.isiMode e = "blank"%string ->
  Js.orElse (Trial.isi (Scheduler.trial e)) 0 = 0 ->
  Scheduler.move_disc e current_time s = (s', true) ->
  exists row,
    Scheduler.csv_frameData s' = Scheduler.csv_frameData s ++ [row]
    /\ Scheduler.displayFrameNumber row
       = Scheduler.Shown (Scheduler.lastDisplayedFrameIndex s').
Proof.
  intros Hmode Hgap Htick.
  destruct (move_disc_cases e current_time s) as [E | (p & ms & te & tf & E)];
    rewrite E in Htick; [discriminate|].
  injection Htick as <-.
  assert (Hshown : Scheduler.hasShownVisibleTickForThisFrame
                     (Scheduler.advance e current_time p ms
                        (Scheduler.enter current_time s)) = false).
  { unfold Scheduler.advance, Scheduler.shouldAdvanceFrame.
    rewrite Hmode. cbn [String.eqb Ascii.eqb Bool.eqb].
    rewrite Hgap, eqb_refl. cbn [orb].
    destruct (Scheduler.hasShownVisibleTickForThisFrame
                (Scheduler.enter current_time s)) eqn:Hh; cbn [negb];
      [reflexivity | exact Hh]. }
  unfold Scheduler.display. rewrite Hmode, Hshown.
  cbn [String.eqb Ascii.eqb Bool.eqb andb negb].
  eexists. cbn [Scheduler.visible Scheduler.csv_frameData
                Scheduler.lastDisplayedFrameIndex].
  rewrite (proj1 (advance_rows e _ _ _ _)). split; reflexivity.
Qed.

(** C8: in blank ISI mode with a zero gap ([trial.isi || 0] is 0), every call of the tick handler
    that keeps the trial running records exactly one row, a visible one, and
    so no run ever records a blank row. *)
Theorem zero_gap_blank_mode_records_no_blank_row (e : Scheduler.Env) :
  Scheduler.isiMode e = "blank"%string ->
  Js.orElse (Trial.isi (Scheduler.trial e)) 0 = 0 ->
  (forall (current_time : R) (s s' : Scheduler.State),
      Scheduler.move_disc e current_time s = (s', true) ->
      exists row,
        Scheduler.csv_frameData s' = Scheduler.csv_frameData s ++ [row]
        /\ Scheduler.displayFrameNumber row
           = Scheduler.Shown (Scheduler.lastDisplayedFrameIndex s'))
  /\ (forall (times : list R) (size0 : option SizeController.State),
         Forall (fun r => Scheduler.displayFrameNumber r <> Scheduler.Blank)
                (Scheduler.csv_frameData
                   (Scheduler.run e times (Scheduler.initial size0)))).
Proof.
  intros Hmode Hgap. split.
  - intros current_time s s'. now apply zero_gap_tick_is_visible.
  - intros times size0.
    assert (G : forall s,
               Forall (fun r => Scheduler.displayFrameNumber r <> Scheduler.Blank)
                      (Scheduler.csv_frameData s) ->
               Forall (fun r => Scheduler.displayFrameNumber r <> Scheduler.Blank)
                      (Scheduler.csv_frameData (Scheduler.run e times s))).
    { induction times as [|t rest IH]; intros s Hs; cbn [Scheduler.run];
        [exact Hs|].
      destruct (Scheduler.move_disc e t s) as [s' again] eqn:E.
      destruct again.
      - apply IH.
        destruct (zero_gap_tick_is_visible e t s s' Hmode Hgap E)
          as (row & -> & Hrow).
        apply Forall_app. split; [exact Hs|].
        constructor; [|constructor]. rewrite Hrow. discriminate.
      - destruct (move_disc_cases e t s) as [E' | (p & ms & te & tf & E')];
          rewrite E' in E; [|discriminate].
        injection E as <-. exact Hs. }
    apply G. constructor.
Qed.

Lemma zero_gap_blank_mode_records_no_blank_row_witness :
  let e := Demo.env (Demo.trial true false true None "blank") "blank" in
  Forall (fun r => Scheduler.displayFrameNumber r <> Scheduler.Blank)
         (Scheduler.csv_frameData
            (Scheduler.run e [0; 16; 33; 50] (Scheduler.initial Demo.size0))).
Proof.
  apply (proj2 (zero_gap_blank_mode_records_no_blank_row
                  (Demo.env (Demo.trial true false true None "blank") "blank")
                  eq_refl eq_refl)).
Defined.

(** C10: with the static-display flag set, every frame of positions drawn and
    recorded is the list of the selected trajectories' stored positions at
    the fixed frame index, unscaled, and two runs over the same timestamps
    that differ only in their SizeController states produce the same output
    and differ only in those states afterwards. *)
Theorem static_display_ignores_size (e : Scheduler.Env) :
  Trial.static (Scheduler.trial e) = true ->
  (forall (times : list R) (size0 : option SizeController.State),
      Forall (fun frame =>
                frame = map (Drawn.staticPosition e) (Scheduler.drawnTrajectories e))
             (Scheduler.shown_pos
                (Scheduler.run e times (Scheduler.initial size0))))
  /\ (forall (times : list R) (s1 s2 : Scheduler.State),
         Scheduler.withoutSize s1 = Scheduler.withoutSize s2 ->
         Scheduler.withoutSize (Scheduler.run e times s1)
         = Scheduler.withoutSize (Scheduler.run e times s2)).
Proof.
  intros Hstatic. split.
  - intros times size0. apply run_static_frames; [exact Hstatic | constructor].
  - intros times s1 s2. now apply run_withoutSize.
Qed.

Lemma static_display_ignores_size_witness :
  let e := Demo.env (Demo.trial true true true None "hold") "hold" in
  Scheduler.withoutSize
    (Scheduler.run e [0; 600; 1200] (Scheduler.initial Demo.size0))
  = Scheduler.withoutSize
      (Scheduler.run e [0; 600; 1200] (Scheduler.initial None)).
Proof.
  apply (proj2 (static_display_ignores_size
                  (Demo.env (Demo.trial true true true None "hold") "hold")
                  eq_refl)).
  reflexivity.
Defined.

(** ** Scaling about the cloth centre *)

Lemma display_shown (e : Scheduler.Env) (current_time te tf : R)
    (s : Scheduler.State) :
  let s' := Scheduler.display e current_time te tf s in
  Scheduler.shown_pos s' = Scheduler.shown_pos s
  \/ Scheduler.shown_pos s'
     = Scheduler.shown_pos s
       ++ [Scheduler.inFrame e (Scheduler.scaleOf e s')
                             (Scheduler.lastDisplayedFrameIndex s')].
Proof.
  unfold Scheduler.display.
  destruct (String.eqb (Scheduler.isiMode e) "hold"); [now right|].
  destruct (String.eqb (Scheduler.isiMode e) "blank" && negb _); [now right|].
  destruct (String.eqb (Scheduler.isiMode e) "blank" && _); now left.
Qed.

(** The frame a running call appends to the drawn positions. *)
Lemma move_disc_frame (e : Scheduler.Env) (current_time : R)
    (s s' : Scheduler.State) (frame : list (Js.num * Js.num)) :
  Scheduler.move_disc e current_time s = (s', true) ->
  Scheduler.shown_pos s' = Scheduler.shown_pos s ++ [frame] ->
  frame = Scheduler.inFrame e (Scheduler.scaleOf e s')
                            (Scheduler.lastDisplayedFrameIndex s').
Proof.
  intros Htick Hframe.
  destruct (move_disc_cases e current_time s) as [E | (p & ms & te & tf & E)];
    rewrite E in Htick; [discriminate|].
  injection Htick as Hs'.
  pose proof (display_shown e current_time te tf
                (Scheduler.advance e current_time p ms
                   (Scheduler.enter current_time s))) as D.
  cbv zeta in D. rewrite Hs' in D.
  rewrite (proj2 (advance_rows e _ _ _ _)) in D.
  change (Scheduler.shown_pos (Scheduler.enter current_time s))
    with (Scheduler.shown_pos s) in D.
  rewrite Hframe in D. destruct D as [D | D].
  - exfalso. apply (f_equal (@length _)) in D.
    rewrite length_app in D. cbn [length] in D. lia.
  - apply app_inv_head in D. now injection D.
Qed.

Lemma points_scaled (e : Scheduler.Env) (cx cy k idx : R)
    (trajs : list (list Geometry.Point)) (origs : list Geometry.Point) :
  Trial.static (Scheduler.trial e) = false ->
  Scheduler.clothCenterX e = Js.Fin cx ->
  Scheduler.clothCenterY e = Js.Fin cy ->
  map (fun traj => Scheduler.readAt traj idx) trajs = map Some origs ->
  Drawn.points (map (Scheduler.get_pos e (Js.Fin k) idx) trajs)
  = Some (map (fun o => (cx + (fst o - cx) * k, cy + (snd o - cy) * k)) origs).
Proof.
  intros Hstatic Hx Hy. revert origs.
  induction trajs as [|traj trajs IH]; intros [|o origs] H; try discriminate;
    [reflexivity|].
  cbn [map] in H. injection H as Ho Hrest.
  cbn [map Drawn.points]. unfold Scheduler.get_pos at 1.
  rewrite Hstatic, Ho, Hx, Hy.
  cbn [negb Scheduler.numOf Scheduler.scaled Js.lift2].
  now rewrite (IH origs Hrest).
Qed.

(** C9 (amended): on a visible tick without the static flag, with finite
    centre, scale and positions, each drawn position is
    center + (original - center) * scale, and the centre of the bounding box
    of the drawn positions is center + (B - center) * scale, where B is the
    centre of the bounding box of the unscaled positions at the displayed
    frame; it is the cloth centre, for every scale, when B is. *)
Theorem size_scaling_is_centred_on_cloth_center
    (e : Scheduler.Env) (current_time : R) (s s' : Scheduler.State)
    (frame : list (Js.num * Js.num)) (cx cy k : R)
    (origs : list Geometry.Point) (B : Geometry.Point) :
  Trial.static (Scheduler.trial e) = false ->
  Scheduler.move_disc e current_time s = (s', true) ->
  Scheduler.shown_pos s' = Scheduler.shown_pos s ++ [frame] ->
  Scheduler.clothCenterX e = Js.Fin cx ->
  Scheduler.clothCenterY e = Js.Fin cy ->
  Scheduler.scaleOf e s' = Js.Fin k ->
  Drawn.originals e (Scheduler.lastDisplayedFrameIndex s') = map Some origs ->
  Geometry.centerOf origs = Some B ->
  Drawn.points frame
  = Some (map (fun o => (cx + (fst o - cx) * k, cy + (snd o - cy) * k)) origs)
  /\ Drawn.center frame = Some (cx + (fst B - cx) * k, cy + (snd B - cy) * k)
  /\ (B = (cx, cy) -> Drawn.center frame = Some (cx, cy)).
Proof.
  intros Hstatic Htick Hframe Hx Hy Hk Horigs HB.
  rewrite (move_disc_frame e current_time s s' frame Htick Hframe).
  unfold Scheduler.inFrame. rewrite Hk.
  assert (Hpoints := points_scaled e cx cy k _ _ origs Hstatic Hx Hy Horigs).
  assert (Hcenter :
            Drawn.center
              (map (Scheduler.get_pos e (Js.Fin k)
                      (Scheduler.lastDisplayedFrameIndex s'))
                   (Scheduler.drawnTrajectories e))
            = Some (cx + (fst B - cx) * k, cy + (snd B - cy) * k)).
  { unfold Drawn.center. rewrite Hpoints.
    rewrite (map_ext _ (fun p => (fst p * k + (cx - cx * k),
                                  snd p * k + (cy - cy * k))))
      by (intros o; f_equal; lra).
    rewrite (centerOf_affine k _ k _ _ _ HB). do 2 f_equal; lra. }
  split; [exact Hpoints|]. split; [exact Hcenter|].
  intros ->. rewrite Hcenter. cbn [fst snd]. do 2 f_equal; lra.
Qed.

(** C6, as stated, fails: in the two-dot trial with the centre-cloth flag,
    on a screen centred at (100, 100), the cloud is centred at (5, 0), the
    single cell selects dot 0 at (0, 0), the selection is moved by
    (95, 100), and the centre recomputed from it is (95, 100). *)
Lemma recentered_center_counterexample :
  let t := Demo.trial true false false None "hold" in
  let p := Demo.prepare t Demo.twoDots in
  Trial.centerCloth t = true
  /\ Setup.gridIDs p = [0%nat]
  /\ Scheduler.clothCenterX (Setup.env p) = Js.Fin 95
  /\ Scheduler.clothCenterY (Setup.env p) = Js.Fin 100
  /\ Scheduler.clothCenterX (Setup.env p) <> Js.Fin 100.
Proof.
  cbv zeta. destruct prepare_twoDots as (Hids & Hx & Hy).
  repeat split; try assumption.
  rewrite Hx. intros [= H]. lra.
Qed.

Lemma recentered_center_is_target_plus_selection_offset_witness :
  let p := Demo.prepare (Demo.trial true false false None "hold") Demo.movingDot in
  Scheduler.clothCenterX (Setup.env p) = Js.Fin 100
  /\ Scheduler.clothCenterY (Setup.env p) = Js.Fin 100.
Proof.
  refine (proj2 (proj2 (recentered_center_is_target_plus_selection_offset
                          (Demo.trial true false false None "hold")
                          Demo.movingDot (100, 100) (fun _ => 1 / 4)
                          (fun ids => ids) 0 0 (fun _ => 1 / 4)
                          _ _ _ eq_refl eq_refl eq_refl))
                eq_refl).
Defined.

Lemma sampler_selects_nearest_unselected_witness :
  let b := Geometry.mkBounds 0 0 10 0 10 0 in
  let refs := [(0, 0); (10, 0)] in
  let rng := fun _ : nat => 1 / 4 in
  let selected := Sampler.gridSelect b 1 1 0 rng refs in
  let a := Sampler.anchorOf b 1 1 0 rng 0 (0%nat, 0%nat) in
  match nth_error selected 0 with
  | Some d =>
      ~ In d (firstn 0 selected)
      /\ forall j, (j < length refs)%nat -> ~ In j (firstn 0 selected) ->
           Sampler.distance a (nth d refs (0, 0))
             <= Sampler.distance a (nth j refs (0, 0))
           /\ (Sampler.distance a (nth d refs (0, 0))
               = Sampler.distance a (nth j refs (0, 0)) -> (d <= j)%nat)
  | None => forall j, (j < length refs)%nat -> In j selected
  end.
Proof.
  exact (proj1 (proj2 (proj2 (proj2 (sampler_selects_nearest_unselected
                                       (Geometry.mkBounds 0 0 10 0 10 0) 1 1 0
                                       (fun _ => 1 / 4) [(0, 0); (10, 0)]))))
               0%nat (0%nat, 0%nat) eq_refl).
Defined.

(** * Further properties of the code *)

(** ** The bounding box *)

Lemma fold_min_lower (r : list R) (x : R) :
  fold_left Rmin r x <= x
  /\ (forall y, In y r -> fold_left Rmin r x <= y)
  /\ In (fold_left Rmin r x) (x :: r).
Proof.
  revert x. induction r as [|z r IH]; intros x; cbn [fold_left].
  - repeat split; [lra | contradiction | now left].
  - destruct (IH (Rmin x z)) as (H1 & H2 & H3).
    pose proof (Rmin_l x z). pose proof (Rmin_r x z).
    repeat split.
    + lra.
    + intros y [<- | Hy]; [lra | now apply H2].
    + destruct H3 as [H3 | H3]; [|right; now right].
      rewrite <- H3. unfold Rmin. destruct (Rle_dec x z);
        [now left | right; now left].
Qed.

Lemma fold_max_upper (r : list R) (x : R) :
  x <= fold_left Rmax r x
  /\ (forall y, In y r -> y <= fold_left Rmax r x)
  /\ In (fold_left Rmax r x) (x :: r).
Proof.
  revert x. induction r as [|z r IH]; intros x; cbn [fold_left].
  - repeat split; [lra | contradiction | now left].
  - destruct (IH (Rmax x z)) as (H1 & H2 & H3).
    pose proof (Rmax_l x z). pose proof (Rmax_r x z).
    repeat split.
    + lra.
    + intros y [<- | Hy]; [lra | now apply H2].
    + destruct H3 as [H3 | H3]; [|right; now right].
      rewrite <- H3. unfold Rmax. destruct (Rle_dec x z);
        [right; now left | now left].
Qed.

Lemma Math_min_spec (xs : list R) (mn : R) :
  Js.Math_min xs = Some mn -> In mn xs /\ forall x, In x xs -> mn <= x.
Proof.
  destruct xs as [|x r]; [discriminate|]. cbn [Js.Math_min]. intros [= <-].
  destruct (fold_min_lower r x) as (H1 & H2 & H3).
  split; [exact H3|]. intros y [<- | Hy]; [exact H1 | now apply H2].
Qed.

Lemma Math_max_spec (xs : list R) (mx : R) :
  Js.Math_max xs = Some mx -> In mx xs /\ forall x, In x xs -> x <= mx.
Proof.
  destruct xs as [|x r]; [discriminate|]. cbn [Js.Math_max]. intros [= <-].
  destruct (fold_max_upper r x) as (H1 & H2 & H3).
  split; [exact H3|]. intros y [<- | Hy]; [exact H1 | now apply H2].
Qed.

(** X1: the box [calculateClothCenter] assigns is the tight bounding box of
    the points: every coordinate lies between the minimum and the maximum,
    both are attained by some point, the width and the height are not
    negative, and the returned centre is the midpoint of the box. *)
Theorem cloth_box_is_tight (allX allY : list R) (b : Geometry.Bounds)
    (c : Geometry.Point) :
  Geometry.calculateClothCenter allX allY = Some (b, c) ->
  (forall x, In x allX -> Geometry.minX b <= x <= Geometry.maxX b)
  /\ (forall y, In y allY -> Geometry.minY b <= y <= Geometry.maxY b)
  /\ In (Geometry.minX b) allX /\ In (Geometry.maxX b) allX
  /\ In (Geometry.minY b) allY /\ In (Geometry.maxY b) allY
  /\ 0 <= Geometry.clothWidth b /\ 0 <= Geometry.clothHeight b
  /\ fst c = (Geometry.minX b + Geometry.maxX b) / 2
  /\ snd c = (Geometry.minY b + Geometry.maxY b) / 2.
Proof.
  unfold Geometry.calculateClothCenter.
  destruct (Js.Math_min allX) as [mnX|] eqn:E1; [|discriminate].
  destruct (Js.Math_min allY) as [mnY|] eqn:E2; [|discriminate].
  destruct (Js.Math_max allX) as [mxX|] eqn:E3; [|discriminate].
  destruct (Js.Math_max allY) as [mxY|] eqn:E4; [|discriminate].
  intros [= <- <-].
  cbn [Geometry.minX Geometry.maxX Geometry.minY Geometry.maxY
       Geometry.clothWidth Geometry.clothHeight fst snd].
  destruct (Math_min_spec _ _ E1) as [I1 L1].
  destruct (Math_min_spec _ _ E2) as [I2 L2].
  destruct (Math_max_spec _ _ E3) as [I3 L3].
  destruct (Math_max_spec _ _ E4) as [I4 L4].
  pose proof (L1 _ I3). pose proof (L2 _ I4).
  repeat split; try assumption; try lra;
    try (now apply L1); try (now apply L2); try (now apply L3);
    try (now apply L4).
Qed.

Lemma cloth_box_is_tight_witness :
  (forall x, In x [0; 10] -> Rmin 0 10 <= x <= Rmax 0 10)
  /\ In (Rmin 0 10) [0; 10].
Proof.
  pose proof (cloth_box_is_tight [0; 10] [0; 0] _ _ eq_refl) as H.
  cbn [Geometry.minX Geometry.maxX] in H.
  exact (conj (proj1 H) (proj1 (proj2 (proj2 H)))).
Defined.

(** ** Scaling into screen coordinates *)

Section AffineRange.

Variables k b : R.

Let f (x : R) : R := x * k + b.

(** The range of an affine image has the same midpoint image and a width
    multiplied by the absolute value of the factor. *)
Lemma affine_range (xs : list R) (mn mx : R) :
  Js.Math_min xs = Some mn -> Js.Math_max xs = Some mx ->
  exists mn' mx',
    Js.Math_min (map f xs) = Some mn' /\ Js.Math_max (map f xs) = Some mx'
    /\ mn' + (mx' - mn') / 2 = f (mn + (mx - mn) / 2)
    /\ mx' - mn' = Rabs k * (mx - mn).
Proof.
  destruct xs as [|x r]; [discriminate|].
  cbn [Js.Math_min Js.Math_max map]. intros [= <-] [= <-].
  destruct (Rle_dec 0 k) as [Hk | Hk].
  - destruct (affine_fold_up k b r x Hk) as [E1 E2]. unfold f.
    rewrite E1, E2. eexists _, _. repeat split; [lra|].
    rewrite Rabs_pos_eq by lra. lra.
  - destruct (affine_fold_down k b r x ltac:(lra)) as [E1 E2]. unfold f.
    rewrite E1, E2. eexists _, _. repeat split; [lra|].
    rewrite Rabs_left by lra. lra.
Qed.

End AffineRange.

(** X2: scaling a cloud into screen coordinates commutes with taking its
    bounding box: the centre of the scaled cloud is the scaled centre, and
    the width and the height are multiplied by the absolute value of the
    scale factor, for every factor (a negative one included, and the
    vertical axis being flipped). *)
Theorem scaleCoordinates_box (screenCenter : Geometry.Point) (scaleFactor : R)
    (ps : list Geometry.Point) (b : Geometry.Bounds) (c : Geometry.Point) :
  Geometry.calculateClothCenter (map fst ps) (map snd ps) = Some (b, c) ->
  let scaled :=
    map (fun p => DotImport.scaleCoordinates screenCenter (fst p) (snd p)
                                             scaleFactor) ps in
  exists b',
    Geometry.calculateClothCenter (map fst scaled) (map snd scaled)
    = Some (b', DotImport.scaleCoordinates screenCenter (fst c) (snd c)
                                           scaleFactor)
    /\ Geometry.clothWidth b' = Rabs scaleFactor * Geometry.clothWidth b
    /\ Geometry.clothHeight b' = Rabs scaleFactor * Geometry.clothHeight b.
Proof.
  unfold Geometry.calculateClothCenter.
  destruct (Js.Math_min (map fst ps)) as [mnX|] eqn:E1; [|discriminate].
  destruct (Js.Math_min (map snd ps)) as [mnY|] eqn:E2; [|discriminate].
  destruct (Js.Math_max (map fst ps)) as [mxX|] eqn:E3; [|discriminate].
  destruct (Js.Math_max (map snd ps)) as [mxY|] eqn:E4; [|discriminate].
  intros [= <- <-].
  rewrite !map_map. unfold DotImport.scaleCoordinates. cbn [fst snd].
  destruct (affine_range scaleFactor (fst screenCenter) _ _ _ E1 E3)
    as (a1 & a2 & A1 & A2 & A3 & A4).
  destruct (affine_range (- scaleFactor) (snd screenCenter) _ _ _ E2 E4)
    as (b1 & b2 & B1 & B2 & B3 & B4).
  rewrite map_map in A1, A2, B1, B2.
  rewrite (map_ext (fun x : R * R => - snd x * scaleFactor + snd screenCenter)
                   (fun x : R * R => snd x * - scaleFactor + snd screenCenter))
    by (intros; lra).
  rewrite A1, A2, B1, B2.
  exists (Geometry.mkBounds a1 b1 a2 b2 (a2 - a1) (b2 - b1)).
  cbn [Geometry.clothWidth Geometry.clothHeight].
  rewrite A3, B3, A4, B4, Rabs_Ropp.
  split; [|split; reflexivity].
  apply f_equal. apply f_equal. f_equal; lra.
Qed.

Lemma scaleCoordinates_box_witness :
  let ps : list Geometry.Point := [(0, 0); (10, 0)] in
  let b := Geometry.mkBounds (Rmin 0 10) (Rmin 0 0) (Rmax 0 10) (Rmax 0 0)
                             (Rmax 0 10 - Rmin 0 10) (Rmax 0 0 - Rmin 0 0) in
  let c := (Rmin 0 10 + (Rmax 0 10 - Rmin 0 10) / 2,
            Rmin 0 0 + (Rmax 0 0 - Rmin 0 0) / 2) in
  let scaled :=
    map (fun p => DotImport.scaleCoordinates (100, 100) (fst p) (snd p) 2) ps in
  exists b',
    Geometry.calculateClothCenter (map fst scaled) (map snd scaled)
    = Some (b', DotImport.scaleCoordinates (100, 100) (fst c) (snd c) 2)
    /\ Geometry.clothWidth b' = Rabs 2 * Geometry.clothWidth b
    /\ Geometry.clothHeight b' = Rabs 2 * Geometry.clothHeight b.
Proof.
  exact (scaleCoordinates_box (100, 100) 2 [(0, 0); (10, 0)] _ _ eq_refl).
Defined.

(** ** The random helpers *)

(** X3: for integers min <= max and a draw in [0, 1), [getRandomNumber]
    returns an integer between min and max, both included. *)
Theorem getRandomNumber_in_range (u : R) (lo hi : Z) :
  0 <= u < 1 -> (lo <= hi)%Z ->
  exists z : Z,
    Random.getRandomNumber u (IZR lo) (IZR hi) = IZR z /\ (lo <= z <= hi)%Z.
Proof.
  intros [Hu0 Hu1] Hle. unfold Random.getRandomNumber.
  set (w := IZR hi - IZR lo + 1).
  assert (Hw : 1 <= w).
  { unfold w. apply IZR_le in Hle. lra. }
  assert (Hw' : w = IZR (hi - lo + 1)).
  { unfold w. now rewrite plus_IZR, minus_IZR. }
  exists (Zfloor (u * w) + lo)%Z. split; [now rewrite plus_IZR|].
  destruct (Zfloor_bound (u * w)) as [F1 F2].
  assert (0 <= Zfloor (u * w))%Z.
  { apply (Zfloor_lub 0). apply Rmult_le_pos; lra. }
  assert (Zfloor (u * w) < hi - lo + 1)%Z.
  { apply lt_IZR. rewrite <- Hw'.
    apply Rle_lt_trans with (u * w); [exact F1|]. nra. }
  lia.
Qed.

Lemma getRandomNumber_in_range_witness :
  exists z : Z,
    Random.getRandomNumber (1 / 2) (IZR 3) (IZR 7) = IZR z /\ (3 <= z <= 7)%Z.
Proof.
  apply (getRandomNumber_in_range (1 / 2) 3 7); [lra | lia].
Defined.



(** ** The sampler's anchors and coverage *)

(** X5: with a jitter factor in [0, 1] and draws in [0, 1), the anchor of
    cell (x, y) lies inside that cell of the grid laid over the bounding
    box, hence inside the box. *)
Theorem anchor_inside_cell (b : Geometry.Bounds) (gx gy : nat) (off : R)
    (x y : nat) (ux uy : R) :
  0 <= off <= 1 -> 0 <= ux < 1 -> 0 <= uy < 1 ->
  (x < gx)%nat -> (y < gy)%nat ->
  0 <= Geometry.clothWidth b -> 0 <= Geometry.clothHeight b ->
  let a := Sampler.anchor b gx gy off x y ux uy in
  let xbin := Geometry.clothWidth b / INR gx in
  let ybin := Geometry.clothHeight b / INR gy in
  (Geometry.minX b + INR x * xbin <= fst a <= Geometry.minX b + (INR x + 1) * xbin)
  /\ (Geometry.minY b + INR y * ybin <= snd a
      <= Geometry.minY b + (INR y + 1) * ybin)
  /\ (Geometry.minX b <= fst a <= Geometry.minX b + Geometry.clothWidth b)
  /\ (Geometry.minY b <= snd a <= Geometry.minY b + Geometry.clothHeight b).
Proof.
  intros Hoff Hux Huy Hx Hy Hw Hh a xbin ybin.
  assert (Hgx : 0 < INR gx) by (apply lt_0_INR; lia).
  assert (Hgy : 0 < INR gy) by (apply lt_0_INR; lia).
  assert (Hxb : 0 <= xbin).
  { unfold xbin, Rdiv. apply Rmult_le_pos; [lra|].
    left. now apply Rinv_0_lt_compat. }
  assert (Hyb : 0 <= ybin).
  { unfold ybin, Rdiv. apply Rmult_le_pos; [lra|].
    left. now apply Rinv_0_lt_compat. }
  assert (Hxw : INR gx * xbin = Geometry.clothWidth b)
    by (unfold xbin; field; lra).
  assert (Hyw : INR gy * ybin = Geometry.clothHeight b)
    by (unfold ybin; field; lra).
  assert (Hx1 : INR x + 1 <= INR gx).
  { rewrite <- S_INR. apply le_INR. lia. }
  assert (Hy1 : INR y + 1 <= INR gy).
  { rewrite <- S_INR. apply le_INR. lia. }
  assert (Hx0 : 0 <= INR x) by apply pos_INR.
  assert (Hy0 : 0 <= INR y) by apply pos_INR.
  assert (Jx : - (1 / 2) <= off * (ux - 1 / 2) <= 1 / 2) by nra.
  assert (Jy : - (1 / 2) <= off * (uy - 1 / 2) <= 1 / 2) by nra.
  subst a. unfold Sampler.anchor. cbn [fst snd]. fold xbin ybin.
  repeat split; nra.
Qed.

Lemma anchor_inside_cell_witness :
  let b := Geometry.mkBounds 0 0 10 20 10 20 in
  let a := Sampler.anchor b 2 2 1 1 0 (1 / 4) (3 / 4) in
  (Geometry.minX b <= fst a <= Geometry.minX b + Geometry.clothWidth b)
  /\ (Geometry.minY b <= snd a <= Geometry.minY b + Geometry.clothHeight b).
Proof.
  pose proof (anchor_inside_cell (Geometry.mkBounds 0 0 10 20 10 20) 2 2 1 1 0
                (1 / 4) (3 / 4)) as H.
  cbv zeta in H.
  specialize (H ltac:(lra) ltac:(lra) ltac:(lra) ltac:(lia) ltac:(lia)).
  cbn [Geometry.clothWidth Geometry.clothHeight] in H.
  specialize (H ltac:(lra) ltac:(lra)).
  exact (proj2 (proj2 H)).
Defined.

(** X6: the grid loop selects exactly min(gridX * gridY, number of dots)
    dots; when the grid has at least as many cells as there are dots, every
    dot is selected, exactly once. *)
Theorem sampler_covers_all_dots (b : Geometry.Bounds) (gx gy : nat) (off : R)
    (rng : nat -> R) (refs : list Geometry.Point) :
  length (Sampler.gridSelect b gx gy off rng refs)
  = Nat.min (gx * gy) (length refs)
  /\ ((length refs <= gx * gy)%nat ->
      Permutation (Sampler.gridSelect b gx gy off rng refs)
                  (seq 0 (length refs))).
Proof.
  destruct (selectedAfter_inv b gx gy off rng refs (gx * gy) (Nat.le_refl _))
    as (Hlen & Hnd & Hids).
  fold (Sampler.gridSelect b gx gy off rng refs) in Hlen, Hnd, Hids.
  split; [exact Hlen|]. intros Hle.
  apply NoDup_Permutation_bis; [exact Hnd | |].
  - rewrite length_seq, Hlen. lia.
  - intros j Hj. apply in_seq. specialize (Hids j Hj). lia.
Qed.

Lemma sampler_covers_all_dots_witness :
  Permutation
    (Sampler.gridSelect (Geometry.mkBounds 0 0 10 0 10 0) 2 1 0
                        (fun _ => 1 / 4) [(0, 0); (10, 0)])
    (seq 0 2).
Proof.
  apply (proj2 (sampler_covers_all_dots (Geometry.mkBounds 0 0 10 0 10 0) 2 1 0
                  (fun _ => 1 / 4) [(0, 0); (10, 0)])).
  cbn. lia.
Defined.

(** ** The import loop *)

Section ImportLoop.

Import DotImport.

Variable scaled : list Geometry.Point.

Let at_ (j : nat) : Geometry.Point := nth j scaled (0, 0).

Lemma importStep_None (f : nat) (ms : list nat) :
  fold_left (importStep scaled f) ms None = None.
Proof. induction ms as [|m ms IH]; [reflexivity | exact IH]. Qed.

Lemma frames_None (dot_num : nat) (fs : list nat) :
  fold_left (fun c f => fold_left (importStep scaled f) (seq 0 dot_num) c) fs None
  = None.
Proof.
  induction fs as [|f fs IH]; [reflexivity|].
  cbn [fold_left]. now rewrite importStep_None.
Qed.

(** Every successful step reads one entry within the array. *)
Lemma inner_reads (f : nat) (ms : list nat) (c c' : Cursor) :
  fold_left (importStep scaled f) ms (Some c) = Some c' ->
  t c' = (t c + length ms)%nat
  /\ (length ms = 0 \/ t c + length ms <= length scaled)%nat.
Proof.
  revert c. induction ms as [|m ms IH]; intros c; cbn [fold_left length].
  - intros [= <-]. lia.
  - unfold importStep at 2.
    destruct (nth_error scaled (t c)) as [p|] eqn:E.
    + intros H. apply IH in H. cbn [t] in H.
      assert (t c < length scaled)%nat by (apply nth_error_Some; congruence).
      lia.
    + now rewrite importStep_None.
Qed.

Lemma outer_reads (dot_num : nat) (fs : list nat) (c c' : Cursor) :
  fold_left (fun c f => fold_left (importStep scaled f) (seq 0 dot_num) c)
            fs (Some c) = Some c' ->
  t c' = (t c + length fs * dot_num)%nat
  /\ (length fs * dot_num = 0 \/ t c + length fs * dot_num <= length scaled)%nat.
Proof.
  revert c. induction fs as [|f fs IH]; intros c; cbn [fold_left length].
  - intros [= <-]. lia.
  - destruct (fold_left (importStep scaled f) (seq 0 dot_num) (Some c))
      as [c1|] eqn:E.
    + intros H. apply IH in H. apply inner_reads in E.
      rewrite length_seq in E. nia.
    + now rewrite frames_None.
Qed.

Lemma pushAt_end (p : Geometry.Point) (a : list (list Geometry.Point)) :
  pushAt (length a) p a = a ++ [[p]].
Proof. induction a as [|x a IH]; [reflexivity|]. cbn. now rewrite IH. Qed.

Lemma pushAt_middle (p : Geometry.Point) (pre : list (list Geometry.Point))
    (x : list Geometry.Point) (r : list (list Geometry.Point)) :
  pushAt (length pre) p (pre ++ x :: r) = pre ++ (x ++ [p]) :: r.
Proof. induction pre as [|y pre IH]; [reflexivity|]. cbn. now rewrite IH. Qed.

Lemma read_at (j : nat) :
  (j < length scaled)%nat -> nth_error scaled j = Some (at_ j).
Proof. intros H. now apply nth_error_nth'. Qed.

(** Frame 0: every dot gets a new array. *)
Lemma inner_first (k : nat) (pre : list (list Geometry.Point)) (t0 : nat)
    (all : list Geometry.Point) :
  (t0 + k <= length scaled)%nat ->
  fold_left (importStep scaled 0) (seq (length pre) k)
            (Some (mkCursor t0 pre all))
  = Some (mkCursor (t0 + k)
                   (pre ++ map (fun j => [at_ j]) (seq t0 k))
                   (all ++ map at_ (seq t0 k))).
Proof.
  revert pre t0 all. induction k as [|k IH]; intros pre t0 all Hk;
    cbn [seq fold_left map].
  - now rewrite Nat.add_0_r, !app_nil_r.
  - unfold importStep at 2. cbn [t dot_pos allXY Nat.eqb].
    rewrite read_at by lia. rewrite pushAt_end.
    replace (S (length pre)) with (length (pre ++ [[at_ t0]]))
      by (rewrite length_app; cbn; lia).
    rewrite IH by lia. rewrite <- !app_assoc. cbn [app].
    f_equal. f_equal. lia.
Qed.

(** A later frame: every dot's array grows by one position. *)
Lemma inner_next (f : nat) (suf pre : list (list Geometry.Point)) (t0 : nat)
    (all : list Geometry.Point) :
  (t0 + length suf <= length scaled)%nat ->
  fold_left (importStep scaled (S f)) (seq (length pre) (length suf))
            (Some (mkCursor t0 (pre ++ suf) all))
  = Some (mkCursor (t0 + length suf)
                   (pre ++ map (fun xj => fst xj ++ [at_ (snd xj)])
                               (combine suf (seq t0 (length suf))))
                   all).
Proof.
  revert pre t0. induction suf as [|x suf IH]; intros pre t0 Hk;
    cbn [length seq fold_left combine map].
  - now rewrite Nat.add_0_r.
  - unfold importStep at 2. cbn [t dot_pos allXY Nat.eqb].
    rewrite read_at by (cbn [length] in Hk; lia). rewrite pushAt_middle.
    replace (pre ++ (x ++ [at_ t0]) :: suf)
      with ((pre ++ [x ++ [at_ t0]]) ++ suf)
      by (now rewrite <- app_assoc).
    replace (S (length pre)) with (length (pre ++ [x ++ [at_ t0]]))
      by (rewrite length_app; cbn; lia).
    rewrite IH by (cbn [length] in Hk; lia).
    rewrite <- !app_assoc. cbn [app fst snd length].
    f_equal. f_equal. lia.
Qed.

Lemma combine_rows (g : nat -> list Geometry.Point) (a n start : nat) :
  map (fun xj => fst xj ++ [at_ (snd xj)])
      (combine (map g (seq start n)) (seq (a + start) n))
  = map (fun m => g m ++ [at_ (a + m)]) (seq start n).
Proof.
  revert start. induction n as [|n IH]; intros start; [reflexivity|].
  cbn [seq map combine fst snd]. f_equal.
  specialize (IH (S start)). rewrite <- Nat.add_succ_r. exact IH.
Qed.

(** The arrays after [f] frames of [n] dots. *)
Lemma frames_layout (dot_num f : nat) :
  (S f * dot_num <= length scaled)%nat ->
  fold_left (fun c g => fold_left (importStep scaled g) (seq 0 dot_num) c)
            (seq 0 (S f))
            (Some (mkCursor 0 [] []))
  = Some (mkCursor (S f * dot_num)
            (map (fun m => map (fun g => at_ (g * dot_num + m)) (seq 0 (S f)))
                 (seq 0 dot_num))
            (map at_ (seq 0 dot_num))).
Proof.
  induction f as [|f IH]; intros Hlen.
  - cbn [seq fold_left].
    pose proof (inner_first dot_num [] 0 []) as H. cbn [length] in H.
    rewrite H by lia.
    cbn [app Nat.add Nat.mul map]. now rewrite Nat.add_0_r.
  - rewrite seq_S, fold_left_app, IH by lia.
    cbn [fold_left Nat.add].
    pose proof (inner_next f
                  (map (fun m => map (fun g => at_ (g * dot_num + m))
                                     (seq 0 (S f)))
                       (seq 0 dot_num))
                  [] (S f * dot_num) (map at_ (seq 0 dot_num))) as H.
    rewrite length_map, length_seq in H. cbn [app length] in H.
    rewrite H by lia. f_equal. f_equal; [lia|].
    replace (seq (S f * dot_num) dot_num)
      with (seq (S f * dot_num + 0) dot_num) by (now rewrite Nat.add_0_r).
    rewrite combine_rows. apply map_ext. intros m.
    now rewrite map_app.
Qed.

(** The loop succeeds exactly when the array has an entry for every dot of
    every frame. *)
Lemma importLoop_fails (frame_num dot_num : nat) :
  importLoop scaled frame_num dot_num = None
  <-> (length scaled < frame_num * dot_num)%nat.
Proof.
  unfold importLoop. split.
  - intros H. destruct (Nat.lt_ge_cases (length scaled) (frame_num * dot_num))
      as [Hlt | Hge]; [exact Hlt|].
    destruct frame_num as [|f]; [discriminate|].
    rewrite frames_layout in H by exact Hge. discriminate.
  - intros Hlt.
    destruct (fold_left _ (seq 0 frame_num) _) as [c|] eqn:E; [|reflexivity].
    apply outer_reads in E. rewrite length_seq in E. cbn [t] in E. lia.
Qed.

End ImportLoop.

Lemma distinct_zero (a : list Z) : DotImport.distinct a = 0%nat <-> a = [].
Proof.
  unfold DotImport.distinct. split; [|now intros ->].
  intros H. destruct a as [|x a]; [reflexivity|].
  apply length_zero_iff_nil in H.
  assert (In x (nodup Z.eq_dec (x :: a))) by (apply nodup_In; now left).
  rewrite H in H0. contradiction.
Qed.

Lemma distinct_le (a : list Z) : (DotImport.distinct a <= length a)%nat.
Proof.
  unfold DotImport.distinct. apply NoDup_incl_length; [apply NoDup_nodup|].
  intros x Hx. now apply nodup_In in Hx.
Qed.

Lemma firstn_as_reads {A : Type} (l : list A) (d : A) (n : nat) :
  (n <= length l)%nat -> map (fun j => nth j l d) (seq 0 n) = firstn n l.
Proof.
  revert l. induction n as [|n IH]; intros l Hn; [reflexivity|].
  destruct l as [|x l]; [cbn in Hn; lia|].
  cbn [seq map firstn nth]. f_equal.
  rewrite <- seq_shift, map_map. cbn [nth]. apply IH. cbn in Hn. lia.
Qed.

(** X7: the import throws exactly when [dot_pos] has fewer entries than the
    number of distinct frames times the number of distinct ids; entries
    beyond that product are never read. *)
Theorem import_fails_iff_too_short (screenCenter : Geometry.Point)
    (scaleFactor : R) (samples : list DotImport.Sample) :
  let frame_num := DotImport.distinct (map DotImport.frame samples) in
  let dot_num := DotImport.distinct (map DotImport.id samples) in
  (DotImport.importDots screenCenter scaleFactor samples = None
   <-> (length samples < frame_num * dot_num)%nat)
  /\ forall c,
       DotImport.importDots screenCenter scaleFactor samples = Some c ->
       DotImport.t c = (frame_num * dot_num)%nat.
Proof.
  intros frame_num dot_num. unfold DotImport.importDots. split.
  - rewrite importLoop_fails, length_map. reflexivity.
  - intros c H. unfold DotImport.importLoop in H.
    apply outer_reads in H. rewrite length_seq in H. cbn [DotImport.t] in H.
    exact (proj1 H).
Qed.

Lemma import_fails_iff_too_short_witness :
  exists c, DotImport.importDots (100, 100) 1 Inputs.samples = Some c
            /\ DotImport.t c = 4%nat.
Proof.
  destruct (DotImport.importDots (100, 100) 1 Inputs.samples) as [c|] eqn:E.
  - exists c. split; [reflexivity|].
    exact (proj2 (import_fails_iff_too_short (100, 100) 1 Inputs.samples) c E).
  - exfalso. unfold DotImport.importDots in E. apply importLoop_fails in E.
    cbn in E. lia.
Defined.

(** X8: after a successful import there is one array per distinct id, each
    with one position per distinct frame; the position of dot m at frame f is
    the scaled entry number f * dot_num + m of [dot_pos]; [allX]/[allY] hold
    the first dot_num scaled entries, which are the dots' positions at frame
    0.  So the arrays are trajectories with a reference frame, as the setup
    takes them. *)
Theorem import_layout (screenCenter : Geometry.Point) (scaleFactor : R)
    (samples : list DotImport.Sample) (c : DotImport.Cursor) :
  DotImport.importDots screenCenter scaleFactor samples = Some c ->
  let scaled :=
    map (fun s => DotImport.scaleCoordinates screenCenter (DotImport.X s)
                                             (DotImport.Y s) scaleFactor)
        samples in
  let frame_num := DotImport.distinct (map DotImport.frame samples) in
  let dot_num := DotImport.distinct (map DotImport.id samples) in
  length (DotImport.dot_pos c) = dot_num
  /\ Forall (fun a => length a = frame_num) (DotImport.dot_pos c)
  /\ (forall m f, (m < dot_num)%nat -> (f < frame_num)%nat ->
        nth f (nth m (DotImport.dot_pos c) []) (0, 0)
        = nth (f * dot_num + m) scaled (0, 0))
  /\ DotImport.allXY c = firstn dot_num scaled
  /\ exists dots : list Setup.Traj,
       map Setup.positions dots = DotImport.dot_pos c
       /\ map Setup.first dots = DotImport.allXY c
       /\ Setup.importedFrames dots = frame_num.
Proof.
  intros H scaled frame_num dot_num.
  unfold DotImport.importDots in H. fold scaled frame_num dot_num in H.
  destruct frame_num as [|f] eqn:Ef.
  - apply distinct_zero in Ef. apply map_eq_nil in Ef.
    subst dot_num scaled. subst samples. cbn in H. injection H as <-.
    cbn. repeat split; try constructor; try lia.
    exists []. now repeat split.
  - assert (Hlen : (S f * dot_num <= length scaled)%nat).
    { destruct (Nat.lt_ge_cases (length scaled) (S f * dot_num)) as [Hlt|Hge];
        [|exact Hge].
      apply importLoop_fails in Hlt. congruence. }
    assert (Hdn : (0 < dot_num)%nat).
    { destruct dot_num eqn:Ed; [|lia].
      apply distinct_zero in Ed. apply map_eq_nil in Ed. subst samples.
      discriminate. }
    unfold DotImport.importLoop in H. rewrite frames_layout in H by exact Hlen.
    pose proof (f_equal (fun o => match o with Some x => x | None => c end) H)
      as Hc.
    cbv beta iota in Hc. subst c. clear H.
    cbn [DotImport.dot_pos DotImport.allXY].
    split; [now rewrite length_map, length_seq|].
    split.
    { apply Forall_forall. intros a Ha. apply in_map_iff in Ha.
      destruct Ha as (m & <- & _). now rewrite length_map, length_seq. }
    split.
    { intros m g Hm Hg.
      rewrite (nth_indep _ [] ((fun m0 => map (fun g0 => nth (g0 * dot_num + m0) scaled (0, 0))
                                              (seq 0 (S f))) 0%nat))
        by (now rewrite length_map, length_seq).
      rewrite (map_nth (fun m0 => map (fun g0 => nth (g0 * dot_num + m0) scaled (0, 0))
                                      (seq 0 (S f)))).
      rewrite seq_nth by exact Hm. cbn [Nat.add].
      rewrite (nth_indep _ (0, 0) ((fun g0 => nth (g0 * dot_num + m) scaled (0, 0)) 0%nat))
        by (now rewrite length_map, length_seq).
      rewrite (map_nth (fun g0 => nth (g0 * dot_num + m) scaled (0, 0))).
      now rewrite seq_nth by exact Hg. }
    split.
    { apply firstn_as_reads. nia. }
    exists (map (fun m => Setup.mkTraj
                            (nth m scaled (0, 0))
                            (map (fun g => nth (g * dot_num + m) scaled (0, 0))
                                 (seq 1 f)))
                (seq 0 dot_num)).
    split; [|split].
    + rewrite map_map. apply map_ext. intros m. reflexivity.
    + rewrite map_map. apply map_ext. intros m. reflexivity.
    + destruct dot_num as [|n]; [lia|].
      cbn [seq map Setup.importedFrames Setup.positions Setup.first
           Setup.others length].
      now rewrite length_map, length_seq.
Qed.

Lemma import_layout_witness :
  exists c, DotImport.importDots (100, 100) 1 Inputs.samples = Some c
            /\ length (DotImport.dot_pos c) = 2%nat
            /\ Forall (fun a => length a = 2%nat) (DotImport.dot_pos c).
Proof.
  destruct (DotImport.importDots (100, 100) 1 Inputs.samples) as [c|] eqn:E.
  - exists c. split; [reflexivity|].
    pose proof (import_layout (100, 100) 1 Inputs.samples c E) as H.
    exact (conj (proj1 H) (proj1 (proj2 H))).
  - exfalso. unfold DotImport.importDots in E. apply importLoop_fails in E.
    cbn in E. lia.
Defined.

(** ** The selected trajectories after the setup *)

Lemma doubled_length {A : Type} (l : list A) (c : nat) :
  length (Nat.iter c (fun a => a ++ a) l) = (length l * 2 ^ c)%nat.
Proof.
  induction c as [|c IH]; simpl; [lia|].
  rewrite length_app. simpl in IH. rewrite IH. lia.
Qed.

Lemma doubled_read {A : Type} (l : list A) (c k : nat) :
  (k < length l * 2 ^ c)%nat ->
  nth_error (Nat.iter c (fun a => a ++ a) l) k = nth_error l (k mod length l).
Proof.
  revert k. induction c as [|c IH]; intros k Hk.
  - simpl in *. rewrite Nat.mod_small by lia. reflexivity.
  - assert (Hl : (0 < length l)%nat).
    { destruct (Nat.eq_dec (length l) 0) as [E | E]; [|lia].
      rewrite E in Hk. simpl in Hk. lia. }
    change (Nat.iter (S c) (fun a : list A => a ++ a) l)
      with (Nat.iter c (fun a : list A => a ++ a) l
            ++ Nat.iter c (fun a : list A => a ++ a) l).
    change (2 ^ S c)%nat with (2 * 2 ^ c)%nat in Hk.
    destruct (Nat.lt_ge_cases k (length l * 2 ^ c)) as [Hlt | Hge].
    + rewrite nth_error_app1 by (now rewrite doubled_length). now apply IH.
    + rewrite nth_error_app2 by (now rewrite doubled_length).
      rewrite doubled_length, IH by lia.
      f_equal.
      replace k with ((k - length l * 2 ^ c) + 2 ^ c * length l)%nat at 2 by lia.
      rewrite Nat.Div0.mod_add. reflexivity.
Qed.

(** X9: the cut and the cycles leave a trajectory of
    (frames - cutFrame) * 2^cycleNum positions, since each of the cycleNum
    rounds doubles the array, and reading it at index k gives the position
    of the original frame cutFrame + (k mod (frames - cutFrame)). *)
Theorem cutAndCycle_periodic (cut cycles : nat) (traj : list Geometry.Point)
    (k : nat) :
  let period := (length traj - cut)%nat in
  length (Setup.cutAndCycle cut cycles traj) = (period * 2 ^ cycles)%nat
  /\ ((k < period * 2 ^ cycles)%nat ->
      nth_error (Setup.cutAndCycle cut cycles traj) k
      = nth_error traj (cut + k mod period)).
Proof.
  intros period. unfold Setup.cutAndCycle.
  assert (Hp : length (skipn cut traj) = period) by apply length_skipn.
  split.
  - now rewrite doubled_length, Hp.
  - intros Hk. rewrite doubled_read by (now rewrite Hp).
    now rewrite Hp, nth_error_skipn.
Qed.

Lemma cutAndCycle_periodic_witness :
  nth_error (Setup.cutAndCycle 1 1 [(0, 0); (1, 0); (2, 0)]) 3
  = nth_error [(0, 0); (1, 0); (2, 0)] (1 + 3 mod (3 - 1)).
Proof.
  apply (proj2 (cutAndCycle_periodic 1 1 [(0, 0); (1, 0); (2, 0)] 3)).
  cbn. lia.
Defined.

(** X10: the selected trajectories handed to the tick loop are, in the order
    of the grid cells, the trajectories of the selected dots, each translated
    once by (screen centre - cloud centre) when the centre-cloth flag is set
    (the recentering loop writes through the arrays it shares with
    [dot_posX], and no array is moved twice), then cut and cycled. *)
Theorem setup_selected_trajectories
    (t : Trial.t) (dot_pos : list Setup.Traj) (screenCenter : Geometry.Point)
    (rng : nat -> R) (shuffle : list nat -> list nat)
    (getRandomInt start_time : R) (tickRandom : nat -> R) :
  let p := Setup.setup t dot_pos screenCenter rng shuffle getRandomInt
             start_time tickRandom in
  let cut := match Trial.cutFrame t with Some n => n | None => 0%nat end in
  let cycles := match Trial.cycleNum t with Some n => n | None => 1%nat end in
  let original id := Setup.positions (nth id dot_pos (Setup.mkTraj (0, 0) [])) in
  (Trial.centerCloth t = false ->
   Scheduler.selected_dot_pos (Setup.env p)
   = map (fun id => Setup.cutAndCycle cut cycles (original id)) (Setup.gridIDs p))
  /\ (forall b cloud,
        Trial.centerCloth t = true ->
        Geometry.calculateClothCenter (map fst (map Setup.first dot_pos))
                                      (map snd (map Setup.first dot_pos))
        = Some (b, cloud) ->
        Scheduler.selected_dot_pos (Setup.env p)
        = map (fun id =>
                 Setup.cutAndCycle cut cycles
                   (Setup.translate (fst screenCenter - fst cloud,
                                     snd screenCenter - snd cloud)
                                    (original id)))
              (Setup.gridIDs p)).
Proof.
  intros p cut cycles original.
  destruct (setup_gridIDs t dot_pos screenCenter rng shuffle getRandomInt
              start_time tickRandom) as (Hnd & Hids & _).
  fold p in Hnd, Hids.
  split.
  - intros Hflag. revert Hnd Hids. subst p.
    cbn [Setup.setup Setup.env Setup.gridIDs Scheduler.selected_dot_pos].
    rewrite Hflag. cbn [fst]. intros Hnd Hids.
    apply map_ext_in. intros id Hid. fold cut cycles.
    now rewrite (nth_positions _ _ (Setup.mkTraj (0, 0) [])) by (now apply Hids).
  - intros b cloud Hflag Hcloud. revert Hnd Hids. subst p.
    cbn [Setup.setup Setup.env Setup.gridIDs Scheduler.selected_dot_pos].
    rewrite Hflag, Hcloud. intros Hnd Hids.
    apply map_ext_in. intros id Hid. fold cut cycles.
    unfold Setup.moveSelected.
    destruct (moveSelected_spec
                (fst screenCenter - fst cloud, snd screenCenter - snd cloud)
                _ (map Setup.positions dot_pos) [] Hnd) as [_ Hstore].
    cbv zeta in Hstore. rewrite Hstore.
    replace (existsb (Nat.eqb id) _) with true
      by (symmetry; now apply existsb_eqb_In).
    now rewrite (nth_positions _ _ (Setup.mkTraj (0, 0) [])) by (now apply Hids).
Qed.

Lemma setup_selected_trajectories_witness :
  let p := Demo.prepare (Demo.trial true false false None "hold") Demo.twoDots in
  Scheduler.selected_dot_pos (Setup.env p)
  = map (fun id =>
           Setup.cutAndCycle 0 1
             (Setup.translate
                (fst (100, 100) - fst (Rmin 0 10 + (Rmax 0 10 - Rmin 0 10) / 2,
                                       Rmin 0 0 + (Rmax 0 0 - Rmin 0 0) / 2),
                 snd (100, 100) - snd (Rmin 0 10 + (Rmax 0 10 - Rmin 0 10) / 2,
                                       Rmin 0 0 + (Rmax 0 0 - Rmin 0 0) / 2))
                (Setup.positions (nth id Demo.twoDots (Setup.mkTraj (0, 0) [])))))
        (Setup.gridIDs p).
Proof.
  exact (proj2 (setup_selected_trajectories
                  (Demo.trial true false false None "hold") Demo.twoDots
                  (100, 100) (fun _ => 1 / 4) (fun ids => ids) 0 0
                  (fun _ => 1 / 4))
               _ _ eq_refl eq_refl).
Defined.

(** X11: when [shuffle] returns a permutation of the indices it is given, the
    id list it leaves has exactly as many entries as there are selected
    trajectories, so the drawing loop visits every selected trajectory and
    never reads a missing one. *)
Theorem drawing_loop_visits_every_selected
    (t : Trial.t) (dot_pos : list Setup.Traj) (screenCenter : Geometry.Point)
    (rng : nat -> R) (shuffle : list nat -> list nat)
    (getRandomInt start_time : R) (tickRandom : nat -> R) :
  Permutation (shuffle (seq 0 (length dot_pos))) (seq 0 (length dot_pos)) ->
  let e := Setup.env (Setup.setup t dot_pos screenCenter rng shuffle
                        getRandomInt start_time tickRandom) in
  length (Scheduler.selectedDotIDs e) = length (Scheduler.selected_dot_pos e)
  /\ Scheduler.drawnTrajectories e = Scheduler.selected_dot_pos e.
Proof.
  intros Hperm e.
  destruct (setup_gridIDs t dot_pos screenCenter rng shuffle getRandomInt
              start_time tickRandom) as (_ & _ & Hlen).
  assert (H : length (Scheduler.selectedDotIDs e)
              = length (Scheduler.selected_dot_pos e)).
  { subst e. revert Hlen.
    cbn [Setup.setup Setup.env Setup.gridIDs Scheduler.selectedDotIDs
         Scheduler.selected_dot_pos].
    intros Hlen. rewrite length_map, Hlen.
    exact (proj1 (shuffled_ids shuffle _ _ Hperm)). }
  split; [exact H|].
  unfold Scheduler.drawnTrajectories. rewrite H. apply firstn_all.
Qed.

Lemma drawing_loop_visits_every_selected_witness :
  let e := Setup.env (Demo.prepare Demo.holdTrial Demo.movingDot) in
  Scheduler.drawnTrajectories e = Scheduler.selected_dot_pos e.
Proof.
  apply (proj2 (drawing_loop_visits_every_selected Demo.holdTrial
                  Demo.movingDot (100, 100) (fun _ => 1 / 4) (fun ids => ids)
                  0 0 (fun _ => 1 / 4) (Permutation_refl _))).
Defined.

(** ** The size setup *)

Lemma ln_le_mono (x y : R) : 0 < x -> x <= y -> ln x <= ln y.
Proof.
  intros Hx [Hlt | ->]; [|lra]. left. now apply ln_increasing.
Qed.

Lemma ln_quotient (a d : R) : 0 < a -> 0 < d -> ln (a / d) = ln a - ln d.
Proof.
  intros Ha Hd. unfold Rdiv.
  rewrite ln_mult by (try assumption; now apply Rinv_0_lt_compat).
  rewrite ln_Rinv by assumption. lra.
Qed.

Lemma steps_factor (c : SizeController.Config) (us : list R)
    (s : SizeController.State) :
  SizeController.currentSizeFactor s = exp (SizeController.logScale s) ->
  SizeController.currentSizeFactor (SizeController.steps c us s)
  = exp (SizeController.logScale (SizeController.steps c us s)).
Proof.
  revert s. unfold SizeController.steps.
  induction us as [|u us IH]; intros s Hs; cbn [fold_left]; [exact Hs|].
  apply IH. reflexivity.
Qed.

(** X12: when the measured cloth has a positive extent, the configured sizes
    are positive, the scaling ratio is at least 1 and ratio^2 * minimum size
    is at most the maximum size, the size setup is finite and the diagonal
    extent of the cloth in pixels, initial extent times scale, stays between
    the minimum and the maximum size in pixels at the start and after every
    sequence of steps.  The fallback constants (ratio 1.75, sizes 1.6 and
    7.3 degrees) satisfy the condition. *)
Theorem size_stays_within_absolute_limits
    (t : Trial.t) (allX allY : list R) (u0 u1 : R) (us : list R)
    (mxX mnX mxY mnY : R) :
  Js.Math_max allX = Some mxX -> Js.Math_min allX = Some mnX ->
  Js.Math_max allY = Some mxY -> Js.Math_min allY = Some mnY ->
  mnX < mxX \/ mnY < mxY ->
  let initialClothSizePx := sqrt ((mxX - mnX) ^ 2 + (mxY - mnY) ^ 2) in
  let pixelsPerDegree := Js.orElse (Trial.pixelsPerDegree t) 50 in
  let minAbsPx := Js.orElse (Trial.minSizeFactor t) (16 / 10) * pixelsPerDegree in
  let maxAbsPx := Js.orElse (Trial.maxSizeFactor t) (73 / 10) * pixelsPerDegree in
  let ratio := Js.orElse (Trial.sizeChangingScalingFactor t) (7 / 4) in
  0 < minAbsPx -> 1 <= ratio -> ratio * ratio * minAbsPx <= maxAbsPx ->
  0 <= u0 <= 1 ->
  exists c z,
    Setup.sizeSetup t allX allY u0 u1 = (Some c, Some z)
    /\ minAbsPx
       <= initialClothSizePx
          * SizeController.currentSizeFactor (SizeController.steps c us z)
       <= maxAbsPx.
Proof.
  intros E1 E2 E3 E4 Hext D ppd minAbsPx maxAbsPx ratio Hmin Hratio Hfit Hu.
  assert (HD : 0 < D).
  { apply sqrt_lt_R0. cbn [pow]. rewrite !Rmult_1_r.
    pose proof (Rle_0_sqr (mxX - mnX)) as Sx.
    pose proof (Rle_0_sqr (mxY - mnY)) as Sy. unfold Rsqr in Sx, Sy.
    destruct Hext as [Hx | Hy].
    - assert (0 < (mxX - mnX) * (mxX - mnX))
        by (apply Rmult_lt_0_compat; lra). lra.
    - assert (0 < (mxY - mnY) * (mxY - mnY))
        by (apply Rmult_lt_0_compat; lra). lra. }
  assert (Hsq : 1 <= ratio * ratio) by nra.
  assert (Hle : minAbsPx <= maxAbsPx).
  { apply Rle_trans with (ratio * ratio * minAbsPx); [|exact Hfit].
    rewrite <- (Rmult_1_l minAbsPx) at 1.
    apply Rmult_le_compat_r; lra. }
  assert (Hmax : 0 < maxAbsPx) by lra.
  unfold Setup.sizeSetup. rewrite E1, E2, E3, E4.
  fold D ppd minAbsPx maxAbsPx ratio.
  rewrite (ltb_true 0 D), (ltb_true 0 minAbsPx), (ltb_true 0 maxAbsPx),
    (ltb_true 0 ratio) by lra.
  cbn [andb]. eexists _, _. split; [reflexivity|].
  set (c := SizeController.config (minAbsPx / D) (maxAbsPx / D) ratio).
  assert (Hlmin : SizeController.logMin c = ln minAbsPx - ln D)
    by (now apply ln_quotient).
  assert (Hlmax : SizeController.logMax c = ln maxAbsPx - ln D)
    by (now apply ln_quotient).
  assert (Hstep : SizeController.logStepBase c = ln ratio) by reflexivity.
  assert (Hr0 : 0 <= ln ratio).
  { rewrite <- ln_1. apply ln_le_mono; lra. }
  assert (Hwide : 2 * ln ratio <= ln maxAbsPx - ln minAbsPx).
  { replace (2 * ln ratio) with (ln ratio + ln ratio) by lra.
    rewrite <- ln_mult by lra.
    assert (ln (ratio * ratio) + ln minAbsPx <= ln maxAbsPx); [|lra].
    rewrite <- ln_mult by nra. apply ln_le_mono; nra. }
  assert (Hspan : ln minAbsPx <= ln maxAbsPx) by (now apply ln_le_mono).
  destruct (steps_in_bounds c us (SizeController.init c u0 u1)) as [B1 B2].
  { rewrite Hstep, Hlmin, Hlmax, Rabs_pos_eq by exact Hr0. lra. }
  { cbn [SizeController.init SizeController.logScale].
    rewrite Hlmin, Hlmax. nra. }
  rewrite steps_factor by reflexivity.
  apply exp_le in B1. apply exp_le in B2.
  change (SizeController.logMin c) with (ln (minAbsPx / D)) in B1.
  change (SizeController.logMax c) with (ln (maxAbsPx / D)) in B2.
  assert (Hp1 : 0 < minAbsPx / D) by (now apply Rdiv_lt_0_compat).
  assert (Hp2 : 0 < maxAbsPx / D) by (now apply Rdiv_lt_0_compat).
  rewrite exp_ln in B1 by exact Hp1. rewrite exp_ln in B2 by exact Hp2.
  split.
  - apply (Rmult_le_compat_l D) in B1; [|lra].
    replace (D * (minAbsPx / D)) with minAbsPx in B1 by (field; lra). exact B1.
  - apply (Rmult_le_compat_l D) in B2; [|lra].
    replace (D * (maxAbsPx / D)) with maxAbsPx in B2 by (field; lra). exact B2.
Qed.

Lemma size_stays_within_absolute_limits_witness :
  let t := Inputs.trial true true false None "blank" None in
  exists c z,
    Setup.sizeSetup t [0; 3] [0; 4] (1 / 2) (1 / 4) = (Some c, Some z)
    /\ Js.orElse None (16 / 10) * Js.orElse None 50
       <= sqrt ((Rmax 0 3 - Rmin 0 3) ^ 2 + (Rmax 0 4 - Rmin 0 4) ^ 2)
          * SizeController.currentSizeFactor
              (SizeController.steps c [1 / 4; 1 / 4; 3 / 4] z)
       <= Js.orElse None (73 / 10) * Js.orElse None 50.
Proof.
  assert (H3 : Rmin 0 3 < Rmax 0 3).
  { rewrite Rmin_left, Rmax_right by lra. lra. }
  apply (size_stays_within_absolute_limits
           (Inputs.trial true true false None "blank" None)
           [0; 3] [0; 4] (1 / 2) (1 / 4) [1 / 4; 1 / 4; 3 / 4]
           (Rmax 0 3) (Rmin 0 3) (Rmax 0 4) (Rmin 0 4)
           eq_refl eq_refl eq_refl eq_refl (or_introl H3));
    cbn [Inputs.trial Trial.minSizeFactor Trial.maxSizeFactor
         Trial.pixelsPerDegree Trial.sizeChangingScalingFactor Js.orElse];
    lra.
Defined.

(** ** Invariants of runs *)

Lemma run_invariant (e : Scheduler.Env) (I : Scheduler.State -> Prop) :
  (forall current_time s, I s -> I (fst (Scheduler.move_disc e current_time s))) ->
  forall times s, I s -> I (Scheduler.run e times s).
Proof.
  intros Hstep times. induction times as [|t rest IH]; intros s Hs;
    cbn [Scheduler.run]; [exact Hs|].
  specialize (Hstep t s Hs).
  destruct (Scheduler.move_disc e t s) as [s' again]. cbn [fst] in Hstep.
  destruct again; [now apply IH | exact Hstep].
Qed.

Lemma lift2_NaN_r (f : R -> R -> R) (a : Js.num) : Js.lift2 f a Js.NaN = Js.NaN.
Proof. now destruct a. Qed.

Lemma get_pos_NaN (e : Scheduler.Env) (idx : R) (traj : list Geometry.Point) :
  Trial.static (Scheduler.trial e) = false ->
  Scheduler.get_pos e Js.NaN idx traj = (Js.NaN, Js.NaN).
Proof.
  intros Hs. unfold Scheduler.get_pos, Scheduler.scaled. rewrite Hs.
  cbn [negb]. now rewrite !lift2_NaN_r.
Qed.

(** X13: without the centre-cloth flag the size setup measures no positions
    ([allX] and [allY] were emptied and are refilled only while
    recentering), so the scale is [NaN] from the start and stays so; with
    size variation enabled and the static flag unset, every position the
    loop draws and records is then [NaN]. *)
Theorem size_variation_without_center_cloth
    (t : Trial.t) (dot_pos : list Setup.Traj) (screenCenter : Geometry.Point)
    (rng : nat -> R) (shuffle : list nat -> list nat)
    (getRandomInt start_time : R) (tickRandom : nat -> R) (times : list R) :
  Trial.centerCloth t = false ->
  let p := Setup.setup t dot_pos screenCenter rng shuffle getRandomInt
             start_time tickRandom in
  Scheduler.size (Setup.state p) = None
  /\ Scheduler.size (Scheduler.run (Setup.env p) times (Setup.state p)) = None
  /\ (Trial.sizeVariation t = true -> Trial.static t = false ->
      Forall (fun frame => Forall (fun q => q = (Js.NaN, Js.NaN)) frame)
             (Scheduler.shown_pos
                (Scheduler.run (Setup.env p) times (Setup.state p)))).
Proof.
  intros Hflag p.
  assert (H0 : Scheduler.size (Setup.state p) = None).
  { subst p. cbn [Setup.setup Setup.state]. rewrite Hflag. reflexivity. }
  assert (Hshown0 : Scheduler.shown_pos (Setup.state p) = []) by reflexivity.
  assert (Htrial : Scheduler.trial (Setup.env p) = t) by reflexivity.
  split; [exact H0|]. split.
  - apply (run_invariant (Setup.env p) (fun s => Scheduler.size s = None));
      [|exact H0].
    intros ct s Hs.
    destruct (move_disc_cases (Setup.env p) ct s)
      as [-> | (q & ms & te & tf & ->)]; cbn [fst]; [exact Hs|].
    rewrite (proj2 (proj2 (display_keeps _ _ _ _ _))).
    unfold Scheduler.advance.
    destruct (Scheduler.shouldAdvanceFrame _ _ _ _); [|exact Hs].
    cbn [Scheduler.size]. unfold Scheduler.stepSize.
    change (Scheduler.size (Scheduler.enter ct s)) with (Scheduler.size s).
    rewrite Hs. destruct (_ && _); [|reflexivity].
    now destruct (Scheduler.sizeConfig (Setup.env p)).
  - intros Hvar Hstatic.
    assert (G : Scheduler.size (Scheduler.run (Setup.env p) times (Setup.state p))
                = None
                /\ Forall (fun frame => Forall (fun q => q = (Js.NaN, Js.NaN)) frame)
                     (Scheduler.shown_pos
                        (Scheduler.run (Setup.env p) times (Setup.state p))));
      [|exact (proj2 G)].
    apply (run_invariant (Setup.env p)
             (fun s => Scheduler.size s = None
                       /\ Forall (fun frame =>
                                    Forall (fun q => q = (Js.NaN, Js.NaN)) frame)
                                 (Scheduler.shown_pos s)));
      [|split; [exact H0 | rewrite Hshown0; constructor]].
    intros ct s [Hs Hf].
    destruct (move_disc_cases (Setup.env p) ct s)
      as [-> | (q & ms & te & tf & ->)]; cbn [fst]; [now split|].
    set (s1 := Scheduler.advance (Setup.env p) ct q ms (Scheduler.enter ct s)).
    assert (Hs1 : Scheduler.size s1 = None).
    { subst s1. unfold Scheduler.advance.
      destruct (Scheduler.shouldAdvanceFrame _ _ _ _); [|exact Hs].
      cbn [Scheduler.size]. unfold Scheduler.stepSize.
      change (Scheduler.size (Scheduler.enter ct s)) with (Scheduler.size s).
      rewrite Hs. destruct (_ && _); [|reflexivity].
      now destruct (Scheduler.sizeConfig (Setup.env p)). }
    assert (Hf1 : Forall (fun frame => Forall (fun q => q = (Js.NaN, Js.NaN)) frame)
                    (Scheduler.shown_pos s1)).
    { subst s1. now rewrite (proj2 (advance_rows _ _ _ _ _)). }
    destruct (display_keeps (Setup.env p) ct te tf s1) as (_ & _ & Hsz).
    cbv zeta in Hsz. split; [now rewrite Hsz|].
    destruct (display_shown (Setup.env p) ct te tf s1) as [D | D];
      cbv zeta in D; rewrite D; [exact Hf1|].
    apply Forall_app. split; [exact Hf1|]. constructor; [|constructor].
    unfold Scheduler.scaleOf. rewrite Htrial, Hvar, Hsz, Hs1.
    unfold Scheduler.inFrame. apply Forall_forall. intros q0 Hq.
    apply in_map_iff in Hq. destruct Hq as (traj & <- & _).
    apply get_pos_NaN. now rewrite Htrial.
Qed.

Lemma size_variation_without_center_cloth_witness :
  let t := Inputs.trial false true false None "hold" None in
  let p := Setup.setup t Inputs.threeFrames (100, 100) (fun _ => 1 / 4)
             (fun ids => ids) 0 0 (fun _ => 1 / 4) in
  Forall (fun frame => Forall (fun q => q = (Js.NaN, Js.NaN)) frame)
         (Scheduler.shown_pos
            (Scheduler.run (Setup.env p) [0; 500; 1500] (Setup.state p))).
Proof.
  exact (proj2 (proj2 (size_variation_without_center_cloth
                         (Inputs.trial false true false None "hold" None)
                         Inputs.threeFrames (100, 100) (fun _ => 1 / 4)
                         (fun ids => ids) 0 0 (fun _ => 1 / 4)
                         [0; 500; 1500] eq_refl))
               eq_refl eq_refl).
Defined.

(** ** What a running call does *)

Section RunningCall.

Import Scheduler.

Variable e : Env.

(** A call that requests another frame happened before the end of the
    trial, and is an advance followed by a display. *)
Lemma move_disc_running (current_time : R) (s s' : State) :
  move_disc e current_time s = (s', true) ->
  let te := (current_time - start_time e) / 1000 in
  let s0 := enter current_time s in
  te < trial_duration e
  /\ explicitDurationReached e te = false
  /\ s' = display e current_time te
            ((current_time - currentDisplayFrameStartTime s0) / 1000)
            (advance e current_time (te / trial_duration e)
                     (current_time - currentDisplayFrameStartTime s0) s0).
Proof.
  unfold move_disc.
  destruct (explicitDurationReached e _) eqn:E1; [discriminate|].
  unfold Js.ltb. destruct (Rlt_dec _ (trial_duration e)) as [Hlt|]; [|discriminate].
  intros [= <-]. cbv zeta. repeat split. exact Hlt.
Qed.

Lemma move_disc_stopped (current_time : R) (s s' : State) :
  move_disc e current_time s = (s', false) -> s' = enter current_time s.
Proof.
  unfold move_disc.
  destruct (explicitDurationReached e _); [now intros [= <-]|].
  destruct (Js.ltb _ _); [discriminate | now intros [= <-]].
Qed.

(** The display is one of: a visible tick of hold mode, a visible tick of
    blank mode, a blank tick, or nothing at all in any other mode. *)
Lemma display_cases (current_time te tf : R) (s : State) :
  (isiMode e = "hold"%string
   /\ display e current_time te tf s = visible e false current_time te tf s)
  \/ (isiMode e = "blank"%string
      /\ hasShownVisibleTickForThisFrame s = false
      /\ display e current_time te tf s = visible e true current_time te tf s)
  \/ (isiMode e = "blank"%string
      /\ hasShownVisibleTickForThisFrame s = true
      /\ display e current_time te tf s = blank e te tf s)
  \/ (isiMode e <> "hold"%string /\ isiMode e <> "blank"%string
      /\ display e current_time te tf s = s).
Proof.
  unfold display.
  destruct (String.eqb_spec (isiMode e) "hold") as [Hh | Hh]; [now left|].
  destruct (String.eqb_spec (isiMode e) "blank") as [Hb | Hb]; cbn [andb].
  - destruct (hasShownVisibleTickForThisFrame s); cbn [negb].
    + right. right. left. now repeat split.
    + right. left. now repeat split.
  - right. right. right. now repeat split.
Qed.

(** In blank mode the advance happens only after a frame was shown and, for
    a non-zero gap, once the gap has passed since that frame. *)
Lemma advance_blank_mode (current_time p ms : R) (s : State) :
  isiMode e = "blank"%string ->
  let s1 := advance e current_time p ms s in
  (s1 = s /\ csv_frameData s1 = csv_frameData s)
  \/ (hasShownVisibleTickForThisFrame s = true
      /\ hasShownVisibleTickForThisFrame s1 = false
      /\ blankFrameStartTime s1 = blankFrameStartTime s
      /\ (Js.orElse (Trial.isi (trial e)) 0 = 0
          \/ Js.orElse (Trial.isi (trial e)) 0
             <= current_time - blankFrameStartTime s)).
Proof.
  intros Hmode. unfold advance, shouldAdvanceFrame. rewrite Hmode.
  cbn [String.eqb Ascii.eqb Bool.eqb].
  destruct (hasShownVisibleTickForThisFrame s) eqn:Hh; cbn [negb];
    [|now left].
  destruct (Js.eqb _ 0) eqn:E0; cbn [orb].
  - right. apply eqb_eq in E0.
    split; [reflexivity|]. split; [reflexivity|]. split; [reflexivity|].
    now left.
  - unfold Js.leb. destruct (Rle_dec _ _) as [Hle|]; [|now left].
    right.
    split; [reflexivity|]. split; [reflexivity|]. split; [reflexivity|].
    now right.
Qed.

End RunningCall.

Lemma shownIndices_app (a b : list Scheduler.Row) :
  Runs.shownIndices (a ++ b) = Runs.shownIndices a ++ Runs.shownIndices b.
Proof.
  induction a as [|r a IH]; [reflexivity|].
  cbn [app Runs.shownIndices]. destruct (Scheduler.displayFrameNumber r);
    [cbn [app]; now rewrite IH | exact IH].
Qed.

Lemma visibleTimes_app (a b : list Scheduler.Row) :
  Runs.visibleTimes (a ++ b) = Runs.visibleTimes a ++ Runs.visibleTimes b.
Proof. unfold Runs.visibleTimes. now rewrite filter_app, map_app. Qed.

(** ** Telemetry rows over a run *)

(** X14: every row of the telemetry is recorded strictly before the end of
    the trial: its elapsed time is below the trial duration and, when an
    explicit non-zero [trial.trial_duration] is given, below that as well
    (the explicit duration ends the trial even where the ISI adjustment has
    made the working duration longer). *)
Theorem rows_are_recorded_before_the_end (e : Scheduler.Env) (times : list R)
    (size0 : option SizeController.State) :
  Forall (fun r =>
            Scheduler.timeElapsed r < Scheduler.trial_duration e
            /\ forall d, Trial.trial_duration (Scheduler.trial e) = Some d ->
                         d <> 0 -> Scheduler.timeElapsed r < d)
         (Scheduler.csv_frameData
            (Scheduler.run e times (Scheduler.initial size0))).
Proof.
  apply (run_invariant e
           (fun s => Forall (fun r =>
                               Scheduler.timeElapsed r < Scheduler.trial_duration e
                               /\ forall d,
                                    Trial.trial_duration (Scheduler.trial e) = Some d ->
                                    d <> 0 -> Scheduler.timeElapsed r < d)
                            (Scheduler.csv_frameData s)));
    [|constructor].
  intros ct s Hs.
  destruct (Scheduler.move_disc e ct s) as [s' again] eqn:E. cbn [fst].
  destruct again; [|now rewrite (move_disc_stopped e ct s s' E)].
  destruct (move_disc_running e ct s s' E) as (Hlt & Hexp & ->).
  set (te := (ct - Scheduler.start_time e) / 1000) in *.
  assert (Hrow : forall r, Scheduler.timeElapsed r = te ->
                   Scheduler.timeElapsed r < Scheduler.trial_duration e
                   /\ forall d, Trial.trial_duration (Scheduler.trial e) = Some d ->
                                d <> 0 -> Scheduler.timeElapsed r < d).
  { intros r ->. split; [exact Hlt|]. intros d Hd Hd0.
    unfold Scheduler.explicitDurationReached in Hexp. rewrite Hd in Hexp.
    rewrite (eqb_false d 0 Hd0) in Hexp. cbn [negb andb] in Hexp.
    unfold Js.leb in Hexp. destruct (Rle_dec d te); [discriminate | lra]. }
  match goal with
  | |- context [Scheduler.display e ?a ?b ?c ?d] =>
      destruct (display_cases e a b c d)
        as [(_ & ->) | [(_ & _ & ->) | [(_ & _ & ->) | (_ & _ & ->)]]]
  end;
    cbn [Scheduler.visible Scheduler.blank Scheduler.csv_frameData];
    rewrite ?(proj1 (advance_rows e _ _ _ _));
    try (apply Forall_app; split; [exact Hs|]; constructor; [|constructor];
         now apply Hrow);
    exact Hs.
Qed.

(** X15: in the modes "hold" and "blank" every call that requests another
    frame records exactly one row, in hold mode a visible one; with any
    other value of the ISI mode nothing is ever drawn or recorded, while the
    trial still runs to its end. *)
Theorem rows_count_running_calls (e : Scheduler.Env) (times : list R)
    (s : Scheduler.State) :
  (Scheduler.isiMode e = "hold"%string \/ Scheduler.isiMode e = "blank"%string ->
   length (Scheduler.csv_frameData (Scheduler.run e times s))
   = (length (Scheduler.csv_frameData s) + Runs.runningCalls e times s)%nat)
  /\ (Scheduler.isiMode e = "hold"%string ->
      Forall (fun r => Runs.isVisible r = true) (Scheduler.csv_frameData s) ->
      Forall (fun r => Runs.isVisible r = true)
             (Scheduler.csv_frameData (Scheduler.run e times s)))
  /\ (Scheduler.isiMode e <> "hold"%string ->
      Scheduler.isiMode e <> "blank"%string ->
      Scheduler.csv_frameData (Scheduler.run e times s) = Scheduler.csv_frameData s
      /\ Scheduler.shown_pos (Scheduler.run e times s) = Scheduler.shown_pos s).
Proof.
  revert s. induction times as [|ct rest IH]; intros s;
    cbn [Scheduler.run Runs.runningCalls].
  - repeat split; try lia; tauto.
  - destruct (Scheduler.move_disc e ct s) as [s' again] eqn:E.
    destruct again.
    + destruct (move_disc_running e ct s s' E) as (_ & _ & Hs').
      destruct (IH s') as (I1 & I2 & I3).
      assert (Hadv : forall p ms,
                 Scheduler.csv_frameData
                   (Scheduler.advance e ct p ms (Scheduler.enter ct s))
                 = Scheduler.csv_frameData s
                 /\ Scheduler.shown_pos
                      (Scheduler.advance e ct p ms (Scheduler.enter ct s))
                    = Scheduler.shown_pos s).
      { intros p ms. destruct (advance_rows e ct p ms (Scheduler.enter ct s))
          as [-> ->]. now split. }
      match type of Hs' with
      | _ = Scheduler.display e ?a ?b ?c ?d =>
          destruct (display_cases e a b c d)
            as [(Hm & D) | [(Hm & _ & D) | [(Hm & _ & D) | (Hh & Hb & D)]]];
            rewrite D in Hs'
      end.
      * assert (Hcsv : exists row,
                   Scheduler.csv_frameData s' = Scheduler.csv_frameData s ++ [row]
                   /\ Runs.isVisible row = true).
        { rewrite Hs'. cbn [Scheduler.visible Scheduler.csv_frameData].
          rewrite (proj1 (Hadv _ _)). eexists. split; reflexivity. }
        destruct Hcsv as (row & Hcsv & Hvis).
        split; [|split].
        -- intros Hmode. rewrite (I1 Hmode), Hcsv, length_app. cbn [length]. lia.
        -- intros _ Hall. apply (I2 Hm). rewrite Hcsv. apply Forall_app.
           split; [exact Hall | now constructor].
        -- intros Hh. congruence.
      * assert (Hcsv : exists row,
                   Scheduler.csv_frameData s' = Scheduler.csv_frameData s ++ [row]).
        { rewrite Hs'. cbn [Scheduler.visible Scheduler.csv_frameData].
          rewrite (proj1 (Hadv _ _)). eexists. reflexivity. }
        destruct Hcsv as (row & Hcsv).
        split; [|split].
        -- intros Hmode. rewrite (I1 Hmode), Hcsv, length_app. cbn [length]. lia.
        -- intros Hh. rewrite Hh in Hm. discriminate.
        -- intros _ Hb. congruence.
      * assert (Hcsv : exists row,
                   Scheduler.csv_frameData s' = Scheduler.csv_frameData s ++ [row]).
        { rewrite Hs'. cbn [Scheduler.blank Scheduler.csv_frameData].
          rewrite (proj1 (Hadv _ _)). eexists. reflexivity. }
        destruct Hcsv as (row & Hcsv).
        split; [|split].
        -- intros Hmode. rewrite (I1 Hmode), Hcsv, length_app. cbn [length]. lia.
        -- intros Hh'. rewrite Hh' in Hm. discriminate.
        -- intros _ Hb'. congruence.
      * assert (Hcsv : Scheduler.csv_frameData s' = Scheduler.csv_frameData s
                       /\ Scheduler.shown_pos s' = Scheduler.shown_pos s).
        { rewrite Hs'. apply Hadv. }
        destruct Hcsv as [Hcsv Hpos].
        split; [|split].
        -- intros [Hmode | Hmode]; congruence.
        -- intros Hmode. congruence.
        -- intros _ _. destruct (I3 Hh Hb) as [-> ->]. now split.
    + rewrite (move_disc_stopped e ct s s' E).
      repeat split; try (cbn; lia); tauto.
Qed.

Lemma rows_count_running_calls_witness :
  let e := Inputs.env (Inputs.trial true false false None "Hold" None) "Hold" in
  Scheduler.csv_frameData
    (Scheduler.run e [0; 500; 1000] (Scheduler.initial None))
  = Scheduler.csv_frameData (Scheduler.initial None)
  /\ Scheduler.shown_pos
       (Scheduler.run e [0; 500; 1000] (Scheduler.initial None))
     = Scheduler.shown_pos (Scheduler.initial None).
Proof.
  apply (proj2 (proj2 (rows_count_running_calls
                         (Inputs.env (Inputs.trial true false false None "Hold" None)
                                     "Hold")
                         [0; 500; 1000] (Scheduler.initial None))));
    discriminate.
Defined.

Lemma rows_are_recorded_before_the_end_witness :
  Forall (fun r =>
            Scheduler.timeElapsed r < 3
            /\ forall d, Some 2 = Some d -> d <> 0 -> Scheduler.timeElapsed r < d)
         (Scheduler.csv_frameData
            (Scheduler.run
               (Inputs.env (Inputs.trial true false false None "hold" (Some 2)) "hold")
               [0; 1000; 2500] (Scheduler.initial None))).
Proof.
  apply (rows_are_recorded_before_the_end
           (Inputs.env (Inputs.trial true false false None "hold" (Some 2)) "hold")
           [0; 1000; 2500] None).
Defined.

Lemma advance_counters (e : Scheduler.Env) (current_time p ms : R)
    (s : Scheduler.State) :
  Scheduler.shown_frameNum (Scheduler.advance e current_time p ms s)
  = Scheduler.shown_frameNum s.
Proof.
  unfold Scheduler.advance. now destruct (Scheduler.shouldAdvanceFrame _ _ _ _).
Qed.

(** X16: the counter [shown_frameNum] that [end_trial] divides by the
    duration equals the number of position lists pushed and the number of
    visible rows of the telemetry; every drawn frame has one position per
    trajectory the drawing loop visits, and every row carries the ISI and the
    ISI mode of the trial. *)
Theorem shown_frames_are_counted (e : Scheduler.Env) (times : list R)
    (size0 : option SizeController.State) :
  let s := Scheduler.run e times (Scheduler.initial size0) in
  Scheduler.shown_frameNum s = length (Scheduler.shown_pos s)
  /\ length (Scheduler.shown_pos s)
     = length (filter Runs.isVisible (Scheduler.csv_frameData s))
  /\ Forall (fun drawn => length drawn = length (Scheduler.drawnTrajectories e))
            (Scheduler.shown_pos s)
  /\ Forall (fun r => Scheduler.isiModeCol r = Scheduler.isiMode e
                      /\ Scheduler.isi r = Js.orElse (Trial.isi (Scheduler.trial e)) 0)
            (Scheduler.csv_frameData s).
Proof.
  apply (run_invariant e
           (fun s =>
              Scheduler.shown_frameNum s = length (Scheduler.shown_pos s)
              /\ length (Scheduler.shown_pos s)
                 = length (filter Runs.isVisible (Scheduler.csv_frameData s))
              /\ Forall (fun drawn =>
                           length drawn = length (Scheduler.drawnTrajectories e))
                        (Scheduler.shown_pos s)
              /\ Forall (fun r =>
                           Scheduler.isiModeCol r = Scheduler.isiMode e
                           /\ Scheduler.isi r
                              = Js.orElse (Trial.isi (Scheduler.trial e)) 0)
                        (Scheduler.csv_frameData s)));
    [|cbn; repeat split; constructor].
  intros ct s (H1 & H2 & H3 & H4).
  destruct (Scheduler.move_disc e ct s) as [s' again] eqn:E. cbn [fst].
  destruct again;
    [|rewrite (move_disc_stopped e ct s s' E); now repeat split].
  destruct (move_disc_running e ct s s' E) as (_ & _ & ->).
  match goal with
  | |- context [Scheduler.display e ?a ?b ?c ?d] =>
      destruct (display_cases e a b c d)
        as [(_ & ->) | [(_ & _ & ->) | [(_ & _ & ->) | (_ & _ & ->)]]]
  end;
    cbn [Scheduler.visible Scheduler.blank Scheduler.csv_frameData
         Scheduler.shown_pos Scheduler.shown_frameNum];
    rewrite ?advance_counters, ?(proj1 (advance_rows e _ _ _ _)),
      ?(proj2 (advance_rows e _ _ _ _));
    cbn [Scheduler.enter Scheduler.csv_frameData Scheduler.shown_pos
         Scheduler.shown_frameNum];
    rewrite ?filter_app, ?length_app; cbn [filter Runs.isVisible
      Scheduler.displayFrameNumber length app]; rewrite ?app_nil_r.
  1, 2: (split; [lia|]; split; [lia|]; split;
         [apply Forall_app; split; [exact H3|]; constructor; [|constructor];
          unfold Scheduler.inFrame; apply length_map
         |apply Forall_app; split; [exact H4|]; constructor; [|constructor];
          now split]).
  - split; [exact H1|]. split; [lia|]. split; [exact H3|].
    apply Forall_app; split; [exact H4|]. constructor; [|constructor]. now split.
  - now repeat split.
Qed.

(** ** The blank gap *)

Lemma spaced_snoc (gap a b : R) (pre : list R) :
  Runs.spaced gap (pre ++ [a]) -> a + gap <= b ->
  Runs.spaced gap ((pre ++ [a]) ++ [b]).
Proof.
  intros Hs Hab. induction pre as [|x pre IH].
  - cbn. split; [exact Hab | exact I].
  - destruct pre as [|y pre].
    + cbn in *. split; [tauto|]. split; [exact Hab | exact I].
    + cbn [app Runs.spaced] in *. split; [tauto|]. apply IH. tauto.
Qed.

(** X17: in blank mode with a positive gap [trial.isi], two consecutive
    visible rows of the telemetry are at least the gap apart in elapsed
    time, whatever the timestamps of the calls are. *)
Theorem blank_mode_spaces_visible_frames (e : Scheduler.Env) (times : list R)
    (size0 : option SizeController.State) (gap : R) :
  Scheduler.isiMode e = "blank"%string ->
  Js.orElse (Trial.isi (Scheduler.trial e)) 0 = gap ->
  0 < gap ->
  Runs.spaced (gap / 1000)
    (Runs.visibleTimes
       (Scheduler.csv_frameData (Scheduler.run e times (Scheduler.initial size0)))).
Proof.
  intros Hmode Hgap Hpos.
  set (vt := fun s : Scheduler.State =>
               Runs.visibleTimes (Scheduler.csv_frameData s)).
  assert (Hinv :
    let s := Scheduler.run e times (Scheduler.initial size0) in
    Runs.spaced (gap / 1000) (vt s)
    /\ (Scheduler.hasShownVisibleTickForThisFrame s = true ->
        exists pre, vt s = pre ++ [(Scheduler.blankFrameStartTime s
                                    - Scheduler.start_time e) / 1000])
    /\ (Scheduler.hasShownVisibleTickForThisFrame s = false -> vt s = []));
    [|exact (proj1 Hinv)].
  apply (run_invariant e
           (fun s =>
              Runs.spaced (gap / 1000) (vt s)
              /\ (Scheduler.hasShownVisibleTickForThisFrame s = true ->
                  exists pre, vt s = pre ++ [(Scheduler.blankFrameStartTime s
                                              - Scheduler.start_time e) / 1000])
              /\ (Scheduler.hasShownVisibleTickForThisFrame s = false -> vt s = [])));
    [|unfold vt; cbn; split; [exact I|]; split; [discriminate | reflexivity]].
  intros ct s (Hsp & Hshown & Hnone).
  destruct (Scheduler.move_disc e ct s) as [s' again] eqn:E. cbn [fst].
  destruct again;
    [|rewrite (move_disc_stopped e ct s s' E); now repeat split].
  destruct (move_disc_running e ct s s' E) as (_ & _ & ->).
  set (s0 := Scheduler.enter ct s).
  match goal with
  | |- context [Scheduler.advance e ?a ?b ?c s0] =>
      pose proof (advance_blank_mode e a b c s0 Hmode) as Hadv;
      pose proof (advance_rows e a b c s0) as [Hcsv _];
      set (s1 := Scheduler.advance e a b c s0) in *
  end.
  cbv zeta in Hadv.
  assert (Hvt1 : vt s1 = vt s) by (unfold vt; now rewrite Hcsv).
  match goal with
  | |- context [Scheduler.display e ?a ?b ?c s1] =>
      destruct (display_cases e a b c s1)
        as [(Hm & _) | [(_ & Hh1 & ->) | [(_ & Hh1 & ->) | (_ & Hb & _)]]]
  end.
  - rewrite Hmode in Hm. discriminate.
  - unfold vt. cbn [Scheduler.visible Scheduler.csv_frameData
                    Scheduler.hasShownVisibleTickForThisFrame
                    Scheduler.blankFrameStartTime].
    rewrite visibleTimes_app. fold (vt s1). rewrite Hvt1.
    change (Runs.visibleTimes [_]) with [(ct - Scheduler.start_time e) / 1000].
    split; [|split; [intros _; now exists (vt s) | discriminate]].
    destruct Hadv as [[Heq _] | (Hh0 & _ & _ & Hwait)].
    + rewrite Heq in Hh1. rewrite (Hnone Hh1). exact I.
    + destruct (Hshown Hh0) as (pre & Hpre). rewrite Hpre.
      apply spaced_snoc; [now rewrite <- Hpre|].
      change (Scheduler.blankFrameStartTime s0)
        with (Scheduler.blankFrameStartTime s) in Hwait.
      rewrite Hgap in Hwait. destruct Hwait as [H0 | Hwait]; lra.
  - destruct Hadv as [[Heq _] | (_ & Hh1' & _)]; [|congruence].
    unfold vt. cbn [Scheduler.blank Scheduler.csv_frameData
                    Scheduler.hasShownVisibleTickForThisFrame
                    Scheduler.blankFrameStartTime].
    rewrite visibleTimes_app. fold (vt s1). rewrite Hvt1.
    change (Runs.visibleTimes [_]) with (@nil R). rewrite app_nil_r.
    rewrite Heq. now repeat split.
  - now contradiction Hb.
Qed.

Lemma blank_mode_spaces_visible_frames_witness :
  Runs.spaced (200 / 1000)
    (Runs.visibleTimes
       (Scheduler.csv_frameData
          (Scheduler.run
             (Inputs.env (Inputs.trial true false false (Some 200) "blank" None)
                         "blank")
             [0; 100; 250] (Scheduler.initial None)))).
Proof.
  apply (blank_mode_spaces_visible_frames
           (Inputs.env (Inputs.trial true false false (Some 200) "blank" None)
                       "blank")
           [0; 100; 250] None 200).
  - reflexivity.
  - cbn. rewrite eqb_false by lra. reflexivity.
  - lra.
Defined.

(** ** The first call *)

(** X18: in blank mode, and in hold mode with a positive [trial.frameDur],
    the first call of [move_disc] before the end of the trial shows frame 0
    with a frame clock of zero and leaves the size state alone, whatever its
    timestamp is and also under reverse playback, where the elapsed time
    maps to the other end of the trajectory. *)
Theorem first_call_shows_frame_zero (e : Scheduler.Env) (current_time : R)
    (size0 : option SizeController.State) :
  (current_time - Scheduler.start_time e) / 1000 < Scheduler.trial_duration e ->
  Scheduler.explicitDurationReached e
    ((current_time - Scheduler.start_time e) / 1000) = false ->
  (Scheduler.isiMode e = "blank"%string
   \/ (Scheduler.isiMode e = "hold"%string
       /\ 0 < Js.orElse (Trial.frameDur (Scheduler.trial e)) 0)) ->
  let s := fst (Scheduler.move_disc e current_time (Scheduler.initial size0)) in
  (exists row,
      Scheduler.csv_frameData s = [row]
      /\ Scheduler.displayFrameNumber row = Scheduler.Shown 0
      /\ Scheduler.timeInCurrentDisplayFrame row = 0)
  /\ Scheduler.lastDisplayedFrameIndex s = 0
  /\ Scheduler.size s = size0
  /\ Scheduler.updateCalls s = 0%nat.
Proof.
  intros Hlt Hexp Hmode. unfold Scheduler.move_disc. cbv zeta.
  rewrite Hexp, (ltb_true _ _ Hlt). cbn [fst].
  assert (Hstart : Scheduler.currentDisplayFrameStartTime
                     (Scheduler.enter current_time (Scheduler.initial size0))
                   = current_time).
  { cbn [Scheduler.enter Scheduler.initial Scheduler.currentDisplayFrameStartTime
         Scheduler.lastDisplayedFrameIndex]. now rewrite eqb_refl. }
  assert (Hidx : Scheduler.lastDisplayedFrameIndex
                   (Scheduler.enter current_time (Scheduler.initial size0)) = 0).
  { cbn [Scheduler.enter Scheduler.initial Scheduler.lastDisplayedFrameIndex].
    now rewrite eqb_refl. }
  rewrite Hstart.
  assert (Hadv : forall p,
             Scheduler.advance e current_time p (current_time - current_time)
               (Scheduler.enter current_time (Scheduler.initial size0))
             = Scheduler.enter current_time (Scheduler.initial size0)).
  { intros p. unfold Scheduler.advance, Scheduler.shouldAdvanceFrame.
    destruct Hmode as [Hb | [Hh Hf]].
    - rewrite Hb. reflexivity.
    - rewrite Hh. cbn [String.eqb Ascii.eqb Bool.eqb].
      rewrite leb_false; [reflexivity | lra]. }
  rewrite Hadv.
  assert (Hzero : (current_time - current_time) / 1000 = 0) by lra.
  destruct Hmode as [Hb | [Hh Hf]]; unfold Scheduler.display.
  - rewrite Hb. cbn [String.eqb Ascii.eqb Bool.eqb andb negb Scheduler.enter
                     Scheduler.initial Scheduler.hasShownVisibleTickForThisFrame].
    cbn [Scheduler.visible Scheduler.csv_frameData Scheduler.lastDisplayedFrameIndex
         Scheduler.size Scheduler.updateCalls].
    rewrite !Hidx.
    change (Scheduler.csv_frameData
              (Scheduler.enter current_time (Scheduler.initial size0)))
      with (@nil Scheduler.Row).
    split; [|split; [reflexivity | split; reflexivity]].
    eexists. split; [reflexivity|]. split; [reflexivity | exact Hzero].
  - rewrite Hh. cbn [String.eqb Ascii.eqb Bool.eqb].
    cbn [Scheduler.visible Scheduler.csv_frameData Scheduler.lastDisplayedFrameIndex
         Scheduler.size Scheduler.updateCalls].
    rewrite !Hidx.
    change (Scheduler.csv_frameData
              (Scheduler.enter current_time (Scheduler.initial size0)))
      with (@nil Scheduler.Row).
    split; [|split; [reflexivity | split; reflexivity]].
    eexists. split; [reflexivity|]. split; [reflexivity | exact Hzero].
Qed.

Lemma first_call_shows_frame_zero_witness :
  let e := Inputs.env (Inputs.trial true false true None "hold" None) "hold" in
  let s := fst (Scheduler.move_disc e 40 (Scheduler.initial None)) in
  (exists row,
      Scheduler.csv_frameData s = [row]
      /\ Scheduler.displayFrameNumber row = Scheduler.Shown 0
      /\ Scheduler.timeInCurrentDisplayFrame row = 0)
  /\ Scheduler.lastDisplayedFrameIndex s = 0
  /\ Scheduler.size s = None
  /\ Scheduler.updateCalls s = 0%nat.
Proof.
  apply (first_call_shows_frame_zero
           (Inputs.env (Inputs.trial true false true None "hold" None) "hold")
           40 None).
  - cbn. lra.
  - reflexivity.
  - right. split; [reflexivity|]. cbn. rewrite eqb_false by lra. lra.
Defined.

(** ** The displayed indices over a run *)

Section ShownIndices.

Import Scheduler.

Variable e : Env.

Lemma heldIndex_not_initial (s : State) : heldIndex s <> -1.
Proof.
  unfold heldIndex. destruct (Js.eqb _ (-1)) eqn:E; [lra | now apply eqb_neq].
Qed.

Lemma heldIndex_fixed (s : State) :
  lastDisplayedFrameIndex s <> -1 -> heldIndex s = lastDisplayedFrameIndex s.
Proof. intros H. unfold heldIndex. now rewrite eqb_false. Qed.

Lemma frameIndexOf_nonneg (rp : bool) (n p : R) : 0 <= frameIndexOf rp n p.
Proof. unfold frameIndexOf. apply Rmax_l. Qed.

(** What a running call does to the index and to the shown indices. *)
Lemma running_call_indices (current_time : R) (s s' : State) :
  move_disc e current_time s = (s', true) ->
  (lastDisplayedFrameIndex s' = heldIndex s
   \/ lastDisplayedFrameIndex s'
      = frameIndexAt e ((current_time - start_time e) / 1000))
  /\ (Runs.shownIndices (csv_frameData s') = Runs.shownIndices (csv_frameData s)
      \/ Runs.shownIndices (csv_frameData s')
         = Runs.shownIndices (csv_frameData s) ++ [lastDisplayedFrameIndex s']).
Proof.
  intros E. destruct (move_disc_running e current_time s s' E) as (_ & _ & ->).
  match goal with
  | |- context [advance e ?a ?b ?c ?d] =>
      pose proof (advance_rows e a b c d) as [Hcsv _];
      assert (Hidx : lastDisplayedFrameIndex (advance e a b c d) = heldIndex s
                     \/ lastDisplayedFrameIndex (advance e a b c d)
                        = frameIndexAt e ((current_time - start_time e) / 1000))
        by (unfold advance; destruct (shouldAdvanceFrame _ _ _ _);
            [now right | now left]);
      set (s1 := advance e a b c d) in *
  end.
  change (csv_frameData (enter current_time s)) with (csv_frameData s) in Hcsv.
  match goal with
  | |- context [display e ?a ?b ?c s1] =>
      destruct (display_cases e a b c s1)
        as [(_ & ->) | [(_ & _ & ->) | [(_ & _ & ->) | (_ & _ & ->)]]]
  end;
    cbn [visible blank csv_frameData lastDisplayedFrameIndex];
    rewrite ?shownIndices_app, ?Hcsv;
    cbn [Runs.shownIndices displayFrameNumber]; rewrite ?app_nil_r;
    (split; [exact Hidx|]); auto.
Qed.

End ShownIndices.

Lemma sorted_snoc (l : list R) (x : R) :
  StronglySorted Rle l -> Forall (fun k => k <= x) l ->
  StronglySorted Rle (l ++ [x]).
Proof.
  induction 1 as [|a l Hs IH Ha]; intros Hx; cbn [app].
  - constructor; constructor.
  - inversion Hx as [|? ? Hax Hlx]; subst. constructor; [now apply IH|].
    apply Forall_app. split; [exact Ha | now constructor].
Qed.

Lemma frameIndexAt_forward (e : Scheduler.Env) (t1 t2 : R) :
  Trial.reversePlayback (Scheduler.trial e) = false ->
  0 <= Scheduler.frame_num e ->
  Scheduler.frame_num e <= 10 ^ 21 ->
  0 <= t1 <= t2 ->
  t2 < Scheduler.trial_duration e ->
  t1 = 0
  \/ 1 / 1000000 <= t1 / Scheduler.trial_duration e * Scheduler.frame_num e ->
  Scheduler.frameIndexAt e t1 <= Scheduler.frameIndexAt e t2.
Proof.
  intros Hrp Hn Hbig Ht Hend Hdec.
  assert (Hd : 0 < Scheduler.trial_duration e) by lra.
  destruct (fraction_le (Scheduler.trial_duration e) (Scheduler.frame_num e)
              t1 t2 Hd Hn Ht) as [F1 F2].
  assert (Hx2 : t2 / Scheduler.trial_duration e * Scheduler.frame_num e
                < 10 ^ 21).
  { assert (0 <= t2 / Scheduler.trial_duration e < 1).
    { split; [apply Rmult_le_pos; [lra | left; now apply Rinv_0_lt_compat]|].
      apply Rmult_lt_reg_r with (Scheduler.trial_duration e); [exact Hd|].
      unfold Rdiv. rewrite Rmult_assoc, Rinv_l by lra. lra. }
    assert (0 < 10 ^ 21) by lra. nra. }
  assert (Hx1 : t1 / Scheduler.trial_duration e * Scheduler.frame_num e = 0
                \/ 1 / 1000000
                   <= t1 / Scheduler.trial_duration e * Scheduler.frame_num e).
  { destruct Hdec as [-> | H]; [left; unfold Rdiv; ring | now right]. }
  unfold Scheduler.frameIndexAt, Scheduler.frameIndexOf. rewrite Hrp.
  apply clamp_le. apply IZR_le. now apply parseInt_le.
Qed.

Lemma run_forward (e : Scheduler.Env) :
  Trial.reversePlayback (Scheduler.trial e) = false ->
  0 <= Scheduler.frame_num e ->
  Scheduler.frame_num e <= 10 ^ 21 ->
  forall (times : list R) (s : Scheduler.State) (lo : R),
    StronglySorted Rle times ->
    Forall (fun t => lo <= (t - Scheduler.start_time e) / 1000) times ->
    Forall (fun t =>
              (t - Scheduler.start_time e) / 1000 = 0
              \/ 1 / 1000000
                 <= (t - Scheduler.start_time e) / 1000
                    / Scheduler.trial_duration e * Scheduler.frame_num e)
           times ->
    0 <= lo ->
    lo = 0
    \/ 1 / 1000000 <= lo / Scheduler.trial_duration e * Scheduler.frame_num e ->
    Scheduler.heldIndex s <= Scheduler.frameIndexAt e lo ->
    StronglySorted Rle (Runs.shownIndices (Scheduler.csv_frameData s)) ->
    Forall (fun k => k <= Scheduler.heldIndex s)
           (Runs.shownIndices (Scheduler.csv_frameData s)) ->
    StronglySorted Rle
      (Runs.shownIndices (Scheduler.csv_frameData (Scheduler.run e times s))).
Proof.
  intros Hrp Hn Hbig times.
  induction times as [|ct rest IH];
    intros s lo Hsorted Hlo Hdec Hlo0 Hlodec Hheld Hs Hle;
    cbn [Scheduler.run]; [exact Hs|].
  inversion Hsorted as [|? ? Hrest Hct]; subst.
  inversion Hlo as [|? ? Hte Hlorest]; subst.
  inversion Hdec as [|? ? Htedec Hdecrest]; subst.
  set (te := (ct - Scheduler.start_time e) / 1000) in *.
  destruct (Scheduler.move_disc e ct s) as [s' again] eqn:E.
  destruct again; [|now rewrite (move_disc_stopped e ct s s' E)].
  destruct (move_disc_running e ct s s' E) as (Hend & _ & _).
  fold te in Hend.
  destruct (running_call_indices e ct s s' E) as [Hidx Hrows].
  fold te in Hidx.
  assert (Hmono : Scheduler.frameIndexAt e lo <= Scheduler.frameIndexAt e te)
    by (apply frameIndexAt_forward; auto; lra).
  assert (Hup : Scheduler.heldIndex s <= Scheduler.lastDisplayedFrameIndex s'
                /\ Scheduler.lastDisplayedFrameIndex s'
                   <= Scheduler.frameIndexAt e te)
    by (destruct Hidx as [-> | ->]; lra).
  assert (Hnew : Scheduler.heldIndex s' = Scheduler.lastDisplayedFrameIndex s').
  { apply heldIndex_fixed. destruct Hidx as [-> | ->].
    - apply heldIndex_not_initial.
    - pose proof (frameIndexOf_nonneg
                    (Trial.reversePlayback (Scheduler.trial e))
                    (Scheduler.frame_num e) (te / Scheduler.trial_duration e)).
      unfold Scheduler.frameIndexAt. lra. }
  assert (Hle' : Forall (fun k => k <= Scheduler.lastDisplayedFrameIndex s')
                        (Runs.shownIndices (Scheduler.csv_frameData s))).
  { eapply Forall_impl; [|exact Hle]. cbv beta. intros k Hk. lra. }
  apply (IH s' te).
  - exact Hrest.
  - rewrite Forall_forall in *. intros t Ht.
    specialize (Hct t Ht). unfold te. lra.
  - exact Hdecrest.
  - lra.
  - exact Htedec.
  - rewrite Hnew. tauto.
  - destruct Hrows as [-> | ->]; [exact Hs | now apply sorted_snoc].
  - rewrite Hnew. destruct Hrows as [-> | ->]; [exact Hle'|].
    apply Forall_app. split; [exact Hle'|]. constructor; [lra | constructor].
Qed.

(** X19: in forward playback with at most 1e21 frames, when the calls come
    at non-decreasing timestamps not before [start_time], and none of them
    falls where the product percent_time * frame_num is positive but below
    1e-6 (where [parseInt] reads the digit in front of the exponent), the
    frame numbers recorded in the telemetry never decrease along the
    trial. *)
Theorem forward_playback_never_goes_back (e : Scheduler.Env) (times : list R)
    (size0 : option SizeController.State) :
  Trial.reversePlayback (Scheduler.trial e) = false ->
  0 <= Scheduler.frame_num e ->
  Scheduler.frame_num e <= 10 ^ 21 ->
  StronglySorted Rle times ->
  Forall (fun t => Scheduler.start_time e <= t) times ->
  Forall (fun t =>
            t = Scheduler.start_time e
            \/ 1 / 1000000
               <= (t - Scheduler.start_time e) / 1000
                  / Scheduler.trial_duration e * Scheduler.frame_num e)
         times ->
  StronglySorted Rle
    (Runs.shownIndices
       (Scheduler.csv_frameData (Scheduler.run e times (Scheduler.initial size0)))).
Proof.
  intros Hrp Hn Hbig Hsorted Hstart Hdec.
  apply (run_forward e Hrp Hn Hbig times (Scheduler.initial size0) 0).
  - exact Hsorted.
  - eapply Forall_impl; [|exact Hstart]. cbv beta. intros t Ht. lra.
  - eapply Forall_impl; [|exact Hdec]. cbv beta.
    intros t [-> | Ht]; [left; lra | now right].
  - lra.
  - now left.
  - unfold Scheduler.heldIndex.
    cbn [Scheduler.initial Scheduler.lastDisplayedFrameIndex].
    rewrite eqb_refl. apply frameIndexOf_nonneg.
  - constructor.
  - constructor.
Qed.

Lemma forward_playback_never_goes_back_witness :
  StronglySorted Rle
    (Runs.shownIndices
       (Scheduler.csv_frameData
          (Scheduler.run
             (Inputs.env (Inputs.trial true false false None "hold" None) "hold")
             [0; 1500; 2500] (Scheduler.initial None)))).
Proof.
  apply (forward_playback_never_goes_back
           (Inputs.env (Inputs.trial true false false None "hold" None) "hold")
           [0; 1500; 2500] None).
  - reflexivity.
  - cbn. lra.
  - cbn. lra.
  - repeat (constructor; [|repeat (constructor; try lra)]). constructor.
  - cbn. repeat (constructor; try lra).
  - cbn. constructor; [now left|].
    constructor; [right; lra|]. constructor; [right; lra | constructor].
Defined.

(** ** Displayed frames exist *)

Section ValidIndices.

Import Scheduler.

Variable e : Env.
Variable n : Z.
Hypothesis frames : frame_num e = IZR n.
Hypothesis some_frame : (1 <= n)%Z.

Let valid (k : R) : Prop := exists z, k = IZR z /\ (0 <= z < n)%Z.

Lemma frameIndexOf_integer (rp : bool) (p : R) : valid (frameIndexOf rp (IZR n) p).
Proof.
  unfold frameIndexOf.
  assert (Hraw : exists a,
             (if rp then IZR n - 1 - IZR (Js.parseInt (p * IZR n))
              else IZR (Js.parseInt (p * IZR n))) = IZR a).
  { destruct rp; [|now eexists].
    exists (n - 1 - Js.parseInt (p * IZR n))%Z. now rewrite !minus_IZR. }
  destruct Hraw as [a ->].
  replace (IZR n - 1) with (IZR (n - 1)) by now rewrite minus_IZR.
  assert (Hmin : exists b, Rmin (IZR a) (IZR (n - 1)) = IZR b /\ (b <= n - 1)%Z).
  { destruct (Z_le_gt_dec a (n - 1)).
    - exists a. split; [apply Rmin_left; now apply IZR_le | assumption].
    - exists (n - 1)%Z. split; [apply Rmin_right; apply IZR_le; lia | lia]. }
  destruct Hmin as (b & -> & Hb).
  destruct (Z_le_gt_dec 0 b).
  - exists b. split; [apply Rmax_right; now apply (IZR_le 0) | lia].
  - exists 0%Z. split; [apply Rmax_left; apply (IZR_le b 0); lia | lia].
Qed.

Lemma heldIndex_initial (size0 : option SizeController.State) :
  valid (heldIndex (initial size0)).
Proof.
  exists 0%Z. split; [|lia]. unfold heldIndex.
  cbn [initial lastDisplayedFrameIndex]. now rewrite eqb_refl.
Qed.

Lemma heldIndex_enter (current_time : R) (s : State) :
  heldIndex (enter current_time s) = heldIndex s.
Proof.
  apply heldIndex_fixed. rewrite enter_index. apply heldIndex_not_initial.
Qed.

Lemma valid_not_initial (k : R) : valid k -> k <> -1.
Proof.
  intros (z & -> & Hz) H. apply (eq_IZR z (-1)) in H. lia.
Qed.

Lemma advance_valid (current_time p ms : R) (s : State) :
  valid (lastDisplayedFrameIndex s) ->
  valid (lastDisplayedFrameIndex (advance e current_time p ms s)).
Proof.
  intros Hs. unfold advance. destruct (shouldAdvanceFrame _ _ _ _); [|exact Hs].
  cbn [lastDisplayedFrameIndex]. rewrite frames. apply frameIndexOf_integer.
Qed.

Lemma readAt_valid {A : Type} (a : list A) (k : R) :
  valid k -> (Z.to_nat n <= length a)%nat -> exists x, readAt a k = Some x.
Proof.
  intros (z & -> & Hz) Hlen. rewrite readAt_integer by lia.
  destruct (nth_error a (Z.to_nat z)) eqn:E; [now eexists|].
  apply nth_error_None in E. lia.
Qed.

(** The invariant of the loop: the index held between calls is a frame. *)
Lemma move_disc_valid (current_time : R) (s : State) :
  valid (heldIndex s) ->
  valid (heldIndex (fst (move_disc e current_time s)))
  /\ (Forall valid (Runs.shownIndices (csv_frameData s)) ->
      Forall valid
        (Runs.shownIndices (csv_frameData (fst (move_disc e current_time s))))).
Proof.
  intros Hs.
  destruct (move_disc e current_time s) as [s' again] eqn:E. cbn [fst].
  destruct again.
  - destruct (running_call_indices e current_time s s' E) as [Hidx Hrows].
    assert (Hv : valid (lastDisplayedFrameIndex s')).
    { destruct Hidx as [-> | ->]; [exact Hs|].
      unfold frameIndexAt. rewrite frames. apply frameIndexOf_integer. }
    rewrite (heldIndex_fixed s' (valid_not_initial _ Hv)).
    split; [exact Hv|]. intros Hall.
    destruct Hrows as [-> | ->]; [exact Hall|].
    apply Forall_app. split; [exact Hall | now constructor].
  - rewrite (move_disc_stopped e current_time s s' E), heldIndex_enter.
    now split.
Qed.

End ValidIndices.

(** X20: when [frame_num] is a whole number of at least one frame, every
    frame number recorded in the telemetry is an integer from 0 to
    [frame_num - 1], at any timestamps and in either playback direction, so
    that reading a trajectory of at least [frame_num] positions at it never
    leaves the array. *)
Theorem displayed_frames_exist (e : Scheduler.Env) (times : list R)
    (size0 : option SizeController.State) (n : Z) :
  Scheduler.frame_num e = IZR n ->
  (1 <= n)%Z ->
  Scheduler.trial_duration e <> 0 ->
  Forall (fun k =>
            (exists z, k = IZR z /\ (0 <= z < n)%Z)
            /\ forall traj : list Geometry.Point,
                 (Z.to_nat n <= length traj)%nat ->
                 exists q, Scheduler.readAt traj k = Some q)
         (Runs.shownIndices
            (Scheduler.csv_frameData
               (Scheduler.run e times (Scheduler.initial size0)))).
Proof.
  intros Hn H1 _.
  assert (Hinv :
    let s := Scheduler.run e times (Scheduler.initial size0) in
    (exists z, Scheduler.heldIndex s = IZR z /\ (0 <= z < n)%Z)
    /\ Forall (fun k => exists z, k = IZR z /\ (0 <= z < n)%Z)
              (Runs.shownIndices (Scheduler.csv_frameData s))).
  { apply (run_invariant e
             (fun s =>
                (exists z, Scheduler.heldIndex s = IZR z /\ (0 <= z < n)%Z)
                /\ Forall (fun k => exists z, k = IZR z /\ (0 <= z < n)%Z)
                          (Runs.shownIndices (Scheduler.csv_frameData s)))).
    - intros ct s [Hheld Hall].
      destruct (move_disc_valid e n Hn H1 ct s Hheld) as [H2 H3].
      split; [exact H2 | now apply H3].
    - split; [now apply heldIndex_initial | constructor]. }
  destruct Hinv as [_ Hall].
  eapply Forall_impl; [|exact Hall]. cbv beta. intros k Hk.
  split; [exact Hk|]. intros traj Hlen. now apply (readAt_valid n).
Qed.

Lemma displayed_frames_exist_witness :
  Forall (fun k =>
            (exists z, k = IZR z /\ (0 <= z < 3)%Z)
            /\ forall traj : list Geometry.Point,
                 (Z.to_nat 3 <= length traj)%nat ->
                 exists q, Scheduler.readAt traj k = Some q)
         (Runs.shownIndices
            (Scheduler.csv_frameData
               (Scheduler.run
                  (Inputs.env (Inputs.trial true false true None "hold" None) "hold")
                  [0; 1500; 2500] (Scheduler.initial None)))).
Proof.
  apply (displayed_frames_exist
           (Inputs.env (Inputs.trial true false true None "hold" None) "hold")
           [0; 1500; 2500] None 3).
  - reflexivity.
  - lia.
  - cbn. lra.
Defined.

(** ** Drawn positions are numbers *)

Section FinitePositions.

Import Scheduler.

Variable e : Env.
Variable n : Z.
Variables cx cy : R.
Hypothesis frames : frame_num e = IZR n.
Hypothesis some_frame : (1 <= n)%Z.
Hypothesis moving : Trial.static (trial e) = false.
Hypothesis centerX : clothCenterX e = Js.Fin cx.
Hypothesis centerY : clothCenterY e = Js.Fin cy.
Hypothesis long_enough :
  Forall (fun traj => (Z.to_nat n <= length traj)%nat) (drawnTrajectories e).
Hypothesis configured :
  Trial.sizeVariation (trial e) = true -> exists c, sizeConfig e = Some c.

Let valid (k : R) : Prop := exists z, k = IZR z /\ (0 <= z < n)%Z.
Let finite (p : Js.num * Js.num) : Prop := exists x y, p = (Js.Fin x, Js.Fin y).
Let sized (s : State) : Prop :=
  Trial.sizeVariation (trial e) = true -> exists z, size s = Some z.

Lemma get_pos_finite (sc k : R) (traj : list Geometry.Point) :
  valid k -> (Z.to_nat n <= length traj)%nat ->
  finite (get_pos e (Js.Fin sc) k traj).
Proof.
  intros Hk Hlen. unfold get_pos. rewrite moving. cbn [negb].
  destruct (readAt_valid n some_frame traj k Hk Hlen) as [q ->].
  rewrite centerX, centerY. cbn [numOf scaled Js.lift2].
  now eexists _, _.
Qed.

Lemma scaleOf_finite (s : State) : sized s -> exists sc, scaleOf e s = Js.Fin sc.
Proof.
  intros Hs. unfold scaleOf.
  destruct (Trial.sizeVariation (trial e)); [|now eexists].
  destruct (Hs eq_refl) as [z ->]. now eexists.
Qed.

Lemma inFrame_finite (s : State) :
  sized s -> valid (lastDisplayedFrameIndex s) ->
  Forall finite (inFrame e (scaleOf e s) (lastDisplayedFrameIndex s)).
Proof.
  intros Hs Hk. destruct (scaleOf_finite s Hs) as [sc ->].
  unfold inFrame. apply Forall_map.
  eapply Forall_impl; [|exact long_enough]. cbv beta.
  intros traj Hlen. now apply get_pos_finite.
Qed.

Lemma advance_sized (current_time p ms : R) (s : State) :
  sized s -> sized (advance e current_time p ms s).
Proof.
  intros Hs Hv. unfold advance.
  destruct (shouldAdvanceFrame _ _ _ _); [|now apply Hs].
  cbn [size]. destruct (_ && _); [|now apply Hs].
  unfold stepSize. destruct (configured Hv) as [c ->].
  destruct (Hs Hv) as [z ->]. now eexists.
Qed.

Lemma display_positions (current_time te tf : R) (s : State) :
  shown_pos (display e current_time te tf s) = shown_pos s
  \/ shown_pos (display e current_time te tf s)
     = shown_pos s ++ [inFrame e (scaleOf e s) (lastDisplayedFrameIndex s)].
Proof.
  destruct (display_cases e current_time te tf s)
    as [(_ & ->) | [(_ & _ & ->) | [(_ & _ & ->) | (_ & _ & ->)]]];
    cbn [visible blank shown_pos]; auto.
Qed.

Lemma move_disc_finite (current_time : R) (s : State) :
  valid (heldIndex s) /\ sized s /\ Forall (Forall finite) (shown_pos s) ->
  let s' := fst (move_disc e current_time s) in
  valid (heldIndex s') /\ sized s' /\ Forall (Forall finite) (shown_pos s').
Proof.
  intros (Hk & Hs & Hall).
  destruct (move_disc e current_time s) as [s' again] eqn:E. cbn [fst].
  destruct again.
  - destruct (move_disc_running e current_time s s' E) as (_ & _ & ->).
    set (s0 := enter current_time s).
    assert (Hk0 : valid (lastDisplayedFrameIndex s0))
      by (unfold s0; now rewrite enter_index).
    match goal with
    | |- context [advance e ?a ?b ?c s0] =>
        pose proof (advance_valid e n frames some_frame a b c s0 Hk0) as Hk1;
        pose proof (advance_sized a b c s0 Hs) as Hs1;
        pose proof (advance_rows e a b c s0) as [_ Hpos];
        set (s1 := advance e a b c s0) in *
    end.
    change (shown_pos s0) with (shown_pos s) in Hpos.
    match goal with
    | |- context [display e ?a ?b ?c s1] =>
        destruct (display_keeps e a b c s1) as (Di & _ & Ds);
        pose proof (display_positions a b c s1) as Dp;
        set (s2 := display e a b c s1) in *
    end.
    cbv zeta in Di, Ds.
    split; [|split].
    + rewrite heldIndex_fixed; rewrite Di; [exact Hk1|].
      now apply (valid_not_initial n).
    + intros Hv. rewrite Ds. now apply Hs1.
    + destruct Dp as [-> | ->]; rewrite Hpos; [exact Hall|].
      apply Forall_app. split; [exact Hall|].
      constructor; [now apply inFrame_finite | constructor].
  - rewrite (move_disc_stopped e current_time s s' E), heldIndex_enter.
    now repeat split.
Qed.

Lemma run_finite (times : list R) (size0 : option SizeController.State) :
  (Trial.sizeVariation (trial e) = true -> exists z, size0 = Some z) ->
  Forall (Forall (fun p => exists x y, p = (Js.Fin x, Js.Fin y)))
         (shown_pos (run e times (initial size0))).
Proof.
  intros Hsize.
  apply (run_invariant e
           (fun s => valid (heldIndex s) /\ sized s
                     /\ Forall (Forall finite) (shown_pos s))).
  - intros ct s. apply move_disc_finite.
  - split; [now apply heldIndex_initial|]. split; [exact Hsize | constructor].
Qed.

End FinitePositions.

(** X21: for a moving display with a whole number of frames, finite cloth
    centre, every visited trajectory at least [frame_num] positions long
    and, under size variation, a finite size configuration and start scale,
    every position handed to [drawDots] on any run is a pair of finite
    numbers: no read leaves a trajectory and no [NaN] reaches the canvas. *)
Theorem drawn_positions_are_finite (e : Scheduler.Env) (times : list R)
    (size0 : option SizeController.State) (n : Z) (cx cy : R) :
  Scheduler.frame_num e = IZR n ->
  (1 <= n)%Z ->
  Scheduler.trial_duration e <> 0 ->
  Trial.static (Scheduler.trial e) = false ->
  Scheduler.clothCenterX e = Js.Fin cx ->
  Scheduler.clothCenterY e = Js.Fin cy ->
  Forall (fun traj => (Z.to_nat n <= length traj)%nat)
         (Scheduler.drawnTrajectories e) ->
  (Trial.sizeVariation (Scheduler.trial e) = true ->
   (exists c, Scheduler.sizeConfig e = Some c) /\ (exists z, size0 = Some z)) ->
  Forall (Forall (fun p => exists x y, p = (Js.Fin x, Js.Fin y)))
         (Scheduler.shown_pos (Scheduler.run e times (Scheduler.initial size0))).
Proof.
  intros Hn H1 _ Hstatic Hcx Hcy Hlong Hsize.
  apply (run_finite e n cx cy Hn H1 Hstatic Hcx Hcy Hlong).
  - intros Hv. exact (proj1 (Hsize Hv)).
  - intros Hv. exact (proj2 (Hsize Hv)).
Qed.

Lemma drawn_positions_are_finite_witness :
  Forall (Forall (fun p => exists x y, p = (Js.Fin x, Js.Fin y)))
         (Scheduler.shown_pos
            (Scheduler.run
               (Inputs.env (Inputs.trial true false true None "hold" None) "hold")
               [0; 1500; 2500] (Scheduler.initial None))).
Proof.
  apply (drawn_positions_are_finite
           (Inputs.env (Inputs.trial true false true None "hold" None) "hold")
           [0; 1500; 2500] None 3 5 0).
  - reflexivity.
  - lia.
  - cbn. lra.
  - reflexivity.
  - reflexivity.
  - reflexivity.
  - cbn. repeat constructor.
  - discriminate.
Defined.

(** ** The frame count and the length of the trajectories *)

Lemma updateAt_lengths {A : Type} (f : list A -> list A) (i : nat)
    (a : list (list A)) :
  (forall x, length (f x) = length x) ->
  map (@length A) (Setup.updateAt f i a) = map (@length A) a.
Proof.
  intros Hf. revert i. induction a as [|x a IH]; intros i; [now destruct i|].
  destruct i as [|j]; cbn [Setup.updateAt map]; [now rewrite Hf|].
  now rewrite IH.
Qed.

Lemma moveSelected_lengths (delta : Geometry.Point)
    (store : list (list Geometry.Point)) (ids : list nat) :
  map (@length Geometry.Point) (fst (Setup.moveSelected delta store ids))
  = map (@length Geometry.Point) store.
Proof.
  unfold Setup.moveSelected.
  match goal with
  | |- context [fold_left ?F ids (store, [])] => set (step := F)
  end.
  assert (H : forall l st acc,
             map (@length Geometry.Point) (fst (fold_left step l (st, acc)))
             = map (@length Geometry.Point) st).
  { induction l as [|id l IH]; intros st acc; cbn [fold_left]; [reflexivity|].
    rewrite (surjective_pairing (step (st, acc) id)), IH.
    unfold step. cbn [fst]. apply updateAt_lengths. intros x. apply length_map. }
  apply H.
Qed.

Lemma nth_length {A : Type} (l : list (list A)) (i : nat) :
  length (nth i l []) = nth i (map (@length A) l) 0%nat.
Proof. exact (eq_sym (map_nth (@length A) l [] i)). Qed.

Lemma isiAdjust_positive (t : Trial.t) (frame_num trial_duration : R) :
  1 <= frame_num -> 0 < trial_duration ->
  0 < Setup.isiAdjust t frame_num trial_duration.
Proof.
  intros Hn Hd. unfold Setup.isiAdjust.
  destruct (Trial.isi t) as [gap|]; [|exact Hd].
  unfold Js.ltb. destruct (Rlt_dec 0 gap) as [Hg|]; [|exact Hd].
  destruct (Trial.isiSlows t) as [[|]|]; try exact Hd.
  assert (0 <= (frame_num - 1) * (gap / 1000))
    by (apply Rmult_le_pos; lra).
  lra.
Qed.

(** X22: without an explicit [trial.trial_duration], for imported
    trajectories of [m] frames each, a cut below [m], at least one cycle and
    a positive frame rate, the setup leaves a whole, positive [frame_num] of
    (m - cutFrame) * cycleNum frames and a positive duration, while every
    selected trajectory holds (m - cutFrame) * 2^cycleNum positions, which
    is never fewer than [frame_num]. *)
Theorem setup_frames_fit_trajectories
    (t : Trial.t) (dot_pos : list Setup.Traj) (screenCenter : Geometry.Point)
    (rng : nat -> R) (shuffle : list nat -> list nat)
    (getRandomInt start_time : R) (tickRandom : nat -> R) (m : nat) :
  let p := Setup.setup t dot_pos screenCenter rng shuffle getRandomInt
             start_time tickRandom in
  let cut := match Trial.cutFrame t with Some n => n | None => 0%nat end in
  let cycles := match Trial.cycleNum t with Some n => n | None => 1%nat end in
  let frames := ((m - cut) * cycles)%nat in
  Trial.trial_duration t = None ->
  dot_pos <> [] ->
  Forall (fun d => length (Setup.positions d) = m) dot_pos ->
  (cut < m)%nat ->
  (1 <= cycles)%nat ->
  0 < Trial.fps t ->
  Scheduler.frame_num (Setup.env p) = IZR (Z.of_nat frames)
  /\ (1 <= frames)%nat
  /\ 0 < Scheduler.trial_duration (Setup.env p)
  /\ Forall (fun traj => length traj = ((m - cut) * 2 ^ cycles)%nat
                         /\ (frames <= length traj)%nat)
            (Scheduler.selected_dot_pos (Setup.env p)).
Proof.
  intros p cut cycles frames Hdur Hne Hrect Hcut Hcyc Hfps.
  destruct (setup_gridIDs t dot_pos screenCenter rng shuffle getRandomInt
              start_time tickRandom) as (_ & Hids & _).
  fold p in Hids.
  assert (Himp : Setup.importedFrames dot_pos = m).
  { destruct dot_pos as [|d rest]; [contradiction|].
    now inversion Hrect. }
  assert (Hframes : (INR (Setup.importedFrames dot_pos) - INR cut) * INR cycles
                    = IZR (Z.of_nat frames)).
  { rewrite Himp, <- minus_INR by lia. rewrite <- mult_INR.
    apply INR_IZR_INZ. }
  assert (Hpos : (1 <= frames)%nat) by (unfold frames; nia).
  assert (Hreal : 1 <= IZR (Z.of_nat frames)).
  { apply (IZR_le 1). lia. }
  split; [|split; [exact Hpos | split]].
  - subst p. cbn [Setup.setup Setup.env Scheduler.frame_num].
    rewrite Hdur. fold cut cycles. exact Hframes.
  - subst p. cbn [Setup.setup Setup.env Scheduler.trial_duration].
    rewrite Hdur. fold cut cycles. rewrite Hframes.
    apply isiAdjust_positive; [exact Hreal|].
    apply Rdiv_lt_0_compat; lra.
  - revert Hids. subst p.
    cbn [Setup.setup Setup.env Setup.gridIDs Scheduler.selected_dot_pos].
    fold cut cycles. intros Hids.
    apply Forall_map. apply Forall_forall. intros id Hid.
    match goal with
    | |- context [nth id (fst ?moved) []] =>
        assert (Hlen : map (@length Geometry.Point) (fst moved)
                       = map (@length Geometry.Point)
                             (map Setup.positions dot_pos))
    end.
    { destruct (Trial.centerCloth t); [|reflexivity].
      destruct (Geometry.calculateClothCenter _ _) as [[b c]|]; [|reflexivity].
      apply moveSelected_lengths. }
    assert (Hm : length (nth id (map Setup.positions dot_pos) []) = m).
    { rewrite (nth_positions _ _ (Setup.mkTraj (0, 0) [])) by (now apply Hids).
      rewrite Forall_forall in Hrect. apply Hrect. apply nth_In.
      now apply Hids. }
    match goal with
    | |- context [nth id (fst ?moved) []] =>
        assert (Hsame : length (nth id (fst moved) []) = m)
    end.
    { now rewrite nth_length, Hlen, <- nth_length. }
    unfold Setup.cutAndCycle. rewrite doubled_length, length_skipn, Hsame.
    split; [reflexivity|]. unfold frames.
    apply Nat.mul_le_mono_l. apply Nat.lt_le_incl.
    apply Nat.pow_gt_lin_r. lia.
Qed.

Lemma setup_frames_fit_trajectories_witness :
  let p := Demo.prepare (Demo.trial true false false None "hold") Demo.twoDots in
  Scheduler.frame_num (Setup.env p)
  = IZR (Z.of_nat ((length (Setup.positions (hd (Setup.mkTraj (0, 0) []) Demo.twoDots))
                    - 0) * 1))
  /\ 0 < Scheduler.trial_duration (Setup.env p).
Proof.
  pose proof (setup_frames_fit_trajectories
                (Demo.trial true false false None "hold") Demo.twoDots
                (100, 100) (fun _ => 1 / 4) (fun ids => ids) 0 0
                (fun _ => 1 / 4)
                (length (Setup.positions
                           (hd (Setup.mkTraj (0, 0) []) Demo.twoDots)))) as H.
  cbv zeta in H.
  assert (Hfps : 0 < Trial.fps (Demo.trial true false false None "hold"))
    by (cbn; lra).
  specialize (H eq_refl ltac:(discriminate)
                ltac:(repeat constructor) ltac:(cbn; lia) ltac:(cbn; lia) Hfps).
  exact (conj (proj1 H) (proj1 (proj2 (proj2 H)))).
Defined.

(** ** The hold timer *)

Lemma heldFor_snoc (d : R) (pre : list Scheduler.Row) (a b : Scheduler.Row) :
  Runs.heldFor d (pre ++ [a]) ->
  (Scheduler.displayFrameNumber b <> Scheduler.displayFrameNumber a ->
   d <= Scheduler.timeInCurrentDisplayFrame b) ->
  Runs.heldFor d ((pre ++ [a]) ++ [b]).
Proof.
  intros Hs Hab. induction pre as [|x pre IH].
  - cbn. split; [exact Hab | exact I].
  - destruct pre as [|y pre].
    + cbn in *. split; [tauto|]. split; [exact Hab | exact I].
    + cbn [app Runs.heldFor] in *. split; [tauto|]. apply IH. tauto.
Qed.

Lemma last_row_cases (rows : list Scheduler.Row) :
  rows = [] \/ exists pre r, rows = pre ++ [r].
Proof.
  destruct rows as [|x rows]; [now left|]. right.
  destruct (exists_last (l := x :: rows)) as (pre & r & H); [discriminate|].
  now exists pre, r.
Qed.

(** X23: in hold mode a frame stays on for at least [trial.frameDur]: when a
    row of the telemetry carries another frame number than the row before
    it, its time in the display frame, which is measured before the advance
    and so belongs to the frame just left, is at least frameDur / 1000. *)
Theorem hold_mode_keeps_a_frame_for_frameDur (e : Scheduler.Env)
    (times : list R) (size0 : option SizeController.State) (d : R) :
  Scheduler.isiMode e = "hold"%string ->
  Js.orElse (Trial.frameDur (Scheduler.trial e)) 0 = d ->
  Runs.heldFor (d / 1000)
    (Scheduler.csv_frameData (Scheduler.run e times (Scheduler.initial size0))).
Proof.
  intros Hmode Hd.
  assert (Hinv :
    let s := Scheduler.run e times (Scheduler.initial size0) in
    Runs.heldFor (d / 1000) (Scheduler.csv_frameData s)
    /\ forall pre r, Scheduler.csv_frameData s = pre ++ [r] ->
         Scheduler.displayFrameNumber r
         = Scheduler.Shown (Scheduler.heldIndex s));
    [|exact (proj1 Hinv)].
  apply (run_invariant e
           (fun s =>
              Runs.heldFor (d / 1000) (Scheduler.csv_frameData s)
              /\ forall pre r, Scheduler.csv_frameData s = pre ++ [r] ->
                   Scheduler.displayFrameNumber r
                   = Scheduler.Shown (Scheduler.heldIndex s))).
  - intros ct s [Hheld Hlast].
    destruct (Scheduler.move_disc e ct s) as [s' again] eqn:E. cbn [fst].
    destruct again.
    + destruct (move_disc_running e ct s s' E) as (_ & _ & ->).
      set (s0 := Scheduler.enter ct s).
      set (ms := ct - Scheduler.currentDisplayFrameStartTime s0).
      match goal with
      | |- context [Scheduler.advance e ?a ?b ms s0] =>
          pose proof (advance_rows e a b ms s0) as [Hcsv _];
          assert (Hadv : Scheduler.lastDisplayedFrameIndex
                           (Scheduler.advance e a b ms s0)
                         = Scheduler.heldIndex s
                         \/ d <= ms);
          [|set (s1 := Scheduler.advance e a b ms s0) in *]
      end.
      { unfold Scheduler.advance.
        destruct (Scheduler.shouldAdvanceFrame e ct ms s0) eqn:Es; [|now left].
        right. unfold Scheduler.shouldAdvanceFrame in Es.
        rewrite Hmode in Es. cbn [String.eqb Ascii.eqb Bool.eqb] in Es.
        rewrite Hd in Es. unfold Js.leb in Es.
        now destruct (Rle_dec d ms). }
      change (Scheduler.csv_frameData s0) with (Scheduler.csv_frameData s) in Hcsv.
      assert (Hidx : Scheduler.lastDisplayedFrameIndex s1 <> -1).
      { unfold s1, Scheduler.advance.
        destruct (Scheduler.shouldAdvanceFrame e ct _ s0);
          cbn [Scheduler.lastDisplayedFrameIndex].
        - pose proof (frameIndexOf_nonneg
                        (Trial.reversePlayback (Scheduler.trial e))
                        (Scheduler.frame_num e)
                        ((ct - Scheduler.start_time e) / 1000
                         / Scheduler.trial_duration e)). lra.
        - unfold s0. rewrite enter_index. apply heldIndex_not_initial. }
      match goal with
      | |- context [Scheduler.display e ?a ?b ?c s1] =>
          destruct (display_cases e a b c s1)
            as [(_ & ->) | [(Hb & _) | [(Hb & _) | (Hh & _)]]];
            try (rewrite Hmode in Hb; discriminate);
            try (now contradiction Hh)
      end.
      cbn [Scheduler.visible Scheduler.csv_frameData]. rewrite Hcsv.
      unfold Scheduler.heldIndex.
      cbn [Scheduler.visible Scheduler.lastDisplayedFrameIndex].
      rewrite (eqb_false _ _ Hidx).
      split.
      * destruct (last_row_cases (Scheduler.csv_frameData s))
          as [-> | (pre & r & Hrows)]; [exact I|].
        rewrite Hrows. apply heldFor_snoc; [now rewrite <- Hrows|].
        cbn [Scheduler.displayFrameNumber Scheduler.timeInCurrentDisplayFrame].
        rewrite (Hlast pre r Hrows). intros Hne.
        destruct Hadv as [Hsame | Hwait]; [now rewrite Hsame in Hne|].
        lra.
      * intros pre r Hr. apply app_inj_tail in Hr. destruct Hr as [_ <-].
        reflexivity.
    + rewrite (move_disc_stopped e ct s s' E), heldIndex_enter.
      now split.
  - cbn. split; [exact I|]. intros pre r Hr. now destruct pre.
Qed.

Lemma hold_mode_keeps_a_frame_for_frameDur_witness :
  Runs.heldFor (100 / 1000)
    (Scheduler.csv_frameData
       (Scheduler.run
          (Inputs.env (Inputs.trial true false false None "hold" None) "hold")
          [0; 50; 1500] (Scheduler.initial None))).
Proof.
  apply (hold_mode_keeps_a_frame_for_frameDur
           (Inputs.env (Inputs.trial true false false None "hold" None) "hold")
           [0; 50; 1500] None 100).
  - reflexivity.
  - cbn. rewrite eqb_false by lra. reflexivity.
Defined.

(** ** The frame index in the first instants of a trial *)

(** A running call in hold mode without a hold duration advances to the
    index its elapsed time maps to, shows it, and restarts the frame
    clock. *)
Lemma hold_without_frameDur_call (e : Scheduler.Env) (current_time : R)
    (s : Scheduler.State) :
  Scheduler.isiMode e = "hold"%string ->
  Js.orElse (Trial.frameDur (Scheduler.trial e)) 0 = 0 ->
  Scheduler.explicitDurationReached e
    ((current_time - Scheduler.start_time e) / 1000) = false ->
  (current_time - Scheduler.start_time e) / 1000 < Scheduler.trial_duration e ->
  Scheduler.currentDisplayFrameStartTime (Scheduler.enter current_time s)
    <= current_time ->
  exists s',
    Scheduler.move_disc e current_time s = (s', true)
    /\ Scheduler.lastDisplayedFrameIndex s'
       = Scheduler.frameIndexAt e ((current_time - Scheduler.start_time e) / 1000)
    /\ Scheduler.currentDisplayFrameStartTime s' = current_time
    /\ Runs.shownIndices (Scheduler.csv_frameData s')
       = Runs.shownIndices (Scheduler.csv_frameData s)
         ++ [Scheduler.frameIndexAt e
               ((current_time - Scheduler.start_time e) / 1000)]
    /\ Scheduler.size s'
       = (if Trial.sizeVariation (Scheduler.trial e)
             && negb (Js.eqb (Scheduler.lastDisplayedFrameIndex s')
                             (Scheduler.heldIndex s))
          then Scheduler.stepSize e s else Scheduler.size s)
    /\ Scheduler.shown_pos s'
       = Scheduler.shown_pos s
         ++ [Scheduler.inFrame e (Scheduler.scaleOf e s')
                               (Scheduler.lastDisplayedFrameIndex s')].
Proof.
  intros Hmode Hdur Hexp Hlt Hclock.
  unfold Scheduler.move_disc. cbv zeta. rewrite Hexp, (ltb_true _ _ Hlt).
  eexists. split; [reflexivity|].
  unfold Scheduler.display. rewrite Hmode. cbn [String.eqb Ascii.eqb Bool.eqb].
  unfold Scheduler.advance, Scheduler.shouldAdvanceFrame.
  rewrite Hmode. cbn [String.eqb Ascii.eqb Bool.eqb].
  rewrite Hdur, leb_true by lra.
  cbn [Scheduler.visible Scheduler.lastDisplayedFrameIndex
       Scheduler.currentDisplayFrameStartTime Scheduler.csv_frameData].
  split; [reflexivity|]. split; [reflexivity|].
  split; [rewrite shownIndices_app; reflexivity|].
  split; reflexivity.
Qed.

(** C4: the frame index is read with [parseInt] from the product
    percent_time * frame_num, which is printed first; a positive product
    below 1e-6 is printed in exponent notation and its first digit is read.
    With four frames in two seconds and forward playback, the elapsed time
    1e-7 s gives the product 2e-7 and the index 2, and the later elapsed
    time 0.6 s gives the index 1: the mapping decreases.  A run in hold
    mode called 0.0001 ms and 600 ms after the start records the frames 2
    and 1 in this order. *)
Theorem frame_index_reads_exponent_digit :
  let e := Demo.env (Demo.trial false false false None "hold") "hold" in
  Trial.reversePlayback (Scheduler.trial e) = false
  /\ 0 < Scheduler.trial_duration e
  /\ 1 <= Scheduler.frame_num e
  /\ 0 <= 1 / 10000000 <= 6 / 10
  /\ Scheduler.frameIndexAt e (1 / 10000000) = 2
  /\ Scheduler.frameIndexAt e (6 / 10) = 1
  /\ ~ Scheduler.frameIndexAt e (1 / 10000000) <= Scheduler.frameIndexAt e (6 / 10)
  /\ Runs.shownIndices
       (Scheduler.csv_frameData
          (Scheduler.run e [1 / 10000; 600] (Scheduler.initial None)))
     = [2; 1].
Proof.
  intros e.
  assert (Hdigit : Js.parseInt (1 / 10000000 / 2 * 4) = 2%Z).
  { rewrite parseInt_exponent by lra.
    apply (leadingDigit_eq 2 (-7)); [lia|].
    change (-7)%Z with (- Z.of_nat 7)%Z. rewrite Rpower_10_neg. lra. }
  assert (H1 : Scheduler.frameIndexAt e (1 / 10000000) = 2).
  { unfold Scheduler.frameIndexAt, Scheduler.frameIndexOf, e. cbn.
    rewrite Hdigit. rewrite Rmin_left by lra. apply Rmax_right. lra. }
  assert (H2 : Scheduler.frameIndexAt e (6 / 10) = 1).
  { unfold Scheduler.frameIndexAt, e. cbn.
    apply (frameIndexOf_forward 4 _ 1); [lia | lra | lra | right; lra | lra]. }
  split; [reflexivity|]. split; [cbn; lra|]. split; [cbn; lra|].
  split; [lra|]. split; [exact H1|]. split; [exact H2|].
  split; [rewrite H1, H2; lra|].
  assert (T1 : (1 / 10000 - Scheduler.start_time e) / 1000 = 1 / 10000000)
    by (cbn; lra).
  assert (T2 : (600 - Scheduler.start_time e) / 1000 = 6 / 10)
    by (cbn; lra).
  destruct (hold_without_frameDur_call e (1 / 10000) (Scheduler.initial None))
    as (s1 & E1 & I1 & C1 & R1 & _).
  - reflexivity.
  - cbn. now rewrite eqb_refl.
  - reflexivity.
  - rewrite T1. cbn. lra.
  - cbn [Scheduler.enter Scheduler.initial
         Scheduler.currentDisplayFrameStartTime
         Scheduler.lastDisplayedFrameIndex].
    rewrite eqb_refl. lra.
  - rewrite T1, H1 in I1. rewrite T1, H1 in R1.
    destruct (hold_without_frameDur_call e 600 s1) as (s2 & E2 & _ & _ & R2 & _).
    + reflexivity.
    + cbn. now rewrite eqb_refl.
    + reflexivity.
    + rewrite T2. cbn. lra.
    + cbn [Scheduler.enter Scheduler.currentDisplayFrameStartTime].
      rewrite I1, eqb_false by lra. rewrite C1. lra.
    + rewrite T2, H2, R1 in R2.
      cbn [Scheduler.run]. rewrite E1, E2. exact R2.
Qed.

(** ** Scaling a moving cloth *)

(** One upward step from scale 1 doubles the scale. *)
Lemma unit_step_doubles :
  SizeController.currentSizeFactor
    (SizeController.updateSizeFactor (SizeController.config (1 / 4) 4 2) (1 / 4)
       (SizeController.mkState 0 1 1)) = 2.
Proof.
  assert (H2 : 0 < ln 2) by (rewrite <- ln_1; apply ln_increasing; lra).
  assert (H4 : ln 2 < ln 4) by (apply ln_increasing; lra).
  assert (Hq : ln (1 / 4) < 0) by (rewrite <- ln_1; apply ln_increasing; lra).
  unfold SizeController.updateSizeFactor, SizeController.config.
  cbn [SizeController.logScale SizeController.logStepBase SizeController.logMin
       SizeController.logMax SizeController.currentSizeFactor].
  rewrite (ltb_true (1 / 4) (1 / 2)) by lra.
  rewrite (ltb_false (ln 4)), (ltb_false _ (ln (1 / 4))) by lra.
  cbn [orb]. replace (0 + 1 * ln 2) with (ln 2) by lra.
  apply exp_ln. lra.
Qed.

(** The first call of the scaling trial, at the start time, shows frame 0
    at scale 1. *)
Lemma scalingEnv_first_call :
  let s1 := fst (Scheduler.move_disc Inputs.scalingEnv 0
                   (Scheduler.initial Inputs.unitSize)) in
  Scheduler.lastDisplayedFrameIndex s1 = 0
  /\ Scheduler.currentDisplayFrameStartTime s1 = 0
  /\ Scheduler.size s1 = Inputs.unitSize.
Proof.
  destruct (hold_without_frameDur_call Inputs.scalingEnv 0
              (Scheduler.initial Inputs.unitSize))
    as (s1 & E1 & I1 & C1 & _ & Z1 & _).
  - reflexivity.
  - cbn. now rewrite eqb_refl.
  - reflexivity.
  - cbn. lra.
  - cbn [Scheduler.enter Scheduler.initial
         Scheduler.currentDisplayFrameStartTime
         Scheduler.lastDisplayedFrameIndex].
    rewrite eqb_refl. lra.
  - assert (H0 : Scheduler.frameIndexAt Inputs.scalingEnv
                   ((0 - Scheduler.start_time Inputs.scalingEnv) / 1000) = 0).
    { unfold Scheduler.frameIndexAt. cbn.
      apply (frameIndexOf_forward 3 _ 0); [lia | lra | lra | left; lra | lra]. }
    rewrite E1. cbn [fst]. rewrite H0 in I1.
    split; [exact I1|]. split; [exact C1|].
    rewrite Z1, I1. unfold Scheduler.heldIndex.
    cbn [Scheduler.initial Scheduler.lastDisplayedFrameIndex].
    rewrite !eqb_refl. cbn [negb]. now rewrite andb_false_r.
Qed.

(** A later call that reaches frame [z > 0] steps the scale to 2 and draws
    that frame at scale 2. *)
Lemma scalingEnv_second_call (current_time : R) (z : Z) :
  (0 < z)%Z ->
  Scheduler.frameIndexAt Inputs.scalingEnv (current_time / 1000) = IZR z ->
  0 <= current_time < 3000 ->
  let s1 := fst (Scheduler.move_disc Inputs.scalingEnv 0
                   (Scheduler.initial Inputs.unitSize)) in
  let r := Scheduler.move_disc Inputs.scalingEnv current_time s1 in
  snd r = true
  /\ Scheduler.lastDisplayedFrameIndex (fst r) = IZR z
  /\ Scheduler.scaleOf Inputs.scalingEnv (fst r) = Js.Fin 2
  /\ Scheduler.shown_pos (fst r)
     = Scheduler.shown_pos s1
       ++ [Scheduler.inFrame Inputs.scalingEnv (Js.Fin 2) (IZR z)].
Proof.
  intros Hz Hidx Hct s1.
  destruct scalingEnv_first_call as (I1 & C1 & Z1). fold s1 in I1, C1, Z1.
  assert (Hte : (current_time - Scheduler.start_time Inputs.scalingEnv) / 1000
                = current_time / 1000) by (cbn; lra).
  assert (Hnz : IZR z <> 0).
  { intros H. apply (eq_IZR z 0) in H. lia. }
  destruct (hold_without_frameDur_call Inputs.scalingEnv current_time s1)
    as (s2 & E2 & I2 & _ & _ & Z2 & P2).
  - reflexivity.
  - cbn. now rewrite eqb_refl.
  - reflexivity.
  - rewrite Hte. cbn. lra.
  - cbn [Scheduler.enter Scheduler.currentDisplayFrameStartTime].
    rewrite I1, eqb_false by lra. rewrite C1. lra.
  - cbv zeta. rewrite E2. cbn [fst snd].
    rewrite Hte, Hidx in I2.
    assert (Hscale : Scheduler.scaleOf Inputs.scalingEnv s2 = Js.Fin 2).
    { unfold Scheduler.scaleOf. rewrite Z2, I2.
      unfold Scheduler.heldIndex. rewrite I1, (eqb_false 0 (-1)) by lra.
      rewrite (eqb_false (IZR z) 0 Hnz).
      unfold Scheduler.stepSize. rewrite Z1.
      cbn [Inputs.scalingEnv Inputs.scalingTrial Inputs.unitSize
           Scheduler.trial Scheduler.sizeConfig Scheduler.random
           Trial.sizeVariation andb negb].
      unfold SizeController.getPixelScale. now rewrite unit_step_doubles. }
    split; [reflexivity|]. split; [exact I2|]. split; [exact Hscale|].
    now rewrite P2, Hscale, I2.
Qed.

Lemma size_scaling_is_centred_on_cloth_center_witness :
  let e := Inputs.scalingEnv in
  let s1 := fst (Scheduler.move_disc e 0 (Scheduler.initial Inputs.unitSize)) in
  let s2 := fst (Scheduler.move_disc e 1500 s1) in
  Scheduler.scaleOf e s2 = Js.Fin 2
  /\ Scheduler.shown_pos s2
     = Scheduler.shown_pos s1 ++ [Scheduler.inFrame e (Js.Fin 2) 1]
  /\ Drawn.points (Scheduler.inFrame e (Js.Fin 2) 1)
     = Some [(5 + (-1 - 5) * 2, 0 + (0 - 0) * 2);
             (5 + (11 - 5) * 2, 0 + (0 - 0) * 2)]
  /\ Drawn.center (Scheduler.inFrame e (Js.Fin 2) 1) = Some (5, 0).
Proof.
  intros e s1 s2.
  assert (Hidx : Scheduler.frameIndexAt Inputs.scalingEnv (1500 / 1000) = 1).
  { unfold Scheduler.frameIndexAt. cbn.
    apply (frameIndexOf_forward 3 _ 1); [lia | lra | lra | right; lra | lra]. }
  destruct (scalingEnv_second_call 1500 1 ltac:(lia) Hidx ltac:(lra))
    as (Hagain & Hlast & Hscale & Hshown).
  fold e s1 in Hagain, Hlast, Hscale, Hshown. fold s2 in Hlast, Hscale, Hshown.
  assert (Hmin : Rmin (-1) 11 = -1) by (apply Rmin_left; lra).
  assert (Hmax : Rmax (-1) 11 = 11) by (apply Rmax_right; lra).
  assert (Hmin0 : Rmin 0 0 = 0) by (apply Rmin_left; lra).
  assert (Hmax0 : Rmax 0 0 = 0) by (apply Rmax_left; lra).
  destruct (size_scaling_is_centred_on_cloth_center e 1500 s1 s2
              (Scheduler.inFrame e (Js.Fin 2) 1) 5 0 2
              [(-1, 0); (11, 0)]
              (Rmin (-1) 11 + (Rmax (-1) 11 - Rmin (-1) 11) / 2,
               Rmin 0 0 + (Rmax 0 0 - Rmin 0 0) / 2))
    as (Hpoints & _ & Hcentre).
  - reflexivity.
  - rewrite <- Hagain. apply surjective_pairing.
  - exact Hshown.
  - reflexivity.
  - reflexivity.
  - exact Hscale.
  - rewrite Hlast. unfold Drawn.originals, Scheduler.drawnTrajectories.
    cbn [e Inputs.scalingEnv Scheduler.selectedDotIDs
         Scheduler.selected_dot_pos length firstn map].
    now rewrite !(readAt_integer _ 1) by lia.
  - reflexivity.
  - split; [exact Hscale|]. split; [exact Hshown|]. split; [exact Hpoints|].
    apply Hcentre. rewrite Hmin, Hmax, Hmin0, Hmax0. f_equal; lra.
Defined.

(** C9, as stated, fails: in the scaling trial the call at 2500 ms is a
    visible tick without the static flag, it reaches frame 2 and steps the
    scale from 1 to 2, the cloth centre is (5, 0), and the two dots, stored
    at (2, 0) and (12, 0), are drawn at (-1, 0) and (19, 0): the bounding
    box of the drawn positions is centred at (9, 0), while the unscaled
    positions are centred at (7, 0). *)
Lemma size_scaling_center_counterexample :
  let e := Inputs.scalingEnv in
  let s1 := fst (Scheduler.move_disc e 0 (Scheduler.initial Inputs.unitSize)) in
  let r := Scheduler.move_disc e 2500 s1 in
  Trial.static (Scheduler.trial e) = false
  /\ Trial.sizeVariation (Scheduler.trial e) = true
  /\ snd r = true
  /\ Scheduler.scaleOf e (fst r) = Js.Fin 2
  /\ Scheduler.shown_pos (fst r)
     = Scheduler.shown_pos s1 ++ [[(Js.Fin (-1), Js.Fin 0); (Js.Fin 19, Js.Fin 0)]]
  /\ Scheduler.clothCenterX e = Js.Fin 5
  /\ Scheduler.clothCenterY e = Js.Fin 0
  /\ Geometry.centerOf [(2, 0); (12, 0)] = Some (7, 0)
  /\ Drawn.center [(Js.Fin (-1), Js.Fin 0); (Js.Fin 19, Js.Fin 0)] = Some (9, 0)
  /\ Drawn.center [(Js.Fin (-1), Js.Fin 0); (Js.Fin 19, Js.Fin 0)] <> Some (5, 0).
Proof.
  intros e s1 r.
  assert (Hidx : Scheduler.frameIndexAt Inputs.scalingEnv (2500 / 1000) = 2).
  { unfold Scheduler.frameIndexAt. cbn.
    apply (frameIndexOf_forward 3 _ 2); [lia | lra | lra | right; lra | lra]. }
  destruct (scalingEnv_second_call 2500 2 ltac:(lia) Hidx ltac:(lra))
    as (Hagain & _ & Hscale & Hshown).
  fold e s1 in Hagain, Hscale, Hshown. fold r in Hagain, Hscale, Hshown.
  assert (Hframe : Scheduler.inFrame e (Js.Fin 2) 2
                   = [(Js.Fin (-1), Js.Fin 0); (Js.Fin 19, Js.Fin 0)]).
  { unfold Scheduler.inFrame, Scheduler.drawnTrajectories, Scheduler.get_pos.
    cbn [e Inputs.scalingEnv Inputs.scalingTrial Scheduler.trial Trial.static
         Scheduler.selectedDotIDs Scheduler.selected_dot_pos
         Scheduler.clothCenterX Scheduler.clothCenterY
         length firstn map negb].
    rewrite !(readAt_integer _ 2) by lia.
    change (Z.to_nat 2) with 2%nat.
    cbn [nth_error Scheduler.numOf Scheduler.scaled Js.lift2 fst snd].
    f_equal; [|f_equal]; (f_equal; apply f_equal; lra). }
  assert (Hc7 : Geometry.centerOf [(2, 0); (12, 0)] = Some (7, 0)).
  { unfold Geometry.centerOf, Geometry.calculateClothCenter.
    cbn [map fst snd Js.Math_min Js.Math_max fold_left].
    rewrite (Rmin_left 2 12), (Rmax_right 2 12), (Rmin_left 0 0),
      (Rmax_left 0 0) by lra.
    cbn. do 2 f_equal; lra. }
  assert (Hc9 : Drawn.center [(Js.Fin (-1), Js.Fin 0); (Js.Fin 19, Js.Fin 0)]
                = Some (9, 0)).
  { unfold Drawn.center. cbn [Drawn.points].
    unfold Geometry.centerOf, Geometry.calculateClothCenter.
    cbn [map fst snd Js.Math_min Js.Math_max fold_left].
    rewrite (Rmin_left (-1) 19), (Rmax_right (-1) 19), (Rmin_left 0 0),
      (Rmax_left 0 0) by lra.
    cbn. do 2 f_equal; lra. }
  split; [reflexivity|]. split; [reflexivity|]. split; [exact Hagain|].
  split; [exact Hscale|]. split; [now rewrite Hshown, Hframe|].
  split; [reflexivity|]. split; [reflexivity|]. split; [exact Hc7|].
  split; [exact Hc9|]. rewrite Hc9. intros [= H]. lra.
Qed.
